(** * Sprite-atlas scripts: [scripts/atlas.js] and [scripts/generate_atlas_text.js]

    A shallow embedding of the two Node scripts and the properties their
    specification states about them.  JavaScript strings are modelled as
    [string] (a sequence of character codes compared code by code), the
    non-negative integers the scripts compute with (image dimensions,
    offsets, all far below 2^53) as [N], arrays as lists, and the
    asynchronous functions as computations in a small monad [io] that
    threads the observable process state and carries thrown [Error]s and
    [process.exit]. *)

From Stdlib Require Import Ascii String Floats Uint63.
From stdpp Require Import list sorting strings pretty numbers.


Local Open Scope N_scope.

(** ** JavaScript string primitives used by the scripts *)

Module Js.

(** [s.substring(0, n)] for [0 <= n] *)
Fixpoint take (n : nat) (s : string) : string :=
  match n, s with
  | S n', String c s' => String c (take n' s')
  | _, _ => ""
  end.

(** [s.slice(n)] for [0 <= n] *)
Fixpoint drop (n : nat) (s : string) : string :=
  match n, s with
  | S n', String _ s' => drop n' s'
  | _, _ => s
  end.

(** [s.lastIndexOf(c)] for a one-character [c]; [None] stands for [-1]. *)
Fixpoint lastIndexOf (c : ascii) (s : string) : option nat :=
  match s with
  | "" => None
  | String d s' =>
      match lastIndexOf c s' with
      | Some i => Some (S i)
      | None => if decide (d = c) then Some O else None
      end
  end.

(** [s.substring(0, i)] where [i] is the result of [lastIndexOf]:
    [substring] clamps the negative index [-1] to [0]. *)
Definition substring_to (i : option nat) (s : string) : string :=
  match i with
  | Some n => take n s
  | None => ""
  end.

(** [s.replace(/\\/g, '/')] *)
Fixpoint replace_backslashes (s : string) : string :=
  match s with
  | "" => ""
  | String c s' =>
      String (if decide (c = "\"%char) then "/"%char else c) (replace_backslashes s')
  end.

(** [toLowerCase] on one character code: the letters A-Z move to a-z.
    No other code of the allow-listed extensions has an upper-case form. *)
Definition lower_char (c : ascii) : ascii :=
  let n := N_of_ascii c in
  if decide (65 ≤ n ∧ n ≤ 90) then ascii_of_N (n + 32) else c.

(** [s.toLowerCase()] *)
Fixpoint toLowerCase (s : string) : string :=
  match s with
  | "" => ""
  | String c s' => String (lower_char c) (toLowerCase s')
  end.

(** [s.split(sep)] for a one-character separator; never the empty list. *)
Fixpoint split (sep : ascii) (s : string) : list string :=
  match s with
  | "" => [""]
  | String c s' =>
      if decide (c = sep) then "" :: split sep s'
      else match split sep s' with
           | [] => [String c ""]
           | h :: t => String c h :: t
           end
  end.

(** [parts.join(sep)] *)
Fixpoint join (sep : string) (parts : list string) : string :=
  match parts with
  | [] => ""
  | [p] => p
  | p :: rest => p +:+ sep +:+ join sep rest
  end.

(** [s.charCodeAt(0) === c] *)
Definition starts_with_char (c : ascii) (s : string) : bool :=
  match s with
  | String d _ => bool_decide (d = c)
  | "" => false
  end.

(** [s.charCodeAt(s.length - 1) === c] *)
Fixpoint ends_with_char (c : ascii) (s : string) : bool :=
  match s with
  | "" => false
  | String d "" => bool_decide (d = c)
  | String _ s' => ends_with_char c s'
  end.

(** [s.endsWith(t)] *)
Definition ends_with (t s : string) : bool :=
  bool_decide (drop (String.length s - String.length t) s = t).

(** [s.includes(c)] for a one-character [c] *)
Fixpoint includes (c : ascii) (s : string) : bool :=
  match s with
  | "" => false
  | String d s' => bool_decide (d = c) || includes c s'
  end.

(** The line feed the template literals write as a backslash and n. *)
Definition LF : string := String (ascii_of_N 10) "".

End Js.

(** ** Node's [path] module (POSIX flavour)

    The functions of the library the scripts call, on the path as a list
    of [/]-separated segments. *)

Module Path.

Definition sep : ascii := "/"%char.

(** [normalizeString] walks the segments of the path and keeps a stack
    [res] of segments, last one first: empty and [.] segments are
    dropped, [..] removes the segment before it, or is kept when there is
    none to remove and the path may climb above its root. *)
Definition normalize_segment (allowAboveRoot : bool) (res : list string) (seg : string)
    : list string :=
  if decide (seg = "" ∨ seg = ".") then res
  else if decide (seg = "..") then
    match res with
    | top :: res' =>
        if decide (top = "..") then (if allowAboveRoot then ".." :: res else res)
        else res'
    | [] => if allowAboveRoot then [".."] else []
    end
  else seg :: res.

Definition normalizeString (p : string) (allowAboveRoot : bool) : list string :=
  reverse (foldl (normalize_segment allowAboveRoot) [] (Js.split sep p)).

(** [path.isAbsolute(p)] *)
Definition isAbsolute (p : string) : bool := Js.starts_with_char sep p.

(** [path.normalize(p)] *)
Definition normalize (p : string) : string :=
  if decide (p = "") then "."
  else
    let absolute := isAbsolute p in
    let trailingSeparator := Js.ends_with_char sep p in
    let body := Js.join "/" (normalizeString p (negb absolute)) in
    if decide (body = "") then
      if absolute then "/" else if trailingSeparator then "./" else "."
    else
      (if absolute then "/" else "") +:+ body +:+
      (if trailingSeparator then "/" else "").

(** [path.join(a, b)] *)
Definition join (a b : string) : string :=
  if decide (a = "") then
    if decide (b = "") then "." else normalize b
  else if decide (b = "") then normalize a
  else normalize (a +:+ "/" +:+ b).

(** [path.resolve(p)] with the working directory [cwd] (an absolute
    path), as [path.relative] applies it to each of its arguments. *)
Definition resolve (cwd p : string) : list string :=
  if isAbsolute p then normalizeString p false
  else normalizeString (cwd +:+ "/" +:+ p) false.

Fixpoint strip_common {A} `{EqDecision A} (l1 l2 : list A) : list A * list A :=
  match l1, l2 with
  | x :: l1', y :: l2' => if decide (x = y) then strip_common l1' l2' else (l1, l2)
  | _, _ => (l1, l2)
  end.

(** [path.relative(from, to)]: one [..] for each segment of [from] below
    the common directory, then the segments of [to] below it. *)
Definition relative (cwd from to : string) : string :=
  let '(up, down) := strip_common (resolve cwd from) (resolve cwd to) in
  Js.join "/" (replicate (List.length up) ".." ++ down).

(** The last segment of [p], trailing separators ignored; [""] when [p]
    has no segment at all. *)
Definition last_component (p : string) : string :=
  default "" (list.last (filter (λ s, s ≠ "") (Js.split sep p))).

(** [path.extname(p)]: from the last [.] of the last segment to its end;
    empty when there is no [.], when it is the first character of the
    segment, or when the segment is [..]. *)
Definition extname (p : string) : string :=
  let name := last_component p in
  match Js.lastIndexOf "."%char name with
  | None | Some O => ""
  | Some i => if decide (name = "..") then "" else Js.drop i name
  end.

(** [path.basename(p, suffix)]: the last segment, without [suffix] when
    it ends with it and is longer than it. *)
Definition basename (p suffix : string) : string :=
  let name := last_component p in
  if decide (suffix = "") then name
  else if decide (suffix = p) then ""
  else if Js.ends_with suffix name && negb (bool_decide (name = suffix))
       then Js.take (String.length name - String.length suffix) name
       else name.

End Path.

(** ** The image library

    What the scripts use of Jimp: a decoded image is its [bitmap], the
    width, the height and the RGBA bytes in row-major order, four per
    pixel. *)

Module Jimp.

Record bitmap := Bitmap {
  width : N;
  height : N;
  data : list N
}.

(** The four bytes [writeUInt32BE] stores for a colour [0xRRGGBBAA]. *)
Definition uint32BE (color : N) : list N :=
  [N.land (N.shiftr color 24) 255; N.land (N.shiftr color 16) 255;
   N.land (N.shiftr color 8) 255; N.land color 255].

(** [new Jimp({ width, height, color })]: a zero-filled buffer of
    [width * height * 4] bytes, every pixel then set to [color]. *)
Definition create (width height color : N) : bitmap :=
  Bitmap width height (mjoin (replicate (N.to_nat (width * height)) (uint32BE color))).

(** *** Blending

    [composite] blends with the mode [srcOver] on channels scaled to
    [0..1], in double precision. *)

Local Open Scope float_scope.

Definition to_float (byte : N) : float := PrimFloat.of_uint63 (Uint63.of_Z (Z.of_N byte)).

(** [Math.min(Math.max(n, 0), 255)]; a NaN stays a NaN. *)
Definition limit255 (n : float) : float :=
  if PrimFloat.is_nan n then n
  else if n <? 0 then 0
  else if 255 <? n then 255
  else n.

(** Storing a number into a byte buffer: NaN becomes 0, any other
    number is truncated towards zero (it lies in [0..255] here). *)
Definition to_uint8 (n : float) : N :=
  match Prim2SF n with
  | S754_finite false m e =>
      match e with
      | Z0 => Npos m
      | Zpos p => N.shiftl (Npos m) (Npos p) mod 256
      | Zneg p => N.shiftr (Npos m) (Npos p) mod 256
      end
  | _ => 0%N
  end.

(** One colour channel of [srcOver(src, dst, 1)]; [sc], [sa] are the
    source channel and alpha, [dc], [da] the destination ones. *)
Definition srcOver_color (sc sa dc da : float) : float :=
  let sa := sa * 1 in
  let a := da + sa - da * sa in
  (sc * sa + dc * da * (1 - sa)) / a.

Definition srcOver_alpha (sa da : float) : float :=
  let sa := sa * 1 in
  da + sa - da * sa.

(** The byte written for channel [ch] (0, 1, 2 colour, 3 alpha) when the
    pixel with bytes [s] is blended onto the pixel with bytes [d]. *)
Definition blend_byte (ch : N) (s d : N * N * N * N) : N :=
  let '(sr, sg, sb, sa) := s in
  let '(dr, dg, db, da) := d in
  let f := λ b, to_float b / 255 in
  let color := λ sc dc, to_uint8 (limit255 (srcOver_color (f sc) (f sa) (f dc) (f da) * 255)) in
  match ch with
  | 0%N => color sr dr
  | 1%N => color sg dg
  | 2%N => color sb db
  | _ => to_uint8 (limit255 (srcOver_alpha (f sa) (f da) * 255))
  end.

Local Close Scope float_scope.

(** The four bytes of the pixel whose first byte has index [i]. *)
Definition pixel_at (bytes : list N) (i : N) : N * N * N * N :=
  let b := λ k, default 0 (bytes !! N.to_nat (i + k)) in
  (b 0, b 1, b 2, b 3).

(** [base.composite(src, x, y)] with the default options.  Every source
    pixel [(sx, sy)] whose target [(x + sx, y + sy)] lies inside [base]
    is blended onto that target; distinct source pixels have distinct
    targets, so the byte [j] of the result is given directly. *)
Definition composite_byte (base src : bitmap) (x y : N) (j : nat) (old : N) : N :=
  let p := N.of_nat j / 4 in
  let ch := N.of_nat j mod 4 in
  let px := p mod width base in
  let py := p / width base in
  if decide (x ≤ px ∧ px < x + width src ∧ y ≤ py ∧ py < y + height src) then
    blend_byte ch
      (pixel_at (data src) ((width src * (py - y) + (px - x)) * 4))
      (pixel_at (data base) (p * 4))
  else old.

Definition composite (base src : bitmap) (x y : N) : bitmap :=
  Bitmap (width base) (height base) (imap (composite_byte base src x y) (data base)).

(** *** Reading pixels *)

(** [image.bitmap.data[j]], with 0 for an index outside the buffer. *)
Definition byte (image : bitmap) (j : N) : N := default 0 (data image !! N.to_nat j).

(** [image.getPixelIndex(x, y)] for a pixel inside the image. *)
Definition getPixelIndex (image : bitmap) (x y : N) : N := (width image * y + x) * 4.

(** The four bytes of the pixel [(x, y)]. *)
Definition getPixel (image : bitmap) (x y : N) : N * N * N * N :=
  pixel_at (data image) (getPixelIndex image x y).

(** The pixel that results from blending the pixel [s] onto [d]. *)
Definition blend_pixel (s d : N * N * N * N) : N * N * N * N :=
  (blend_byte 0 s d, blend_byte 1 s d, blend_byte 2 s d, blend_byte 3 s d).

(** A decoded image has four bytes for each of its pixels. *)
Definition well_formed (image : bitmap) : Prop :=
  length (data image) = N.to_nat (width image * height image * 4) ∧
  Forall (λ b, b < 256) (data image).

End Jimp.

(** ** The file system and the process

    [fs.readdir(dir, { withFileTypes: true })] yields directory entries;
    the scripts ask an entry only for its [name] and [isDirectory()]. *)

Inductive entry_type :=
| RegularFile | SymbolicLink | Fifo | Socket | BlockDevice | CharacterDevice.

(** The tree below a directory: an entry that is not a directory, a
    directory with its listing, or a directory whose [readdir] rejects. *)
Local Unset Elimination Schemes.
Inductive fs_node :=
| Entry (name : string) (type : entry_type)
| Directory (name : string) (entries : list fs_node)
| Unreadable (name : string) (message : string).
Local Set Elimination Schemes.

Inductive file_content :=
| ImageFile (image : Jimp.bitmap)
| TextFile (text : string).

Inductive console_arg :=
| Str (s : string)
| Arr (l : list string).

Inductive console_call :=
| console_log (args : list console_arg)
| console_error (args : list console_arg).

(** What a run leaves behind: the console calls and the files written,
    both oldest first. *)
Record process := Process {
  console : list console_call;
  written : list (string * file_content)
}.

(** How a computation ends: with a value, with a thrown [Error], or by
    [process.exit]. *)
Inductive completion (A : Type) :=
| Return (value : A)
| Throw (message : string)
| Exit (code : N).
Arguments Return {A} value.
Arguments Throw {A} message.
Arguments Exit {A} code.

Definition io (A : Type) : Type := process → process * completion A.

Definition io_ret {A} (a : A) : io A := λ p, (p, Return a).

Definition io_bind {A B} (m : io A) (k : A → io B) : io B :=
  λ p, match m p with
       | (p', Return a) => k a p'
       | (p', Throw msg) => (p', Throw msg)
       | (p', Exit code) => (p', Exit code)
       end.

Notation "'do' x <- m ; k" := (io_bind m (λ x, k))
  (at level 10, x name, m at level 100, k at level 200).
Notation "m ;; k" := (io_bind m (λ _, k))
  (at level 100, k at level 200, right associativity).

(** [throw new Error(message)] *)
Definition throw {A} (message : string) : io A := λ p, (p, Throw message).

(** [process.exit(code)] *)
Definition process_exit {A} (code : N) : io A := λ p, (p, Exit code).

(** [try { body } catch (error) { handler(error.message) }] *)
Definition try_catch {A} (body : io A) (handler : string → io A) : io A :=
  λ p, match body p with
       | (p', Throw msg) => handler msg p'
       | r => r
       end.

Definition log (args : list console_arg) : io unit :=
  λ p, (Process (console p ++ [console_log args]) (written p), Return ()).

Definition log_error (args : list console_arg) : io unit :=
  λ p, (Process (console p ++ [console_error args]) (written p), Return ()).

(** The outside world of one run: the working directory of the process,
    the tree [readdir] finds below a directory, the image [Jimp.read]
    decodes from a file, and whether writing a file fails.  The three
    oracles are indexed by absolute path names; [inl message] and
    [Some message] stand for a rejection with that message. *)
Record world := World {
  cwd : string;
  listing : string → string + list fs_node;
  decode : string → string + Jimp.bitmap;
  write_error : string → option string
}.

(** The file a path names for the operating system: a relative path
    is taken from the working directory. *)
Definition os_path (w : world) (p : string) : string :=
  if Path.isAbsolute p then p else cwd w +:+ "/" +:+ p.

(** [await promise]: the value of a fulfilled promise; a rejected one
    throws its reason. *)
Definition await {A} (promise : string + A) : io A :=
  match promise with
  | inr a => io_ret a
  | inl message => throw message
  end.

(** [Jimp.read(imagePath)] *)
Definition Jimp_read (w : world) (imagePath : string) : string + Jimp.bitmap :=
  decode w (os_path w imagePath).
Arguments Jimp_read : simpl never.

(** [await spritesheet.write(outputFilePath)] and
    [await fs.promises.writeFile(outputFilePath, outputContent)] *)
Definition write_file (w : world) (outputFilePath : string) (content : file_content)
    : io unit :=
  match write_error w (os_path w outputFilePath) with
  | Some message => throw message
  | None =>
      λ p, (Process (console p) (written p ++ [(os_path w outputFilePath, content)]),
            Return ())
  end.

(** The exit status of the process once the script has run: a normal end
    leaves 0, [process.exit(code)] leaves [code], an uncaught rejection 1. *)
Definition exit_status {A} (c : completion A) : N :=
  match c with
  | Return _ => 0
  | Throw _ => 1
  | Exit code => code
  end.

(** ** Discovery: [getImageFilesRecursively], the same in both scripts *)

Definition image_extensions : list string :=
  [".png"; ".jpg"; ".jpeg"; ".bmp"; ".gif"].

(** [entry.name] *)
Definition entry_name (entry : fs_node) : string :=
  match entry with
  | Entry name _ | Directory name _ | Unreadable name _ => name
  end.

(** [await Promise.all(promises)]: all the values in order, or the
    rejection of the first promise of the list that rejects. *)
Fixpoint Promise_all {A} (promises : list (string + A)) : string + list A :=
  match promises with
  | [] => inr []
  | inl message :: _ => inl message
  | inr a :: rest =>
      match Promise_all rest with
      | inl message => inl message
      | inr l => inr (a :: l)
      end
  end.

(** [files.flat()] on the resolved [Promise.all] *)
Definition flat {A} (files : string + list (list A)) : string + list A :=
  match files with
  | inl message => inl message
  | inr ls => inr (concat ls)
  end.

(** The callback given to [entries.map] in the directory [dir]; for a
    directory entry it is the recursive call, which lists the directory
    and maps the callback over its entries. *)
Fixpoint scan_entry (dir : string) (entry : fs_node) : string + list string :=
  let fullPath := Path.join dir (entry_name entry) in
  match entry with
  | Directory _ entries => flat (Promise_all (map (scan_entry fullPath) entries))
  | Unreadable _ message => inl message
  | Entry name _ =>
      let ext := Js.toLowerCase (Path.extname name) in
      if decide (ext ∈ image_extensions) then inr [fullPath] else inr []
  end.

Definition getImageFilesRecursively (w : world) (dir : string) : string + list string :=
  match listing w (os_path w dir) with
  | inl message => inl message
  | inr entries => flat (Promise_all (map (scan_entry dir) entries))
  end.

(** [imageFiles.sort()]: the default order of [Array.prototype.sort] on
    strings, code by code. *)
Definition sort (imageFiles : list string) : list string :=
  merge_sort String.le imageFiles.

(** [`Found ${imageFiles.length} image(s):`] *)
Definition found_message (imageFiles : list string) : string :=
  "Found " +:+ pretty (N.of_nat (length imageFiles)) +:+ " image(s):".

Definition no_images_message : string :=
  "No image files found in the specified directory or its subdirectories.".

(** ** [atlas.js] *)

Module Atlas.

(** [loadImage] *)
Definition loadImage (w : world) (imagePath : string) : io Jimp.bitmap :=
  try_catch (await (Jimp_read w imagePath))
    (λ message, throw ("Failed to load image at " +:+ imagePath +:+ ": " +:+ message)).

(** The variables of the first loop: [images], [maxWidth], [totalHeight]. *)
Record measure := Measure {
  images : list Jimp.bitmap;
  maxWidth : N;
  totalHeight : N
}.

(** Lines 90-103. *)
Fixpoint measure_loop (w : world) (imageFiles : list string) (st : measure)
    : io measure :=
  match imageFiles with
  | [] => io_ret st
  | imagePath :: rest =>
      do st' <-
        try_catch
          (do image <- loadImage w imagePath;
           io_ret {| images := images st ++ [image];
                     maxWidth := N.max (maxWidth st) (Jimp.width image);
                     totalHeight := totalHeight st + Jimp.height image |})
          (λ message,
             log_error [Str message];;
             throw "Spritesheet creation aborted due to image loading errors");
      measure_loop w rest st'
  end.

(** Lines 108-116, for any [composite] operation on a canvas of type
    [C]; the script runs it with [Jimp.composite]. *)
Fixpoint composite_loop {C} (composite : C → Jimp.bitmap → N → N → C)
    (images : list Jimp.bitmap) (spritesheet : C) (yOffset : N) : C * N :=
  match images with
  | [] => (spritesheet, yOffset)
  | image :: rest =>
      composite_loop composite rest
        (composite spritesheet image 0 yOffset)
        (yOffset + Jimp.height image)
  end.

Definition createSpritesheet (w : world) (imageDirectory outputFilePath : string)
    : io unit :=
  try_catch
    (do imageFiles <- await (getImageFilesRecursively w imageDirectory);
     if decide (length imageFiles = 0%nat) then
       log [Str no_images_message]
     else
       let imageFiles := sort imageFiles in
       log [Str (found_message imageFiles); Arr imageFiles];;
       do m <- measure_loop w imageFiles (Measure [] 0 0);
       let spritesheet := Jimp.create (maxWidth m) (totalHeight m) 0 in
       let '(spritesheet, _) :=
         composite_loop Jimp.composite (images m) spritesheet 0 in
       write_file w outputFilePath (ImageFile spritesheet);;
       log [Str ("Spritesheet created successfully at: " +:+ outputFilePath)])
    (λ message,
       log_error [Str "Error creating spritesheet:"; Str message];;
       process_exit 1).

(** The script: [argv] is [process.argv], [dirname] is [__dirname]. *)
Definition main (w : world) (dirname : string) (argv : list string) : io unit :=
  match drop 2 argv with
  | inputImageDirectory :: outputFileName :: _ =>
      let imageDirectory := Path.join dirname inputImageDirectory in
      let outputFilePath := Path.join dirname outputFileName in
      createSpritesheet w imageDirectory outputFilePath
  | _ =>
      log_error [Str "Error: Both image directory and output file name must be provided as command-line arguments."];;
      log_error [Str "Usage: node atlas.js <image_directory_path> <output_spritesheet_name>"];;
      process_exit 1
  end.

End Atlas.

(** ** [generate_atlas_text.js] *)

Module AtlasText.

Import Js (LF).

(** [getImageDimensions] *)
Definition getImageDimensions (w : world) (imagePath : string) : io (N * N) :=
  try_catch
    (do image <- await (Jimp_read w imagePath);
     io_ret (Jimp.width image, Jimp.height image))
    (λ message,
       throw ("Failed to get dimensions for image at " +:+ imagePath +:+ ": " +:+ message)).

(** [{ path: imagePath, ...dimensions }] *)
Record image_data := ImageData {
  path : string;
  width : N;
  height : N
}.

(** The variables of the first loop: [maxWidth], [totalHeight],
    [imageData]. *)
Record measure := Measure {
  maxWidth : N;
  totalHeight : N;
  imageData : list image_data
}.

(** Lines 89-100. *)
Fixpoint measure_loop (w : world) (imageFiles : list string) (st : measure)
    : io measure :=
  match imageFiles with
  | [] => io_ret st
  | imagePath :: rest =>
      do st' <-
        try_catch
          (do dimensions <- getImageDimensions w imagePath;
           io_ret {| imageData := imageData st ++
                                    [ImageData imagePath dimensions.1 dimensions.2];
                     maxWidth := N.max (maxWidth st) dimensions.1;
                     totalHeight := totalHeight st + dimensions.2 |})
          (λ message,
             log_error [Str message];;
             throw "Atlas text file generation aborted due to image dimension errors");
      measure_loop w rest st'
  end.

(** Lines 105-109. *)
Definition header (outputImageReferenceName : string) (maxWidth totalHeight : N)
    : string :=
  outputImageReferenceName +:+ LF +:+
  "size: " +:+ pretty maxWidth +:+ ", " +:+ pretty totalHeight +:+ LF +:+
  "format: RGBA8888" +:+ LF +:+
  "filter: MipMapLinearLinear, MipMapLinearLinear" +:+ LF +:+
  "repeat: none" +:+ LF.

(** Lines 116-117. *)
Definition relativePathWithoutExtension (w : world) (imageDirectory : string)
    (img : image_data) : string :=
  let relativePathWithExtension :=
    Js.replace_backslashes (Path.relative (cwd w) imageDirectory (path img)) in
  Js.substring_to (Js.lastIndexOf "."%char relativePathWithExtension)
    relativePathWithExtension.

(** Lines 118-124: what one iteration appends to [outputContent]. *)
Definition region_lines (name : string) (yOffset width height : N) : string :=
  name +:+ LF +:+
  "  rotate: false" +:+ LF +:+
  "  xy: 0, " +:+ pretty yOffset +:+ LF +:+
  "  size: " +:+ pretty width +:+ ", " +:+ pretty height +:+ LF +:+
  "  orig: " +:+ pretty width +:+ ", " +:+ pretty height +:+ LF +:+
  "  offset: 0, 0" +:+ LF +:+
  "  index: -1" +:+ LF.

(** Lines 114-126, for any way [emit] of adding a region to an output
    of type [O]; the script appends [region_lines] to a string. *)
Fixpoint region_loop {O} (emit : O → string → N → N → N → O)
    (name : image_data → string)
    (imageData : list image_data) (outputContent : O) (yOffset : N) : O * N :=
  match imageData with
  | [] => (outputContent, yOffset)
  | img :: rest =>
      region_loop emit name rest
        (emit outputContent (name img) yOffset (width img) (height img))
        (yOffset + height img)
  end.

Definition append_region (outputContent name : string) (yOffset width height : N)
    : string :=
  outputContent +:+ region_lines name yOffset width height.

Definition generateAtlasTextFile (w : world)
    (imageDirectory outputFilePath outputImageReferenceName prependPath : string)
    : io unit :=
  try_catch
    (do imageFiles <- await (getImageFilesRecursively w imageDirectory);
     if decide (length imageFiles = 0%nat) then
       log [Str no_images_message]
     else
       let imageFiles := sort imageFiles in
       log [Str (found_message imageFiles); Arr imageFiles];;
       do m <- measure_loop w imageFiles (Measure 0 0 []);
       let outputContent := "" +:+ header outputImageReferenceName (maxWidth m) (totalHeight m) in
       let '(outputContent, _) :=
         region_loop append_region
           (λ img, prependPath +:+ relativePathWithoutExtension w imageDirectory img)
           (imageData m) outputContent 0 in
       write_file w outputFilePath (TextFile outputContent);;
       log [Str ("Atlas text file created successfully at: " +:+ outputFilePath)])
    (λ message,
       log_error [Str "Error generating atlas text file:"; Str message];;
       process_exit 1).

(** Line 19. *)
Definition outputImageReferenceName (outputFileName : string) : string :=
  Path.basename outputFileName (Path.extname outputFileName) +:+ ".png".

(** Line 21; [arg] is [args[2]], [None] when it is absent. The empty
    string is falsy. *)
Definition prependPath (arg : option string) : string :=
  match arg with
  | Some a => if decide (a = "") then "" else Js.replace_backslashes a +:+ "/"
  | None => ""
  end.

(** The script: [argv] is [process.argv], [dirname] is [__dirname]. *)
Definition main (w : world) (dirname : string) (argv : list string) : io unit :=
  match drop 2 argv with
  | inputImageDirectory :: outputFileName :: rest =>
      let imageDirectory := Path.join dirname inputImageDirectory in
      let outputFilePath := Path.join dirname outputFileName in
      generateAtlasTextFile w imageDirectory outputFilePath
        (outputImageReferenceName outputFileName) (prependPath (head rest))
  | _ =>
      log_error [Str "Error: Both image directory and output file name must be provided as command-line arguments."];;
      log_error [Str "Usage: node generate_atlas_text.js <image_directory_path> <output_text_file_name> [prepend_path]"];;
      log_error [Str "The third optional argument specifies a path to prepend to each image entry in the output text file."];;
      process_exit 1
  end.

End AtlasText.

(** The process state a run starts from. *)
Definition start : process := Process [] [].

(** ** The scenario of the specification

    The scanned root holds [a/1.png] (10 by 20) and [b/2.png] (30 by 5);
    a text file lies next to the second image, and the directory [b] is
    listed before [a].  The scripts live in [/repo/scripts]. *)

Definition scenario_root : list fs_node :=
  [Directory "b" [Entry "2.png" RegularFile; Entry "notes.txt" RegularFile];
   Directory "a" [Entry "1.png" RegularFile]].

(** An opaque red image and an opaque green one. *)
Definition scenario_image_1 : Jimp.bitmap := Jimp.create 10 20 4278190335.
Definition scenario_image_2 : Jimp.bitmap := Jimp.create 30 5 16711935.

Definition scenario : world :=
  {| cwd := "/home/user";
     listing := λ dir,
       if decide (dir = "/repo/scripts/images") then inr scenario_root
       else inl "ENOENT: no such file or directory";
     decode := λ file,
       if decide (file = "/repo/scripts/images/a/1.png") then inr scenario_image_1
       else if decide (file = "/repo/scripts/images/b/2.png") then inr scenario_image_2
       else inl "Could not find MIME for Buffer <null>";
     write_error := λ _, None |}.

(** ** The specification's layout engine

    Section 4.2 of the specification, in its words: a running vertical
    offset and a running maximum width, both from 0; each image yields a
    placement at [x = 0], [y =] the current offset, then advances the
    offset by its height and raises the maximum to its width. *)

Module Spec.

Record placement := Placement {
  x : N;
  y : N;
  width : N;
  height : N
}.

Record canvas_spec := CanvasSpec {
  canvas_width : N;
  canvas_height : N
}.

(** The images as (width, height) pairs, in order. *)
Fixpoint layout_from (offset maxw : N) (images : list (N * N))
    : canvas_spec * list placement :=
  match images with
  | [] => (CanvasSpec maxw offset, [])
  | (w, h) :: rest =>
      let '(canvas, placements) :=
        layout_from (offset + h) (if decide (maxw < w) then w else maxw) rest in
      (canvas, Placement 0 offset w h :: placements)
  end.

Definition layout (images : list (N * N)) : canvas_spec * list placement :=
  layout_from 0 0 images.

(** The sum of all heights. *)
Definition sum (l : list N) : N := foldr N.add 0 l.

(** The maximum of all widths: the greatest element of a list, which
    an empty list does not have. *)
Definition is_maximum (l : list N) (m : N) : Prop :=
  m ∈ l ∧ ∀ n, n ∈ l → n ≤ m.


(** *** The descriptor, section 4.4 *)

(** A path without the extension of its file. *)
Definition strip_extension (p : string) : string :=
  Js.take (String.length p - String.length (Path.extname p)) p.

(** The atlas reference name: the base name of the requested output
    name, with the extension of the canvas image in place of its own. *)
Definition reference_name (outputName : string) : string :=
  strip_extension (Path.basename outputName "") +:+ ".png".

(** The name of a region: the path of the image relative to the scanned
    root, without its extension, with forward slashes for separators,
    after the prefix. *)
Definition region_name (cwd root prefix imagePath : string) : string :=
  prefix +:+ Js.replace_backslashes (strip_extension (Path.relative cwd root imagePath)).

Definition header_lines (referenceName : string) (canvas : canvas_spec) : list string :=
  [referenceName;
   "size: " +:+ pretty (canvas_width canvas) +:+ ", " +:+ pretty (canvas_height canvas);
   "format: RGBA8888";
   "filter: MipMapLinearLinear, MipMapLinearLinear";
   "repeat: none"].

Definition region_block (region : string * placement) : list string :=
  [region.1;
   "  rotate: false";
   "  xy: " +:+ pretty (x region.2) +:+ ", " +:+ pretty (y region.2);
   "  size: " +:+ pretty (width region.2) +:+ ", " +:+ pretty (height region.2);
   "  orig: " +:+ pretty (width region.2) +:+ ", " +:+ pretty (height region.2);
   "  offset: 0, 0";
   "  index: -1"].

(** The lines of a document, each ended by a line feed. *)
Definition unlines (lines : list string) : string :=
  foldr (λ line text, line +:+ Js.LF +:+ text) "" lines.

Definition descriptor (referenceName : string) (canvas : canvas_spec)
    (regions : list (string * placement)) : string :=
  unlines (header_lines referenceName canvas ++ mjoin (region_block <$> regions)).

End Spec.

(** ** The placements the scripts use

    Both placement loops are written for any operation on their output.
    Run with an operation that only records its arguments, they yield the
    sequence of placements the script works with: the arguments of the
    [composite] calls of [atlas.js], and the numbers
    [generate_atlas_text.js] writes into the [xy], [size] and [orig] lines
    of a region, where the x coordinate is the literal [0]. *)

Definition record_composite (calls : list (Jimp.bitmap * Spec.placement))
    (image : Jimp.bitmap) (x y : N) : list (Jimp.bitmap * Spec.placement) :=
  calls ++ [(image, Spec.Placement x y (Jimp.width image) (Jimp.height image))].

Definition composite_calls (images : list Jimp.bitmap)
    : list (Jimp.bitmap * Spec.placement) :=
  (Atlas.composite_loop record_composite images [] 0).1.

Definition record_region (regions : list (string * Spec.placement))
    (name : string) (yOffset width height : N) : list (string * Spec.placement) :=
  regions ++ [(name, Spec.Placement 0 yOffset width height)].

Definition regions (name : AtlasText.image_data → string)
    (imageData : list AtlasText.image_data) : list (string * Spec.placement) :=
  (AtlasText.region_loop record_region name imageData [] 0).1.

(** The property of section 8 of the specification, as it is stated
    there: any two placements [i < j] touch. *)
Definition stacked_as_stated (placements : list Spec.placement) : Prop :=
  (∀ p, p ∈ placements → Spec.x p = 0) ∧
  (∀ p, head placements = Some p → Spec.y p = 0) ∧
  (∀ i j pi pj, (i < j)%nat →
     placements !! i = Some pi → placements !! j = Some pj →
     Spec.y pi + Spec.height pi = Spec.y pj).

(** The property that holds: consecutive placements touch, and a later
    placement starts at or below the end of an earlier one. *)
Definition stacked (placements : list Spec.placement) : Prop :=
  (∀ p, p ∈ placements → Spec.x p = 0) ∧
  (∀ p, head placements = Some p → Spec.y p = 0) ∧
  (∀ i pi pj,
     placements !! i = Some pi → placements !! S i = Some pj →
     Spec.y pi + Spec.height pi = Spec.y pj) ∧
  (∀ i j pi pj, (i < j)%nat →
     placements !! i = Some pi → placements !! j = Some pj →
     Spec.y pi + Spec.height pi ≤ Spec.y pj).

(** ** Names as [readdir] yields them

    The name of a directory entry is not empty, is neither [.] nor [..]
    and holds no [/]. *)

Definition plain_name (name : string) : Prop :=
  name ≠ "" ∧ name ≠ "." ∧ name ≠ ".." ∧ Js.includes "/" name = false.

Local Unset Elimination Schemes.
Inductive well_named : fs_node → Prop :=
| well_named_entry name type : plain_name name → well_named (Entry name type)
| well_named_directory name entries :
    plain_name name → Forall well_named entries → well_named (Directory name entries)
| well_named_unreadable name message :
    plain_name name → well_named (Unreadable name message).
Local Set Elimination Schemes.

(** ** What lies below a directory

    [found dir entry p name type]: the entry [entry] of the directory
    [dir] is, or contains at some depth, an entry that is not a directory,
    with the name [name], the type [type] and the full path [p]. *)

Inductive found : string → fs_node → string → string → entry_type → Prop :=
| found_entry dir name type :
    found dir (Entry name type) (Path.join dir name) name type
| found_inside dir sub entries entry p name type :
    entry ∈ entries →
    found (Path.join dir sub) entry p name type →
    found dir (Directory sub entries) p name type.

(** Every directory of the tree can be listed. *)
Local Unset Elimination Schemes.
Inductive readable : fs_node → Prop :=
| readable_entry name type : readable (Entry name type)
| readable_directory name entries :
    Forall readable entries → readable (Directory name entries).
Local Set Elimination Schemes.

(** A directory that holds one symbolic link with an image name. *)
Definition link_world : world :=
  {| cwd := "/home/user";
     listing := λ dir,
       if decide (dir = "/repo/scripts/images")
       then inr [Entry "link.png" SymbolicLink]
       else inl "ENOENT: no such file or directory";
     decode := λ _, inl "EISDIR: illegal operation on a directory, read";
     write_error := λ _, None |}.

(** The extension test of the scripts on an entry name. *)
Definition has_image_extension (name : string) : Prop :=
  Js.toLowerCase (Path.extname name) ∈ image_extensions.

Global Instance has_image_extension_dec name : Decision (has_image_extension name).
Proof. unfold has_image_extension. apply _. Defined.

(** Discovery as the specification states it: exactly the regular files
    with an image extension. *)
Definition finds_regular_files (dir : string) (entries : list fs_node)
    (files : list string) : Prop :=
  ∀ p, p ∈ files ↔
       ∃ entry name, entry ∈ entries ∧ found dir entry p name RegularFile ∧
                     has_image_extension name.

(** Discovery as the scripts do it: exactly the entries that are not
    directories, of any type, with an image extension. *)
Definition finds_non_directories (dir : string) (entries : list fs_node)
    (files : list string) : Prop :=
  ∀ p, p ∈ files ↔
       ∃ entry name type, entry ∈ entries ∧ found dir entry p name type ∧
                          has_image_extension name.

(** ** The same tree, enumerated in another order

    [reordered t1 t2]: the two trees hold the same entries, and each
    directory of [t2] lists its entries in an order of its own. *)

Local Unset Elimination Schemes.
Inductive reordered : fs_node → fs_node → Prop :=
| reordered_entry name type : reordered (Entry name type) (Entry name type)
| reordered_directory name entries1 shuffled entries2 :
    entries1 ≡ₚ shuffled →
    Forall2 reordered shuffled entries2 →
    reordered (Directory name entries1) (Directory name entries2)
| reordered_unreadable name message :
    reordered (Unreadable name message) (Unreadable name message).
Local Set Elimination Schemes.

(** Two settled promises of file lists agree up to the order of the
    files: both reject, or both fulfil with the same files. *)
Definition same_files_found (r1 r2 : string + list string) : Prop :=
  match r1, r2 with
  | inr files1, inr files2 => files1 ≡ₚ files2
  | inl _, inl _ => True
  | _, _ => False
  end.

(** The scenario, with every directory listed the other way round. *)
Definition scenario_root_reordered : list fs_node :=
  [Directory "a" [Entry "1.png" RegularFile];
   Directory "b" [Entry "notes.txt" RegularFile; Entry "2.png" RegularFile]].

(** ** Worlds that differ in the working directory only *)

Definition same_files (w1 w2 : world) : Prop :=
  (∀ dir, listing w1 dir = listing w2 dir) ∧
  (∀ file, decode w1 file = decode w2 file) ∧
  (∀ file, write_error w1 file = write_error w2 file).

(** The scenario, run from another working directory. *)
Definition scenario_elsewhere : world :=
  {| cwd := "/tmp";
     listing := listing scenario;
     decode := decode scenario;
     write_error := write_error scenario |}.

(** ** Notions used in the statements *)

(** Every file of the list decodes, to the images of the second list. *)
Definition decodes (w : world) (imageFiles : list string) (images : list Jimp.bitmap)
    : Prop :=
  Forall2 (λ imagePath image, Jimp_read w imagePath = inr image) imageFiles images.

(** The sprite sheet [atlas.js] builds from the decoded images. *)
Definition spritesheet_of (images : list Jimp.bitmap) : Jimp.bitmap :=
  (Atlas.composite_loop Jimp.composite images
     (Jimp.create (foldl N.max 0 (Jimp.width <$> images))
        (foldl N.add 0 (Jimp.height <$> images)) 0) 0).1.

(** The entries of [imageData] for the sorted files and their images. *)
Definition imageData_of (imageFiles : list string) (images : list Jimp.bitmap)
    : list AtlasText.image_data :=
  zip_with (λ imagePath image,
      AtlasText.ImageData imagePath (Jimp.width image) (Jimp.height image))
    imageFiles images.

(** The descriptor [generate_atlas_text.js] builds for them. *)
Definition descriptor_of (w : world) (imageDirectory outputImageReferenceName prependPath : string)
    (imageFiles : list string) (images : list Jimp.bitmap) : string :=
  (AtlasText.region_loop AtlasText.append_region
     (λ img, prependPath +:+ AtlasText.relativePathWithoutExtension w imageDirectory img)
     (imageData_of imageFiles images)
     ("" +:+ AtlasText.header outputImageReferenceName
        (foldl N.max 0 (Jimp.width <$> images)) (foldl N.add 0 (Jimp.height <$> images)))
     0).1.

(** A world whose scanned directory holds no image. *)
Definition empty_world : world :=
  {| cwd := "/home/user";
     listing := λ dir,
       if decide (dir = "/repo/scripts/images")
       then inr [Directory "docs" [Entry "readme.txt" RegularFile]]
       else inl "ENOENT: no such file or directory";
     decode := λ _, inl "Could not find MIME for Buffer <null>";
     write_error := λ _, None |}.

(** The scenario with a second image that does not decode. *)
Definition corrupt_world : world :=
  {| cwd := cwd scenario;
     listing := listing scenario;
     decode := λ file,
       if decide (file = "/repo/scripts/images/a/1.png") then inr scenario_image_1
       else inl "Could not find MIME for Buffer <null>";
     write_error := write_error scenario |}.

(** The sizes of the decoded images, in order. *)
Definition sizes (images : list Jimp.bitmap) : list (N * N) :=
  (λ i, (Jimp.width i, Jimp.height i)) <$> images.

(** What the image builder does with a layout: a transparent canvas of
    the canvas size, each image composited at its placement. *)
Definition composited (canvas : Spec.canvas_spec)
    (placed : list (Jimp.bitmap * Spec.placement)) : Jimp.bitmap :=
  foldl (λ sheet c, Jimp.composite sheet c.1 (Spec.x c.2) (Spec.y c.2))
    (Jimp.create (Spec.canvas_width canvas) (Spec.canvas_height canvas) 0) placed.

(** What the descriptor builder does with a layout: the header for the
    canvas size, then the lines of each named placement. *)
Definition rendered (outputImageReferenceName : string) (canvas : Spec.canvas_spec)
    (placed : list (string * Spec.placement)) : string :=
  foldl (λ out r, AtlasText.append_region out r.1
           (Spec.y r.2) (Spec.width r.2) (Spec.height r.2))
    (AtlasText.header outputImageReferenceName
       (Spec.canvas_width canvas) (Spec.canvas_height canvas)) placed.

Definition fs_node_ind (P : fs_node → Prop)
    (Hentry : ∀ name type, P (Entry name type))
    (Hdirectory : ∀ name entries, Forall P entries → P (Directory name entries))
    (Hunreadable : ∀ name message, P (Unreadable name message))
    : ∀ node, P node :=
  fix go node :=
    match node with
    | Entry name type => Hentry name type
    | Directory name entries =>
        Hdirectory name entries
          ((fix go_list l : Forall P l :=
              match l with
              | [] => Forall_nil P
              | n :: l' => Forall_cons P n l' (go n) (go_list l')
              end) entries)
    | Unreadable name message => Hunreadable name message
    end.

Definition transparent : N * N * N * N := (0, 0, 0, 0).

(** The bytes [0 .. 255]. *)
Definition all_bytes : list N := N.of_nat <$> seq 0 256.

(** What blending a colour channel [c] of a pixel of alpha [a] onto a
    transparent pixel may give: nothing for alpha 0, the channel itself
    for alpha 255, the channel or one less in between. *)
Definition color_onto_transparent (c a v : N) : bool :=
  if decide (a = 0) then bool_decide (v = 0)
  else if decide (a = 255) then bool_decide (v = c)
  else bool_decide (v = c ∨ v + 1 = c).

Definition blend_table : bool :=
  forallb (λ a,
      bool_decide (Jimp.blend_byte 3 (0, 0, 0, a) transparent = a) &&
      forallb (λ c,
          color_onto_transparent c a (Jimp.blend_byte 0 (c, 0, 0, a) transparent))
        all_bytes)
    all_bytes.

(** The result of blending the pixel [s] onto a transparent pixel: the
    alpha of [s], and each colour channel as [color_onto_transparent]
    allows. *)
Definition onto_transparent (s v : N * N * N * N) : Prop :=
  let '(r, g, b, a) := s in
  let '(r', g', b', a') := v in
  a' = a ∧
  color_onto_transparent r a r' = true ∧
  color_onto_transparent g a g' = true ∧
  color_onto_transparent b a b' = true.

(** The property as the specification states it: every pixel of a placed
    image is found unchanged in the sheet. *)
Definition straight_overwrite (images : list Jimp.bitmap) : Prop :=
  ∀ i image p sx sy,
    images !! i = Some image → (Spec.layout (sizes images)).2 !! i = Some p →
    sx < Jimp.width image → sy < Jimp.height image →
    Jimp.getPixel (spritesheet_of images) sx (Spec.y p + sy) = Jimp.getPixel image sx sy.



(** ** Reading a descriptor back

    A reader for the document of section 4.4, line by line: the atlas
    reference name, the canvas size, and for each block of seven lines
    the name and the placement of the region. *)

Module Reader.

Definition digit (c : ascii) : option N :=
  let n := N_of_ascii c in
  if decide (48 ≤ n ∧ n ≤ 57) then Some (n - 48) else None.

Fixpoint digits (acc : N) (s : string) : option N :=
  match s with
  | "" => Some acc
  | String c s' =>
      match digit c with
      | Some d => digits (acc * 10 + d) s'
      | None => None
      end
  end.

(** A decimal number. *)
Definition number (s : string) : option N :=
  if decide (s = "") then None else digits 0 s.

Fixpoint strip_prefix (prefix s : string) : option string :=
  match prefix, s with
  | "", _ => Some s
  | String c prefix', String d s' =>
      if decide (c = d) then strip_prefix prefix' s' else None
  | _, _ => None
  end.

(** The two numbers of a line [key: a, b]. *)
Definition field (key line : string) : option (N * N) :=
  match strip_prefix key line with
  | Some rest =>
      match Js.split ","%char rest with
      | [a; String " " b] =>
          match number a, number b with
          | Some a, Some b => Some (a, b)
          | _, _ => None
          end
      | _ => None
      end
  | None => None
  end.

Fixpoint regions (lines : list string) : option (list (string * Spec.placement)) :=
  match lines with
  | name :: rotate :: xy :: size :: orig :: offset :: index :: rest =>
      match field "  xy: " xy, field "  size: " size, field "  orig: " orig,
            regions rest with
      | Some (x, y), Some (w, h), Some orig, Some others =>
          if decide (rotate = "  rotate: false" ∧ orig = (w, h) ∧
                     offset = "  offset: 0, 0" ∧ index = "  index: -1")
          then Some ((name, Spec.Placement x y w h) :: others)
          else None
      | _, _, _, _ => None
      end
  | [] | [""] => Some []
  | _ => None
  end.

Definition descriptor (text : string)
    : option (string * Spec.canvas_spec * list (string * Spec.placement)) :=
  match Js.split (ascii_of_N 10) text with
  | name :: size :: format :: filter :: repeat :: rest =>
      match field "size: " size, regions rest with
      | Some (w, h), Some placed =>
          if decide (format = "format: RGBA8888" ∧
                     filter = "filter: MipMapLinearLinear, MipMapLinearLinear" ∧
                     repeat = "repeat: none")
          then Some (name, Spec.CanvasSpec w h, placed)
          else None
      | _, _ => None
      end
  | _ => None
  end.

End Reader.

(** ** Further notions

    A string without a line feed. *)
Definition no_line_feed (s : string) : Prop := Js.includes (ascii_of_N 10) s = false.

(** The descriptor [generate_atlas_text.js] builds from its loop
    variables: lines 102-126. *)
Definition descriptor_text (outputImageReferenceName : string) (maxWidth totalHeight : N)
    (name : AtlasText.image_data → string) (imageData : list AtlasText.image_data)
    : string :=
  (AtlasText.region_loop AtlasText.append_region name imageData
     ("" +:+ AtlasText.header outputImageReferenceName maxWidth totalHeight) 0).1.

(** The scenario on a file system that lists every directory the other
    way round. *)
Definition scenario_other_order : world :=
  {| cwd := cwd scenario;
     listing := λ dir,
       if decide (dir = "/repo/scripts/images") then inr scenario_root_reordered
       else inl "ENOENT: no such file or directory";
     decode := decode scenario;
     write_error := write_error scenario |}.

(** The scenario with a subdirectory that cannot be listed. *)
Definition locked_world : world :=
  {| cwd := cwd scenario;
     listing := λ dir,
       if decide (dir = "/repo/scripts/images")
       then inr [Directory "a" [Entry "1.png" RegularFile;
                                Directory "private" [Unreadable "keys" "EACCES: permission denied"]]]
       else inl "ENOENT: no such file or directory";
     decode := decode scenario;
     write_error := write_error scenario |}.

(** The scenario on a disk that cannot be written. *)
Definition read_only_world : world :=
  {| cwd := cwd scenario;
     listing := listing scenario;
     decode := decode scenario;
     write_error := λ _, Some "EROFS: read-only file system" |}.

(** What a region of the descriptor says of an image. *)
Definition region_of (name : AtlasText.image_data → string) (img : AtlasText.image_data)
    : string * N * N :=
  (name img, AtlasText.width img, AtlasText.height img).

(** An image without translucency: the alpha of every pixel is 255. *)
Definition opaque (image : Jimp.bitmap) : Prop :=
  ∀ sx sy, sx < Jimp.width image → sy < Jimp.height image →
    (Jimp.getPixel image sx sy).2 = 255.

(** An image of one opaque pixel. *)
Definition opaque_pixel (r g b : N) : Jimp.bitmap := Jimp.Bitmap 1 1 [r; g; b; 255].

(** No directory of the tree holds two entries of the same name. *)
Local Unset Elimination Schemes.
Inductive distinct_names : fs_node → Prop :=
| distinct_names_entry name type : distinct_names (Entry name type)
| distinct_names_directory name entries :
    NoDup (entry_name <$> entries) →
    Forall distinct_names entries →
    distinct_names (Directory name entries)
| distinct_names_unreadable name message : distinct_names (Unreadable name message).
Local Set Elimination Schemes.

(** [console.error], as opposed to [console.log]. *)
Definition is_error (call : console_call) : bool :=
  match call with
  | console_error _ => true
  | console_log _ => false
  end.

(** A run from the process state [p] reports its outcome: it only adds
    to the console; when it returns it has printed something, none of it
    on the error stream; when it exits, the status is 1 and the last
    thing printed is on the error stream; it does not end by an
    exception. *)
Definition reports_its_outcome (p : process) (r : process * completion unit) : Prop :=
  ∃ lines, console r.1 = console p ++ lines ∧
    match r.2 with
    | Return _ => lines ≠ [] ∧ Forall (λ call, is_error call = false) lines
    | Exit code => code = 1 ∧ ∃ args, list.last lines = Some (console_error args)
    | Throw _ => False
    end.


(** * Properties *)

(** ** The measuring loops *)

Lemma foldl_max_le (l : list N) (m n : N) :
  n ≤ m ∨ n ∈ l → n ≤ foldl N.max m l.
Proof.
  revert m. induction l as [|a l IH]; intros m [H|H]; simpl.
  - done.
  - by apply elem_of_nil in H.
  - apply IH. left. lia.
  - apply elem_of_cons in H as [->|H]; apply IH; [left; lia | by right].
Qed.

Lemma foldl_max_elem (l : list N) (m : N) :
  foldl N.max m l = m ∨ foldl N.max m l ∈ l.
Proof.
  revert m. induction l as [|a l IH]; intros m; simpl; [by left|].
  destruct (IH (N.max m a)) as [H|H].
  - rewrite H. destruct (N.max_spec m a) as [[_ ->]|[_ ->]]; [right; left | by left].
  - right. by right.
Qed.

Lemma foldl_max_is_maximum (l : list N) :
  l ≠ [] → Spec.is_maximum l (foldl N.max 0 l).
Proof.
  intros Hl. split.
  - destruct (foldl_max_elem l 0) as [H|H]; [|done].
    destruct l as [|a l]; [done|].
    assert (a ≤ foldl N.max 0 (a :: l)) by (apply foldl_max_le; right; left).
    rewrite H in *. assert (a = 0) as -> by lia. left.
  - intros n Hn. apply foldl_max_le. by right.
Qed.

Lemma foldl_add_sum (l : list N) (m : N) :
  foldl N.add m l = m + Spec.sum l.
Proof.
  revert m. induction l as [|a l IH]; intros m; simpl; [lia|].
  rewrite IH. unfold Spec.sum. simpl. lia.
Qed.

Lemma atlas_measure_loop_ok w imageFiles images st p :
  decodes w imageFiles images →
  Atlas.measure_loop w imageFiles st p =
    (p, Return {| Atlas.images := Atlas.images st ++ images;
                  Atlas.maxWidth := foldl N.max (Atlas.maxWidth st) (Jimp.width <$> images);
                  Atlas.totalHeight :=
                    foldl N.add (Atlas.totalHeight st) (Jimp.height <$> images) |}).
Proof.
  intros H. revert st. induction H as [|imagePath image files images Hd _ IH]; intros st.
  - simpl. unfold io_ret. destruct st. by rewrite app_nil_r.
  - simpl. unfold io_bind, try_catch, Atlas.loadImage, try_catch at 1.
    rewrite Hd. simpl. rewrite IH. simpl. by rewrite <-app_assoc.
Qed.

Lemma text_measure_loop_ok w imageFiles images st p :
  decodes w imageFiles images →
  AtlasText.measure_loop w imageFiles st p =
    (p, Return {| AtlasText.imageData := AtlasText.imageData st ++
                    zip_with (λ imagePath image,
                        AtlasText.ImageData imagePath (Jimp.width image) (Jimp.height image))
                      imageFiles images;
                  AtlasText.maxWidth :=
                    foldl N.max (AtlasText.maxWidth st) (Jimp.width <$> images);
                  AtlasText.totalHeight :=
                    foldl N.add (AtlasText.totalHeight st) (Jimp.height <$> images) |}).
Proof.
  intros H. revert st. induction H as [|imagePath image files images Hd _ IH]; intros st.
  - simpl. unfold io_ret. destruct st. by rewrite app_nil_r.
  - simpl. unfold io_bind, try_catch, AtlasText.getImageDimensions,
      try_catch at 1, io_bind.
    rewrite Hd. simpl. rewrite IH. simpl. by rewrite <-app_assoc.
Qed.

Lemma atlas_measure_loop_fail w loaded images imagePath message rest st p :
  decodes w loaded images →
  Jimp_read w imagePath = inl message →
  Atlas.measure_loop w (loaded ++ imagePath :: rest) st p =
    (Process
       (console p ++
          [console_error [Str ("Failed to load image at " +:+ imagePath +:+ ": " +:+ message)]])
       (written p),
     Throw "Spritesheet creation aborted due to image loading errors").
Proof.
  intros H Hbad. revert st. induction H as [|? image files images Hd _ IH]; intros st.
  - simpl. unfold io_bind, try_catch, Atlas.loadImage, try_catch at 1.
    by rewrite Hbad.
  - simpl. unfold io_bind, try_catch, Atlas.loadImage, try_catch at 1.
    rewrite Hd. simpl. by rewrite IH.
Qed.

Lemma text_measure_loop_fail w loaded images imagePath message rest st p :
  decodes w loaded images →
  Jimp_read w imagePath = inl message →
  AtlasText.measure_loop w (loaded ++ imagePath :: rest) st p =
    (Process
       (console p ++
          [console_error
             [Str ("Failed to get dimensions for image at " +:+ imagePath +:+ ": " +:+ message)]])
       (written p),
     Throw "Atlas text file generation aborted due to image dimension errors").
Proof.
  intros H Hbad. revert st. induction H as [|? image files images Hd _ IH]; intros st.
  - simpl. unfold io_bind, try_catch, AtlasText.getImageDimensions, try_catch at 1, io_bind.
    by rewrite Hbad.
  - simpl. unfold io_bind, try_catch, AtlasText.getImageDimensions, try_catch at 1, io_bind.
    rewrite Hd. simpl. by rewrite IH.
Qed.

(** Either every file decodes or there is a first one that does not. *)
Lemma decodes_or_fails w imageFiles :
  (∃ images, decodes w imageFiles images) ∨
  (∃ (loaded : list string) images imagePath message rest,
      imageFiles = (loaded ++ imagePath :: rest)%list ∧ decodes w loaded images ∧
      Jimp_read w imagePath = inl message).
Proof.
  induction imageFiles as [|f files IH].
  - left. exists []. constructor.
  - destruct (Jimp_read w f) as [message|image] eqn:Hf.
    + right. exists [], [], f, message, files. repeat split; [constructor | done].
    + destruct IH as [[images H]|(loaded & images & bad & message & rest & -> & H & Hbad)].
      * left. exists (image :: images). by constructor.
      * right. exists (f :: loaded), (image :: images), bad, message, rest.
        repeat split; [by constructor | done].
Qed.

(** ** Runs of the two scripts *)

Lemma createSpritesheet_rejected w imageDirectory outputFilePath message p :
  getImageFilesRecursively w imageDirectory = inl message →
  Atlas.createSpritesheet w imageDirectory outputFilePath p =
    (Process (console p ++ [console_error [Str "Error creating spritesheet:"; Str message]])
       (written p), Exit 1).
Proof. intros H. unfold Atlas.createSpritesheet, try_catch, io_bind. by rewrite H. Qed.

Lemma createSpritesheet_empty w imageDirectory outputFilePath p :
  getImageFilesRecursively w imageDirectory = inr [] →
  Atlas.createSpritesheet w imageDirectory outputFilePath p =
    (Process (console p ++ [console_log [Str no_images_message]]) (written p), Return ()).
Proof. intros H. unfold Atlas.createSpritesheet, try_catch, io_bind. by rewrite H. Qed.

Lemma createSpritesheet_load_error w imageDirectory outputFilePath files p
    loaded images imagePath message rest :
  getImageFilesRecursively w imageDirectory = inr files →
  files ≠ [] →
  sort files = (loaded ++ imagePath :: rest)%list →
  decodes w loaded images →
  Jimp_read w imagePath = inl message →
  Atlas.createSpritesheet w imageDirectory outputFilePath p =
    (Process
       (console p ++
          [console_log [Str (found_message (sort files)); Arr (sort files)];
           console_error [Str ("Failed to load image at " +:+ imagePath +:+ ": " +:+ message)];
           console_error [Str "Error creating spritesheet:";
                          Str "Spritesheet creation aborted due to image loading errors"]])
       (written p), Exit 1).
Proof.
  intros H Hne Hs Hl Hbad. unfold Atlas.createSpritesheet, try_catch, io_bind.
  rewrite H. simpl. destruct (decide (length files = 0%nat)) as [H0|_].
  { by destruct files. }
  simpl. rewrite Hs, (atlas_measure_loop_fail _ _ _ _ _ _ _ _ Hl Hbad). simpl.
  by rewrite <-!app_assoc.
Qed.

Lemma createSpritesheet_run w imageDirectory outputFilePath files images p :
  getImageFilesRecursively w imageDirectory = inr files →
  files ≠ [] →
  decodes w (sort files) images →
  Atlas.createSpritesheet w imageDirectory outputFilePath p =
    match write_error w (os_path w outputFilePath) with
    | None =>
        (Process
           (console p ++
              [console_log [Str (found_message (sort files)); Arr (sort files)];
               console_log [Str ("Spritesheet created successfully at: " +:+ outputFilePath)]])
           (written p ++ [(os_path w outputFilePath, ImageFile (spritesheet_of images))]),
         Return ())
    | Some message =>
        (Process
           (console p ++
              [console_log [Str (found_message (sort files)); Arr (sort files)];
               console_error [Str "Error creating spritesheet:"; Str message]])
           (written p),
         Exit 1)
    end.
Proof.
  intros H Hne Hd. unfold Atlas.createSpritesheet, try_catch, io_bind.
  rewrite H. simpl. destruct (decide (length files = 0%nat)) as [H0|_].
  { by destruct files. }
  simpl. rewrite (atlas_measure_loop_ok _ _ _ _ _ Hd). simpl.
  unfold spritesheet_of.
  destruct (Atlas.composite_loop _ _ _ _) as [sheet y]. simpl.
  unfold write_file. destruct (write_error w _); simpl; by rewrite <-!app_assoc.
Qed.

Lemma generateAtlasTextFile_rejected w imageDirectory outputFilePath name prefix message p :
  getImageFilesRecursively w imageDirectory = inl message →
  AtlasText.generateAtlasTextFile w imageDirectory outputFilePath name prefix p =
    (Process
       (console p ++ [console_error [Str "Error generating atlas text file:"; Str message]])
       (written p), Exit 1).
Proof. intros H. unfold AtlasText.generateAtlasTextFile, try_catch, io_bind. by rewrite H. Qed.

Lemma generateAtlasTextFile_empty w imageDirectory outputFilePath name prefix p :
  getImageFilesRecursively w imageDirectory = inr [] →
  AtlasText.generateAtlasTextFile w imageDirectory outputFilePath name prefix p =
    (Process (console p ++ [console_log [Str no_images_message]]) (written p), Return ()).
Proof. intros H. unfold AtlasText.generateAtlasTextFile, try_catch, io_bind. by rewrite H. Qed.

Lemma generateAtlasTextFile_load_error w imageDirectory outputFilePath name prefix files p
    loaded images imagePath message rest :
  getImageFilesRecursively w imageDirectory = inr files →
  files ≠ [] →
  sort files = (loaded ++ imagePath :: rest)%list →
  decodes w loaded images →
  Jimp_read w imagePath = inl message →
  AtlasText.generateAtlasTextFile w imageDirectory outputFilePath name prefix p =
    (Process
       (console p ++
          [console_log [Str (found_message (sort files)); Arr (sort files)];
           console_error
             [Str ("Failed to get dimensions for image at " +:+ imagePath +:+ ": " +:+ message)];
           console_error
             [Str "Error generating atlas text file:";
              Str "Atlas text file generation aborted due to image dimension errors"]])
       (written p), Exit 1).
Proof.
  intros H Hne Hs Hl Hbad. unfold AtlasText.generateAtlasTextFile, try_catch, io_bind.
  rewrite H. simpl. destruct (decide (length files = 0%nat)) as [H0|_].
  { by destruct files. }
  simpl. rewrite Hs, (text_measure_loop_fail _ _ _ _ _ _ _ _ Hl Hbad). simpl.
  by rewrite <-!app_assoc.
Qed.

Lemma generateAtlasTextFile_run w imageDirectory outputFilePath name prefix files images p :
  getImageFilesRecursively w imageDirectory = inr files →
  files ≠ [] →
  decodes w (sort files) images →
  AtlasText.generateAtlasTextFile w imageDirectory outputFilePath name prefix p =
    match write_error w (os_path w outputFilePath) with
    | None =>
        (Process
           (console p ++
              [console_log [Str (found_message (sort files)); Arr (sort files)];
               console_log [Str ("Atlas text file created successfully at: " +:+ outputFilePath)]])
           (written p ++
              [(os_path w outputFilePath,
                TextFile (descriptor_of w imageDirectory name prefix (sort files) images))]),
         Return ())
    | Some message =>
        (Process
           (console p ++
              [console_log [Str (found_message (sort files)); Arr (sort files)];
               console_error [Str "Error generating atlas text file:"; Str message]])
           (written p),
         Exit 1)
    end.
Proof.
  intros H Hne Hd. unfold AtlasText.generateAtlasTextFile, try_catch, io_bind.
  rewrite H. simpl. destruct (decide (length files = 0%nat)) as [H0|_].
  { by destruct files. }
  simpl. rewrite (text_measure_loop_ok _ _ _ _ _ Hd). simpl.
  unfold descriptor_of, imageData_of.
  destruct (AtlasText.region_loop _ _ _ _ _) as [text y]. simpl.
  unfold write_file. destruct (write_error w _); simpl; by rewrite <-!app_assoc.
Qed.

(** ** Strings *)

Lemma string_app_cons (a : ascii) (s1 s2 : string) :
  String a s1 +:+ s2 = String a (s1 +:+ s2).
Proof. reflexivity. Qed.

Lemma string_app_nil_l (s : string) : "" +:+ s = s.
Proof. reflexivity. Qed.

Lemma string_app_assoc (s1 s2 s3 : string) : (s1 +:+ s2) +:+ s3 = s1 +:+ s2 +:+ s3.
Proof.
  induction s1 as [|a s1 IH]; [done|]. by rewrite !string_app_cons, IH.
Qed.

Lemma string_app_nil_r (s : string) : s +:+ "" = s.
Proof.
  induction s as [|a s IH]; [done|]. by rewrite string_app_cons, IH.
Qed.

Lemma string_length_app (s1 s2 : string) :
  String.length (s1 +:+ s2) = (String.length s1 + String.length s2)%nat.
Proof.
  induction s1 as [|a s1 IH]; [done|]. rewrite string_app_cons. simpl. by rewrite IH.
Qed.

(** ** The two outputs carry the canvas size *)

Lemma composite_loop_size images sheet yOffset :
  Jimp.width (Atlas.composite_loop Jimp.composite images sheet yOffset).1 = Jimp.width sheet ∧
  Jimp.height (Atlas.composite_loop Jimp.composite images sheet yOffset).1 = Jimp.height sheet.
Proof.
  revert sheet yOffset. induction images as [|image images IH]; intros sheet yOffset.
  - done.
  - simpl. destruct (IH (Jimp.composite sheet image 0 yOffset) (yOffset + Jimp.height image))
      as [-> ->]. done.
Qed.

Lemma region_loop_append name imageData outputContent yOffset :
  (AtlasText.region_loop AtlasText.append_region name imageData outputContent yOffset).1 =
  outputContent +:+
    (AtlasText.region_loop AtlasText.append_region name imageData "" yOffset).1.
Proof.
  revert outputContent yOffset.
  induction imageData as [|img imageData IH]; intros outputContent yOffset; simpl.
  - by rewrite string_app_nil_r.
  - rewrite IH, (IH (AtlasText.append_region "" _ _ _ _)).
    unfold AtlasText.append_region. simpl. by rewrite string_app_assoc.
Qed.

(** C1: for a non-empty set of discovered images that all decode, both
    generators compute the canvas as the maximum of the widths by the sum
    of the heights: the sprite sheet [atlas.js] writes has exactly that
    size, and the descriptor [generate_atlas_text.js] writes starts with
    the header for that size. *)
Theorem canvas_is_max_width_by_sum_of_heights
    w imageDirectory sheetPath textPath name prefix files images :
  getImageFilesRecursively w imageDirectory = inr files →
  files ≠ [] →
  decodes w (sort files) images →
  write_error w (os_path w sheetPath) = None →
  write_error w (os_path w textPath) = None →
  ∃ maxWidth totalHeight sheet regions,
    Spec.is_maximum (Jimp.width <$> images) maxWidth ∧
    totalHeight = Spec.sum (Jimp.height <$> images) ∧
    written (Atlas.createSpritesheet w imageDirectory sheetPath start).1 =
      [(os_path w sheetPath, ImageFile sheet)] ∧
    Jimp.width sheet = maxWidth ∧
    Jimp.height sheet = totalHeight ∧
    written (AtlasText.generateAtlasTextFile w imageDirectory textPath name prefix start).1 =
      [(os_path w textPath,
        TextFile (AtlasText.header name maxWidth totalHeight +:+ regions))].
Proof.
  intros Hfiles Hne Hdec Hw1 Hw2.
  assert (images ≠ []) as Himages.
  { intros ->. apply Forall2_nil_inv_r in Hdec.
    apply Hne, Permutation_nil_r. rewrite <-Hdec. unfold sort.
    by rewrite merge_sort_Permutation. }
  exists (foldl N.max 0 (Jimp.width <$> images)),
    (foldl N.add 0 (Jimp.height <$> images)), (spritesheet_of images).
  eexists. split; [|split; [|split; [|split; [|split]]]].
  - apply foldl_max_is_maximum. by destruct images.
  - by rewrite foldl_add_sum.
  - rewrite (createSpritesheet_run _ _ _ _ _ _ Hfiles Hne Hdec), Hw1. done.
  - unfold spritesheet_of. by destruct (composite_loop_size images
      (Jimp.create (foldl N.max 0 (Jimp.width <$> images))
         (foldl N.add 0 (Jimp.height <$> images)) 0) 0) as [-> _].
  - unfold spritesheet_of. by destruct (composite_loop_size images
      (Jimp.create (foldl N.max 0 (Jimp.width <$> images))
         (foldl N.add 0 (Jimp.height <$> images)) 0) 0) as [_ ->].
  - rewrite (generateAtlasTextFile_run _ _ _ _ _ _ _ _ Hfiles Hne Hdec), Hw2. simpl.
    unfold descriptor_of. by rewrite region_loop_append.
Qed.

Lemma canvas_scenario_witness :
  ∃ maxWidth totalHeight sheet regions,
    Spec.is_maximum (Jimp.width <$> [scenario_image_1; scenario_image_2]) maxWidth ∧
    totalHeight = Spec.sum (Jimp.height <$> [scenario_image_1; scenario_image_2]) ∧
    written (Atlas.createSpritesheet scenario "/repo/scripts/images"
               "/repo/scripts/atlas.png" start).1 =
      [(os_path scenario "/repo/scripts/atlas.png", ImageFile sheet)] ∧
    Jimp.width sheet = maxWidth ∧
    Jimp.height sheet = totalHeight ∧
    written (AtlasText.generateAtlasTextFile scenario "/repo/scripts/images"
               "/repo/scripts/atlas.atlas" "atlas.png" "" start).1 =
      [(os_path scenario "/repo/scripts/atlas.atlas",
        TextFile (AtlasText.header "atlas.png" maxWidth totalHeight +:+ regions))].
Proof.
  apply (canvas_is_max_width_by_sum_of_heights scenario "/repo/scripts/images"
           "/repo/scripts/atlas.png" "/repo/scripts/atlas.atlas" "atlas.png" ""
           ["/repo/scripts/images/b/2.png"; "/repo/scripts/images/a/1.png"]).
  - reflexivity.
  - discriminate.
  - repeat constructor.
  - reflexivity.
  - reflexivity.
Defined.

(** The scenario itself: the canvas is 30 by 25. *)
Example scenario_canvas :
  ∃ sheet regions,
    written (Atlas.main scenario "/repo/scripts"
               ["node"; "atlas.js"; "images"; "atlas.png"] start).1 =
      [("/repo/scripts/atlas.png", ImageFile sheet)] ∧
    Jimp.width sheet = 30 ∧ Jimp.height sheet = 25 ∧
    written (AtlasText.main scenario "/repo/scripts"
               ["node"; "generate_atlas_text.js"; "images"; "atlas.atlas"] start).1 =
      [("/repo/scripts/atlas.atlas",
        TextFile (AtlasText.header "atlas.png" 30 25 +:+ regions))].
Proof. eexists _, _. vm_compute. repeat split. Qed.

(** ** Empty input and failing images *)

Lemma sort_Permutation (files : list string) : sort files ≡ₚ files.
Proof. apply merge_sort_Permutation. Qed.


(** C6: when discovery finds no image file, both programs end normally,
    with exit status 0, after one message on the console that is not an
    error, and write no file at all. *)
Theorem no_images_no_output w dirname argv inputImageDirectory outputFileName rest :
  drop 2 argv = inputImageDirectory :: outputFileName :: rest →
  getImageFilesRecursively w (Path.join dirname inputImageDirectory) = inr [] →
  Atlas.main w dirname argv start =
    (Process [console_log [Str no_images_message]] [], Return ()) ∧
  AtlasText.main w dirname argv start =
    (Process [console_log [Str no_images_message]] [], Return ()) ∧
  exit_status (Atlas.main w dirname argv start).2 = 0 ∧
  exit_status (AtlasText.main w dirname argv start).2 = 0 ∧
  written (Atlas.main w dirname argv start).1 = [] ∧
  written (AtlasText.main w dirname argv start).1 = [].
Proof.
  intros Hargs Hfiles. unfold Atlas.main, AtlasText.main. rewrite Hargs.
  rewrite (createSpritesheet_empty _ _ _ _ Hfiles),
    (generateAtlasTextFile_empty _ _ _ _ _ _ Hfiles).
  done.
Qed.

Lemma no_images_no_output_witness :
  Atlas.main empty_world "/repo/scripts" ["node"; "atlas.js"; "images"; "atlas.png"] start =
    (Process [console_log [Str no_images_message]] [], Return ()) ∧
  AtlasText.main empty_world "/repo/scripts" ["node"; "atlas.js"; "images"; "atlas.png"] start =
    (Process [console_log [Str no_images_message]] [], Return ()) ∧
  exit_status (Atlas.main empty_world "/repo/scripts"
                 ["node"; "atlas.js"; "images"; "atlas.png"] start).2 = 0 ∧
  exit_status (AtlasText.main empty_world "/repo/scripts"
                 ["node"; "atlas.js"; "images"; "atlas.png"] start).2 = 0 ∧
  written (Atlas.main empty_world "/repo/scripts"
             ["node"; "atlas.js"; "images"; "atlas.png"] start).1 = [] ∧
  written (AtlasText.main empty_world "/repo/scripts"
             ["node"; "atlas.js"; "images"; "atlas.png"] start).1 = [].
Proof.
  apply (no_images_no_output empty_world "/repo/scripts"
           ["node"; "atlas.js"; "images"; "atlas.png"] "images" "atlas.png" []).
  - reflexivity.
  - reflexivity.
Defined.



(** ** The order of the images *)

Lemma sort_Sorted (files : list string) : Sorted String.le (sort files).
Proof. apply (Sorted_merge_sort String.le). Qed.

(** The sorted list is the only sorted arrangement of the paths. *)
Lemma sort_unique (files sorted : list string) :
  Sorted String.le sorted → sorted ≡ₚ files → sort files = sorted.
Proof.
  intros Hs Hp. apply (Sorted_unique String.le); [apply sort_Sorted | done |].
  by rewrite sort_Permutation.
Qed.

(** C5: the order both scripts work in depends on the set of discovered
    paths only: two enumerations of the same files, in any two orders,
    are sorted into the same sequence. *)
Theorem sorted_order_ignores_enumeration_order (files1 files2 : list string) :
  files1 ≡ₚ files2 → sort files1 = sort files2.
Proof.
  intros Hp. apply sort_unique; [apply sort_Sorted|].
  by rewrite sort_Permutation.
Qed.

Lemma sorted_order_ignores_enumeration_order_witness :
  sort ["/repo/scripts/images/b/2.png"; "/repo/scripts/images/a/1.png"] =
  sort ["/repo/scripts/images/a/1.png"; "/repo/scripts/images/b/2.png"].
Proof.
  apply (sorted_order_ignores_enumeration_order
           ["/repo/scripts/images/b/2.png"; "/repo/scripts/images/a/1.png"]
           ["/repo/scripts/images/a/1.png"; "/repo/scripts/images/b/2.png"]).
  apply perm_swap.
Defined.

(** The scenario's order: [a/1.png] before [b/2.png]. *)
Example scenario_order :
  getImageFilesRecursively scenario "/repo/scripts/images" =
    inr ["/repo/scripts/images/b/2.png"; "/repo/scripts/images/a/1.png"] ∧
  sort ["/repo/scripts/images/b/2.png"; "/repo/scripts/images/a/1.png"] =
    ["/repo/scripts/images/a/1.png"; "/repo/scripts/images/b/2.png"].
Proof. split; reflexivity. Qed.

(** ** The placements are those of the layout engine *)

Lemma layout_from_canvas offset maxw images :
  (Spec.layout_from offset maxw images).1 =
  Spec.CanvasSpec (foldl N.max maxw images.*1) (foldl N.add offset images.*2).
Proof.
  revert offset maxw. induction images as [|[w h] images IH]; intros offset maxw; [done|].
  simpl. specialize (IH (offset + h) (if decide (maxw < w) then w else maxw)).
  destruct (Spec.layout_from _ _ images) as [canvas placements]. simpl in *.
  rewrite IH. f_equal. f_equal. case_decide; lia.
Qed.

Lemma layout_from_placements offset maxw images :
  (Spec.layout_from offset maxw images).2 = (Spec.layout_from offset 0 images).2.
Proof.
  revert offset maxw. induction images as [|[w h] images IH]; intros offset maxw; [done|].
  simpl. pose proof (IH (offset + h) (if decide (maxw < w) then w else maxw)) as H1.
  pose proof (IH (offset + h) (if decide (0 < w) then w else 0)) as H2.
  destruct (Spec.layout_from _ (if decide (maxw < w) then w else maxw) images).
  destruct (Spec.layout_from _ (if decide (0 < w) then w else 0) images).
  simpl in *. congruence.
Qed.

Lemma layout_from_cons offset w h images :
  (Spec.layout_from offset 0 ((w, h) :: images)).2 =
  Spec.Placement 0 offset w h :: (Spec.layout_from (offset + h) 0 images).2.
Proof.
  simpl. pose proof (layout_from_placements (offset + h)
    (if decide (0 < w) then w else 0) images) as H.
  destruct (Spec.layout_from _ (if decide (0 < w) then w else 0) images). simpl in *.
  by rewrite H.
Qed.

Lemma composite_calls_from images calls yOffset :
  (Atlas.composite_loop record_composite images calls yOffset).1 =
  calls ++ zip images
    (Spec.layout_from yOffset 0 ((λ i, (Jimp.width i, Jimp.height i)) <$> images)).2.
Proof.
  revert calls yOffset. induction images as [|image images IH]; intros calls yOffset.
  - simpl. by rewrite app_nil_r.
  - rewrite fmap_cons, layout_from_cons. simpl. rewrite IH.
    unfold record_composite. by rewrite <-app_assoc.
Qed.

Lemma regions_from name imageData recorded yOffset :
  (AtlasText.region_loop record_region name imageData recorded yOffset).1 =
  recorded ++ zip (name <$> imageData)
    (Spec.layout_from yOffset 0
       ((λ d, (AtlasText.width d, AtlasText.height d)) <$> imageData)).2.
Proof.
  revert recorded yOffset. induction imageData as [|img imageData IH]; intros recorded yOffset.
  - simpl. by rewrite app_nil_r.
  - rewrite !fmap_cons, layout_from_cons. simpl. rewrite IH.
    unfold record_region. by rewrite <-app_assoc.
Qed.

(** The recorded calls are the calls made: running the loop with the
    library's [composite] is applying it to the recorded arguments. *)
Lemma composite_loop_calls {C} (composite : C → Jimp.bitmap → N → N → C)
    images sheet calls yOffset :
  (Atlas.composite_loop composite images
     (foldl (λ s c, composite s c.1 (Spec.x c.2) (Spec.y c.2)) sheet calls) yOffset).1 =
  foldl (λ s c, composite s c.1 (Spec.x c.2) (Spec.y c.2)) sheet
    (Atlas.composite_loop record_composite images calls yOffset).1.
Proof.
  revert calls yOffset. induction images as [|image images IH]; intros calls yOffset; [done|].
  simpl. rewrite <-IH. unfold record_composite. by rewrite foldl_app.
Qed.

(** The recorded regions are the regions written: the descriptor is the
    header followed by the lines of each recorded region. *)
Lemma region_loop_regions name imageData init recorded yOffset :
  (AtlasText.region_loop AtlasText.append_region name imageData
     (foldl (λ out r, AtlasText.append_region out r.1
               (Spec.y r.2) (Spec.width r.2) (Spec.height r.2)) init recorded) yOffset).1 =
  foldl (λ out r, AtlasText.append_region out r.1
           (Spec.y r.2) (Spec.width r.2) (Spec.height r.2)) init
    (AtlasText.region_loop record_region name imageData recorded yOffset).1.
Proof.
  revert recorded yOffset.
  induction imageData as [|img imageData IH]; intros recorded yOffset; [done|].
  simpl. rewrite <-IH. unfold record_region. by rewrite foldl_app.
Qed.

(** ** Vertical stacking *)

Lemma layout_from_length offset images :
  length (Spec.layout_from offset 0 images).2 = length images.
Proof.
  revert offset. induction images as [|[w h] images IH]; intros offset; [done|].
  rewrite layout_from_cons. simpl. by rewrite IH.
Qed.

Lemma layout_from_lookup offset images i p :
  (Spec.layout_from offset 0 images).2 !! i = Some p →
  ∃ w h, images !! i = Some (w, h) ∧
         p = Spec.Placement 0 (offset + Spec.sum (take i images.*2)) w h.
Proof.
  revert offset i p. induction images as [|[w h] images IH]; intros offset i p; [done|].
  rewrite layout_from_cons. destruct i as [|i]; csimpl.
  - intros [= <-]. exists w, h. split; [done|]. f_equal. unfold Spec.sum. csimpl. lia.
  - intros H. destruct (IH _ _ _ H) as (w' & h' & Hi & ->). exists w', h'.
    split; [done|]. f_equal. unfold Spec.sum. csimpl. lia.
Qed.

Lemma sum_take_S (l : list N) (i : nat) (h : N) :
  l !! i = Some h → Spec.sum (take (S i) l) = Spec.sum (take i l) + h.
Proof.
  revert i. induction l as [|a l IH]; intros i; [done|].
  destruct i as [|i]; simpl.
  - intros [= ->]. unfold Spec.sum. simpl. lia.
  - intros H. unfold Spec.sum in *. simpl. rewrite (IH _ H). lia.
Qed.

Lemma sum_take_le (l : list N) (i j : nat) :
  (i ≤ j)%nat → Spec.sum (take i l) ≤ Spec.sum (take j l).
Proof.
  revert i j. induction l as [|a l IH]; intros i j Hij.
  - by rewrite !take_nil.
  - destruct i as [|i], j as [|j]; unfold Spec.sum in *; simpl; try lia.
    assert (i ≤ j)%nat as H by lia. specialize (IH _ _ H). lia.
Qed.

Lemma layout_stacked images : stacked (Spec.layout images).2.
Proof.
  unfold Spec.layout. repeat split.
  - intros p [i Hi]%list_elem_of_lookup.
    by destruct (layout_from_lookup _ _ _ _ Hi) as (w & h & _ & ->).
  - intros p Hp. rewrite head_lookup in Hp.
    by destruct (layout_from_lookup _ _ _ _ Hp) as (w & h & _ & ->).
  - intros i pi pj Hi Hj.
    destruct (layout_from_lookup _ _ _ _ Hi) as (w & h & Hwh & ->).
    destruct (layout_from_lookup _ _ _ _ Hj) as (w' & h' & _ & ->). simpl.
    rewrite (sum_take_S _ _ h); [lia|].
    by rewrite list_lookup_fmap, Hwh.
  - intros i j pi pj Hij Hi Hj.
    destruct (layout_from_lookup _ _ _ _ Hi) as (w & h & Hwh & ->).
    destruct (layout_from_lookup _ _ _ _ Hj) as (w' & h' & _ & ->). simpl.
    assert (Spec.sum (take (S i) images.*2) ≤ Spec.sum (take j images.*2))
      by (apply sum_take_le; lia).
    rewrite (sum_take_S _ _ h) in *; [lia|].
    by rewrite list_lookup_fmap, Hwh.
Qed.

Lemma composite_calls_layout images :
  (composite_calls images).*2 =
  (Spec.layout ((λ i, (Jimp.width i, Jimp.height i)) <$> images)).2.
Proof.
  unfold composite_calls. rewrite composite_calls_from. simpl.
  rewrite snd_zip; [done|]. by rewrite layout_from_length, length_fmap.
Qed.

Lemma regions_layout name imageData :
  (regions name imageData).*2 =
  (Spec.layout ((λ d, (AtlasText.width d, AtlasText.height d)) <$> imageData)).2.
Proof.
  unfold regions. rewrite regions_from. simpl.
  rewrite snd_zip; [done|]. by rewrite layout_from_length, !length_fmap.
Qed.

(** C2, as amended: in both scripts every placement has [x = 0], the
    first one has [y = 0], each placement ends exactly where the next one
    starts, and any later placement starts at or below the end of an
    earlier one. *)
Theorem placements_are_stacked images name imageData :
  stacked (composite_calls images).*2 ∧ stacked (regions name imageData).*2.
Proof.
  rewrite composite_calls_layout, regions_layout. split; apply layout_stacked.
Qed.

(** Three images of height 1: the first ends at 1, the third starts at 2. *)
Lemma placements_not_stacked_as_stated :
  ¬ stacked_as_stated
      (composite_calls [Jimp.create 1 1 0; Jimp.create 1 1 0; Jimp.create 1 1 0]).*2 ∧
  ¬ stacked_as_stated
      (regions AtlasText.path
         [AtlasText.ImageData "a.png" 1 1; AtlasText.ImageData "b.png" 1 1;
          AtlasText.ImageData "c.png" 1 1]).*2.
Proof.
  split; intros (_ & _ & H);
    specialize (H 0%nat 2%nat _ _ ltac:(lia) eq_refl eq_refl); by vm_compute in H.
Qed.

Lemma placements_are_stacked_witness :
  Spec.y (Spec.Placement 0 0 1 1) + Spec.height (Spec.Placement 0 0 1 1) ≤
  Spec.y (Spec.Placement 0 2 1 1).
Proof.
  destruct (placements_are_stacked
              [Jimp.create 1 1 0; Jimp.create 1 1 0; Jimp.create 1 1 0]
              AtlasText.path []) as [(_ & _ & _ & H) _].
  apply (H 0%nat 2%nat); [lia | reflexivity | reflexivity].
Defined.

(** ** One layout for both outputs *)

Lemma sizes_imageData_of imageFiles images :
  length imageFiles = length images →
  (λ d, (AtlasText.width d, AtlasText.height d)) <$> imageData_of imageFiles images =
  sizes images.
Proof.
  revert images. induction imageFiles as [|f files IH]; intros [|image images] Hlen;
    try done.
  unfold imageData_of, sizes in *. csimpl. f_equal. apply IH. simpl in Hlen. lia.
Qed.

Lemma spritesheet_of_layout images :
  spritesheet_of images =
  composited (Spec.layout (sizes images)).1 (zip images (Spec.layout (sizes images)).2).
Proof.
  unfold spritesheet_of, composited, Spec.layout.
  rewrite layout_from_canvas. simpl.
  pose proof (composite_loop_calls Jimp.composite images
    (Jimp.create (foldl N.max 0 (sizes images).*1) (foldl N.add 0 (sizes images).*2) 0)
    [] 0) as H.
  simpl in H. rewrite composite_calls_from in H. simpl in H.
  unfold sizes in *. rewrite <-!list_fmap_compose in *. exact H.
Qed.

Lemma descriptor_of_layout w imageDirectory name prefix imageFiles images :
  length imageFiles = length images →
  descriptor_of w imageDirectory name prefix imageFiles images =
  rendered name (Spec.layout (sizes images)).1
    (zip ((λ img, prefix +:+ AtlasText.relativePathWithoutExtension w imageDirectory img)
            <$> imageData_of imageFiles images)
       (Spec.layout (sizes images)).2).
Proof.
  intros Hlen. unfold descriptor_of, rendered, Spec.layout.
  rewrite layout_from_canvas. simpl.
  pose proof (region_loop_regions
    (λ img, prefix +:+ AtlasText.relativePathWithoutExtension w imageDirectory img)
    (imageData_of imageFiles images)
    (AtlasText.header name (foldl N.max 0 (sizes images).*1)
       (foldl N.add 0 (sizes images).*2)) [] 0) as H.
  simpl in H. rewrite regions_from in H. simpl in H.
  rewrite sizes_imageData_of in H by done.
  unfold sizes in *. rewrite <-!list_fmap_compose in *. exact H.
Qed.

(** C3: for the same discovered files, the image builder and the
    descriptor builder work from one and the same layout, the canvas and
    the placements the layout engine computes for the decoded images in
    sorted order: the sprite sheet is the canvas with the i-th image
    composited at the i-th placement, the descriptor is the header for
    the canvas followed by the region of the i-th file at the i-th
    placement. *)
Theorem both_outputs_share_one_layout
    w imageDirectory sheetPath textPath name prefix files images :
  getImageFilesRecursively w imageDirectory = inr files →
  files ≠ [] →
  decodes w (sort files) images →
  write_error w (os_path w sheetPath) = None →
  write_error w (os_path w textPath) = None →
  ∃ canvas placements names,
    (canvas, placements) = Spec.layout (sizes images) ∧
    length placements = length images ∧
    names = (λ img, prefix +:+ AtlasText.relativePathWithoutExtension w imageDirectory img)
              <$> imageData_of (sort files) images ∧
    AtlasText.path <$> imageData_of (sort files) images = sort files ∧
    written (Atlas.createSpritesheet w imageDirectory sheetPath start).1 =
      [(os_path w sheetPath, ImageFile (composited canvas (zip images placements)))] ∧
    written (AtlasText.generateAtlasTextFile w imageDirectory textPath name prefix start).1 =
      [(os_path w textPath, TextFile (rendered name canvas (zip names placements)))].
Proof.
  intros Hfiles Hne Hdec Hw1 Hw2.
  assert (length (sort files) = length images) as Hlen by (by eapply Forall2_length).
  exists (Spec.layout (sizes images)).1, (Spec.layout (sizes images)).2. eexists.
  split; [by destruct (Spec.layout (sizes images))|].
  split; [unfold Spec.layout, sizes; by rewrite layout_from_length, length_fmap|].
  split; [done|]. split.
  - clear Hdec. revert Hlen. generalize (sort files). intros l. revert images.
    induction l as [|f l IH]; intros [|image images] Hlen; try done.
    unfold imageData_of in *. csimpl. f_equal. apply IH. simpl in Hlen. lia.
  - rewrite (createSpritesheet_run _ _ _ _ _ _ Hfiles Hne Hdec), Hw1.
    rewrite (generateAtlasTextFile_run _ _ _ _ _ _ _ _ Hfiles Hne Hdec), Hw2. simpl.
    by rewrite spritesheet_of_layout, descriptor_of_layout.
Qed.

Lemma both_outputs_share_one_layout_witness :
  ∃ canvas placements names,
    (canvas, placements) = Spec.layout (sizes [scenario_image_1; scenario_image_2]) ∧
    length placements = length [scenario_image_1; scenario_image_2] ∧
    names = (λ img, "sprites/" +:+
               AtlasText.relativePathWithoutExtension scenario "/repo/scripts/images" img)
              <$> imageData_of
                    (sort ["/repo/scripts/images/b/2.png"; "/repo/scripts/images/a/1.png"])
                    [scenario_image_1; scenario_image_2] ∧
    AtlasText.path <$> imageData_of
        (sort ["/repo/scripts/images/b/2.png"; "/repo/scripts/images/a/1.png"])
        [scenario_image_1; scenario_image_2] =
      sort ["/repo/scripts/images/b/2.png"; "/repo/scripts/images/a/1.png"] ∧
    written (Atlas.createSpritesheet scenario "/repo/scripts/images"
               "/repo/scripts/atlas.png" start).1 =
      [(os_path scenario "/repo/scripts/atlas.png",
        ImageFile (composited canvas (zip [scenario_image_1; scenario_image_2] placements)))] ∧
    written (AtlasText.generateAtlasTextFile scenario "/repo/scripts/images"
               "/repo/scripts/atlas.atlas" "atlas.png" "sprites/" start).1 =
      [(os_path scenario "/repo/scripts/atlas.atlas",
        TextFile (rendered "atlas.png" canvas (zip names placements)))].
Proof.
  apply (both_outputs_share_one_layout scenario "/repo/scripts/images"
           "/repo/scripts/atlas.png" "/repo/scripts/atlas.atlas" "atlas.png" "sprites/"
           ["/repo/scripts/images/b/2.png"; "/repo/scripts/images/a/1.png"]).
  - reflexivity.
  - discriminate.
  - repeat constructor.
  - reflexivity.
  - reflexivity.
Defined.

(** The scenario's placements: 10 by 20 at (0, 0), then 30 by 5 at (0, 20). *)
Example scenario_placements :
  Spec.layout (sizes [scenario_image_1; scenario_image_2]) =
  (Spec.CanvasSpec 30 25, [Spec.Placement 0 0 10 20; Spec.Placement 0 20 30 5]).
Proof. reflexivity. Qed.

(** ** Discovery *)

Lemma Promise_all_flat_inr {A B} (f : A → string + list B) (l : list A) (files : list B) :
  flat (Promise_all (map f l)) = inr files →
  Forall (λ a, ∃ fs, f a = inr fs) l ∧
  ∀ p, p ∈ files ↔ ∃ a fs, a ∈ l ∧ f a = inr fs ∧ p ∈ fs.
Proof.
  revert files. induction l as [|a l IH]; intros files; simpl.
  - intros [= <-]. split; [constructor|]. intros p. split.
    + by intros ?%elem_of_nil.
    + by intros (a & fs & ?%elem_of_nil & _).
  - destruct (f a) as [message|fs] eqn:Ha; [done|].
    destruct (Promise_all (map f l)) as [message|rest] eqn:Hl; [done|].
    simpl. intros [= <-]. destruct (IH (concat rest) eq_refl) as [Hall Hiff].
    split; [constructor; eauto|]. intros p. rewrite elem_of_app, Hiff. split.
    + intros [Hp|(a' & fs' & Hin & Hfa & Hp)].
      * exists a, fs. split; [left|done].
      * exists a', fs'. split; [by right|done].
    + intros (a' & fs' & [->|Hin]%elem_of_cons & Hfa & Hp).
      * left. congruence.
      * right. eauto.
Qed.

Lemma Promise_all_flat_total {A B} (f : A → string + list B) (l : list A) :
  Forall (λ a, ∃ fs, f a = inr fs) l → ∃ files, flat (Promise_all (map f l)) = inr files.
Proof.
  induction 1 as [|a l [fs Ha] _ [files IH]]; simpl; [by eexists|].
  rewrite Ha. destruct (Promise_all (map f l)); [done|]. by eexists.
Qed.

Lemma scan_entry_found entry dir files p :
  scan_entry dir entry = inr files →
  p ∈ files ↔ ∃ name type, found dir entry p name type ∧ has_image_extension name.
Proof.
  revert dir files p.
  induction entry as [name type|name entries IH|name message] using fs_node_ind;
    intros dir files p; simpl.
  - unfold has_image_extension. case_decide as Hext; intros [= <-].
    + rewrite list_elem_of_singleton. split.
      * intros ->. exists name, type. split; [constructor | done].
      * intros (name' & type' & Hf & _). by inversion Hf.
    + split; [by intros ?%elem_of_nil|].
      intros (name' & type' & Hf & Hext'). inversion Hf; by subst.
  - intros H. apply Promise_all_flat_inr in H as [Hall Hiff]. rewrite Hiff. split.
    + intros (entry & fs & Hin & Hfs & Hp).
      rewrite list.Forall_forall in IH.
      apply (IH _ Hin _ _ p Hfs) in Hp as (name' & type' & Hf & Hext).
      exists name', type'. split; [|done]. by econstructor.
    + intros (name' & type' & Hf & Hext). inversion Hf as [|? ? ? entry ? ? ? Hin Hf']; subst.
      rewrite list.Forall_forall in IH.
      assert (∃ fs, scan_entry (Path.join dir name) entry = inr fs) as [fs Hfs].
      { rewrite list.Forall_forall in Hall. by apply Hall. }
      exists entry, fs. repeat split; [done..|].
      apply (IH _ Hin _ _ p Hfs). eauto.
  - done.
Qed.

Lemma scan_entry_total entry dir :
  readable entry → ∃ files, scan_entry dir entry = inr files.
Proof.
  revert dir.
  induction entry as [name type|name entries IH|name message] using fs_node_ind;
    intros dir Hr; simpl.
  - case_decide; by eexists.
  - apply Promise_all_flat_total. inversion Hr as [|? ? Hall]; subst.
    rewrite list.Forall_forall in *. intros entry Hin. by apply IH, Hall.
  - inversion Hr.
Qed.

Lemma discovered_is_found w dir entries files :
  listing w (os_path w dir) = inr entries →
  getImageFilesRecursively w dir = inr files →
  finds_non_directories dir entries files.
Proof.
  intros Hl. unfold getImageFilesRecursively. rewrite Hl.
  intros [Hall Hiff]%Promise_all_flat_inr p. rewrite Hiff. split.
  - intros (entry & fs & Hin & Hfs & Hp).
    apply (scan_entry_found _ _ _ p Hfs) in Hp as (name & type & Hf & Hext). eauto 6.
  - intros (entry & name & type & Hin & Hf & Hext).
    rewrite list.Forall_forall in Hall. destruct (Hall _ Hin) as [fs Hfs].
    exists entry, fs. repeat split; [done..|].
    apply (scan_entry_found _ _ _ p Hfs). eauto.
Qed.

(** C4, as amended: when every directory below the root can be listed,
    discovery returns exactly the full paths of the entries, at any depth,
    that are not directories (regular files, and symbolic links and
    other special entries alike) and whose extension, in lower case, is
    one of [.png .jpg .jpeg .bmp .gif].  Directories themselves and
    entries with any other extension are not returned. *)
Theorem discovery_finds_non_directories w dir entries :
  listing w (os_path w dir) = inr entries →
  (Forall readable entries → ∃ files, getImageFilesRecursively w dir = inr files) ∧
  (∀ files, getImageFilesRecursively w dir = inr files →
     finds_non_directories dir entries files).
Proof.
  intros Hl. unfold getImageFilesRecursively. rewrite Hl. split.
  - intros Hr. apply Promise_all_flat_total.
    rewrite list.Forall_forall in *. intros entry Hin. by apply scan_entry_total, Hr.
  - intros files [Hall Hiff]%Promise_all_flat_inr p. rewrite Hiff. split.
    + intros (entry & fs & Hin & Hfs & Hp).
      apply (scan_entry_found _ _ _ p Hfs) in Hp as (name & type & Hf & Hext). eauto 6.
    + intros (entry & name & type & Hin & Hf & Hext).
      rewrite list.Forall_forall in Hall. destruct (Hall _ Hin) as [fs Hfs].
      exists entry, fs. repeat split; [done..|].
      apply (scan_entry_found _ _ _ p Hfs). eauto.
Qed.

Lemma discovery_finds_non_directories_witness :
  (Forall readable scenario_root →
   ∃ files, getImageFilesRecursively scenario "/repo/scripts/images" = inr files) ∧
  (∀ files, getImageFilesRecursively scenario "/repo/scripts/images" = inr files →
     finds_non_directories "/repo/scripts/images" scenario_root files).
Proof.
  apply (discovery_finds_non_directories scenario "/repo/scripts/images" scenario_root).
  reflexivity.
Defined.

(** A symbolic link named [link.png] is returned, and is no regular file. *)
Lemma discovery_returns_a_symbolic_link :
  getImageFilesRecursively link_world "/repo/scripts/images" =
    inr ["/repo/scripts/images/link.png"] ∧
  ¬ finds_regular_files "/repo/scripts/images" [Entry "link.png" SymbolicLink]
      ["/repo/scripts/images/link.png"].
Proof.
  split; [reflexivity|]. intros H.
  destruct (H "/repo/scripts/images/link.png") as [Hfound _].
  destruct Hfound as (entry & name & Hin & Hf & _); [left|].
  apply list_elem_of_singleton in Hin as ->. inversion Hf.
Qed.

(** The scenario with a text file: it is not discovered. *)
Example scenario_text_file_excluded :
  getImageFilesRecursively scenario "/repo/scripts/images" =
    inr ["/repo/scripts/images/b/2.png"; "/repo/scripts/images/a/1.png"] ∧
  found "/repo/scripts/images" (Directory "b" [Entry "2.png" RegularFile;
                                               Entry "notes.txt" RegularFile])
    "/repo/scripts/images/b/notes.txt" "notes.txt" RegularFile.
Proof.
  split; [reflexivity|].
  apply (found_inside _ _ _ (Entry "notes.txt" RegularFile)); [repeat constructor|].
  apply (found_entry "/repo/scripts/images/b" "notes.txt" RegularFile).
Qed.

(** Upper-case extensions are recognised, a name that is only an
    extension is not. *)
Example extension_examples :
  has_image_extension "TILE.PNG" ∧ has_image_extension "photo.JpEg" ∧
  ¬ has_image_extension ".png" ∧ ¬ has_image_extension "notes.txt" ∧
  ¬ has_image_extension "png" ∧ ¬ has_image_extension "archive.png.zip".
Proof.
  repeat split;
    first [ by apply (bool_decide_unpack (has_image_extension _))
          | by apply (bool_decide_eq_false_1 (has_image_extension _)) ].
Qed.

(** ** The paths the scripts read and write *)

Lemma isAbsolute_app p q : Path.isAbsolute p = true → Path.isAbsolute (p +:+ q) = true.
Proof. by destruct p. Qed.

Lemma normalize_isAbsolute p :
  Path.isAbsolute p = true → Path.isAbsolute (Path.normalize p) = true.
Proof.
  intros H. unfold Path.normalize. case_decide as Hp; [by subst|].
  rewrite H. simpl. by case_decide.
Qed.

Lemma join_isAbsolute dirname arg :
  Path.isAbsolute dirname = true → Path.isAbsolute (Path.join dirname arg) = true.
Proof.
  intros H. unfold Path.join. case_decide as Hd; [by subst|].
  case_decide; apply normalize_isAbsolute; [done | by apply isAbsolute_app].
Qed.

Lemma os_path_absolute w p : Path.isAbsolute p = true → os_path w p = p.
Proof. intros H. unfold os_path. by rewrite H. Qed.

Lemma scan_entry_absolute entry dir files :
  Path.isAbsolute dir = true →
  scan_entry dir entry = inr files → Forall (λ f, Path.isAbsolute f = true) files.
Proof.
  revert dir files.
  induction entry as [name type|name entries IH|name message] using fs_node_ind;
    intros dir files Hdir; simpl.
  - case_decide; intros [= <-]; repeat constructor. by apply join_isAbsolute.
  - intros [Hall Hiff]%Promise_all_flat_inr. rewrite list.Forall_forall in IH.
    apply list.Forall_forall. intros p (entry & fs & Hin & Hfs & Hp)%Hiff.
    specialize (IH _ Hin _ _ (join_isAbsolute _ name Hdir) Hfs).
    rewrite list.Forall_forall in IH. by apply IH.
  - done.
Qed.

Lemma discovered_absolute w dir files :
  Path.isAbsolute dir = true →
  getImageFilesRecursively w dir = inr files →
  Forall (λ f, Path.isAbsolute f = true) files.
Proof.
  intros Hdir. unfold getImageFilesRecursively. destruct (listing w _); [done|].
  intros [Hall Hiff]%Promise_all_flat_inr. apply list.Forall_forall.
  intros p (entry & fs & Hin & Hfs & Hp)%Hiff.
  pose proof (scan_entry_absolute _ _ _ Hdir Hfs) as H.
  rewrite list.Forall_forall in H. by apply H.
Qed.

Section same_files.
Context (w1 w2 : world) (Hsame : same_files w1 w2).

Lemma Jimp_read_same f :
  Path.isAbsolute f = true → Jimp_read w1 f = Jimp_read w2 f.
Proof.
  intros Hf. unfold Jimp_read. rewrite !os_path_absolute by done. apply Hsame.
Qed.

Lemma getImageFilesRecursively_same dir :
  Path.isAbsolute dir = true →
  getImageFilesRecursively w1 dir = getImageFilesRecursively w2 dir.
Proof.
  intros Hd. unfold getImageFilesRecursively. rewrite !os_path_absolute by done.
  destruct Hsame as [-> _]. done.
Qed.

Lemma write_file_same out content p :
  Path.isAbsolute out = true → write_file w1 out content p = write_file w2 out content p.
Proof.
  intros Ho. unfold write_file. rewrite !os_path_absolute by done.
  destruct Hsame as (_ & _ & ->). done.
Qed.

Lemma atlas_measure_loop_same files st p :
  Forall (λ f, Path.isAbsolute f = true) files →
  Atlas.measure_loop w1 files st p = Atlas.measure_loop w2 files st p.
Proof.
  intros H. revert st p. induction H as [|f files Hf _ IH]; intros st p; [done|].
  simpl. unfold Atlas.loadImage, io_bind, try_catch.
  rewrite (Jimp_read_same _ Hf). destruct (Jimp_read w2 f); simpl; [done|]. apply IH.
Qed.

Lemma text_measure_loop_same files st p :
  Forall (λ f, Path.isAbsolute f = true) files →
  AtlasText.measure_loop w1 files st p = AtlasText.measure_loop w2 files st p.
Proof.
  intros H. revert st p. induction H as [|f files Hf _ IH]; intros st p; [done|].
  simpl. unfold AtlasText.getImageDimensions, io_bind, try_catch.
  rewrite (Jimp_read_same _ Hf). destruct (Jimp_read w2 f); simpl; [done|]. apply IH.
Qed.

Lemma relativePathWithoutExtension_same dir img :
  Path.isAbsolute dir = true → Path.isAbsolute (AtlasText.path img) = true →
  AtlasText.relativePathWithoutExtension w1 dir img =
  AtlasText.relativePathWithoutExtension w2 dir img.
Proof.
  intros Hd Hi. unfold AtlasText.relativePathWithoutExtension, Path.relative, Path.resolve.
  by rewrite Hd, Hi.
Qed.
End same_files.

Lemma region_loop_ext {O} (emit : O → string → N → N → N → O) name1 name2
    imageData outputContent yOffset :
  Forall (λ img, name1 img = name2 img) imageData →
  AtlasText.region_loop emit name1 imageData outputContent yOffset =
  AtlasText.region_loop emit name2 imageData outputContent yOffset.
Proof.
  intros H. revert outputContent yOffset.
  induction H as [|img imageData Himg _ IH]; intros outputContent yOffset; [done|].
  simpl. by rewrite Himg, IH.
Qed.

Lemma imageData_of_paths (P : string → Prop) imageFiles images :
  Forall P imageFiles → Forall (λ img, P (AtlasText.path img)) (imageData_of imageFiles images).
Proof.
  intros H. revert images. induction H as [|f files Hf _ IH]; intros [|image images];
    try constructor; [done|]. apply IH.
Qed.

Lemma decodes_same w1 w2 imageFiles images :
  same_files w1 w2 →
  Forall (λ f, Path.isAbsolute f = true) imageFiles →
  decodes w1 imageFiles images → decodes w2 imageFiles images.
Proof.
  intros Hsame Habs Hdec. induction Hdec as [|f image files images Hf _ IH]; [constructor|].
  inversion Habs; subst. constructor; [|by apply IH].
  by rewrite <-(Jimp_read_same w1 w2 Hsame).
Qed.

Lemma createSpritesheet_same w1 w2 imageDirectory outputFilePath p :
  same_files w1 w2 →
  Path.isAbsolute imageDirectory = true →
  Path.isAbsolute outputFilePath = true →
  Atlas.createSpritesheet w1 imageDirectory outputFilePath p =
  Atlas.createSpritesheet w2 imageDirectory outputFilePath p.
Proof.
  intros Hsame Hdir Hout.
  pose proof (getImageFilesRecursively_same w1 w2 Hsame _ Hdir) as Hget.
  destruct (getImageFilesRecursively w2 imageDirectory) as [message|files] eqn:H2.
  { by rewrite !(createSpritesheet_rejected _ _ _ message). }
  destruct (decide (files = [])) as [->|Hne].
  { by rewrite !createSpritesheet_empty. }
  assert (Forall (λ f, Path.isAbsolute f = true) (sort files)) as Habs.
  { rewrite sort_Permutation. apply (discovered_absolute w2 imageDirectory files Hdir H2). }
  destruct (decodes_or_fails w1 (sort files))
    as [[images Hdec]|(loaded & images & bad & message & rest & Hs & Hl & Hbad)].
  - rewrite (createSpritesheet_run w1 _ _ _ _ _ Hget Hne Hdec).
    rewrite (createSpritesheet_run w2 _ _ _ _ _ H2 Hne (decodes_same _ _ _ _ Hsame Habs Hdec)).
    rewrite !os_path_absolute by done. by destruct Hsame as (_ & _ & ->).
  - rewrite Hs in Habs. apply Forall_app in Habs as [Hal Hab]. inversion Hab; subst.
    rewrite (createSpritesheet_load_error w1 _ _ _ _ _ _ _ _ _ Hget Hne Hs Hl Hbad).
    rewrite (Jimp_read_same w1 w2 Hsame) in Hbad by done.
    by rewrite (createSpritesheet_load_error w2 _ _ _ _ _ _ _ _ _ H2 Hne Hs
                  (decodes_same _ _ _ _ Hsame Hal Hl) Hbad).
Qed.

Lemma generateAtlasTextFile_same w1 w2 imageDirectory outputFilePath name prefix p :
  same_files w1 w2 →
  Path.isAbsolute imageDirectory = true →
  Path.isAbsolute outputFilePath = true →
  AtlasText.generateAtlasTextFile w1 imageDirectory outputFilePath name prefix p =
  AtlasText.generateAtlasTextFile w2 imageDirectory outputFilePath name prefix p.
Proof.
  intros Hsame Hdir Hout.
  pose proof (getImageFilesRecursively_same w1 w2 Hsame _ Hdir) as Hget.
  destruct (getImageFilesRecursively w2 imageDirectory) as [message|files] eqn:H2.
  { by rewrite !(generateAtlasTextFile_rejected _ _ _ _ _ message). }
  destruct (decide (files = [])) as [->|Hne].
  { by rewrite !generateAtlasTextFile_empty. }
  assert (Forall (λ f, Path.isAbsolute f = true) (sort files)) as Habs.
  { rewrite sort_Permutation. apply (discovered_absolute w2 imageDirectory files Hdir H2). }
  destruct (decodes_or_fails w1 (sort files))
    as [[images Hdec]|(loaded & images & bad & message & rest & Hs & Hl & Hbad)].
  - rewrite (generateAtlasTextFile_run w1 _ _ _ _ _ _ _ Hget Hne Hdec).
    rewrite (generateAtlasTextFile_run w2 _ _ _ _ _ _ _ H2 Hne
               (decodes_same _ _ _ _ Hsame Habs Hdec)).
    rewrite !os_path_absolute by done. destruct Hsame as (Hs1 & Hs2 & ->).
    assert (descriptor_of w1 imageDirectory name prefix (sort files) images =
            descriptor_of w2 imageDirectory name prefix (sort files) images) as ->; [|done].
    unfold descriptor_of. f_equal. apply region_loop_ext.
    eapply list.Forall_impl; [by apply (imageData_of_paths _ _ images Habs)|].
    intros img Himg. simpl in Himg.
    by rewrite (relativePathWithoutExtension_same w1 w2).
  - rewrite Hs in Habs. apply Forall_app in Habs as [Hal Hab]. inversion Hab; subst.
    rewrite (generateAtlasTextFile_load_error w1 _ _ _ _ _ _ _ _ _ _ _ Hget Hne Hs Hl Hbad).
    rewrite (Jimp_read_same w1 w2 Hsame) in Hbad by done.
    by rewrite (generateAtlasTextFile_load_error w2 _ _ _ _ _ _ _ _ _ _ _ H2 Hne Hs
                  (decodes_same _ _ _ _ Hsame Hal Hl) Hbad).
Qed.

(** C10: both scripts join their directory and file-name arguments onto
    the directory of the script, which is an absolute path: the paths
    they read and write are absolute, and a run from another working
    directory, with the same files on disk, behaves the same in every
    respect. *)
Theorem paths_do_not_depend_on_the_working_directory w1 w2 dirname argv p :
  Path.isAbsolute dirname = true →
  same_files w1 w2 →
  Atlas.main w1 dirname argv p = Atlas.main w2 dirname argv p ∧
  AtlasText.main w1 dirname argv p = AtlasText.main w2 dirname argv p ∧
  ∀ arg, os_path w1 (Path.join dirname arg) = Path.join dirname arg ∧
         os_path w2 (Path.join dirname arg) = Path.join dirname arg.
Proof.
  intros Hd Hsame. unfold Atlas.main, AtlasText.main.
  split; [|split].
  - destruct (drop 2 argv) as [|i [|o rest]]; [done..|].
    apply createSpritesheet_same; [done|by apply join_isAbsolute..].
  - destruct (drop 2 argv) as [|i [|o rest]]; [done..|].
    apply generateAtlasTextFile_same; [done|by apply join_isAbsolute..].
  - intros arg. split; by apply os_path_absolute, join_isAbsolute.
Qed.

Lemma paths_do_not_depend_on_the_working_directory_witness :
  Atlas.main scenario "/repo/scripts" ["node"; "atlas.js"; "images"; "atlas.png"] start =
  Atlas.main scenario_elsewhere "/repo/scripts"
    ["node"; "atlas.js"; "images"; "atlas.png"] start ∧
  AtlasText.main scenario "/repo/scripts" ["node"; "atlas.js"; "images"; "atlas.png"] start =
  AtlasText.main scenario_elsewhere "/repo/scripts"
    ["node"; "atlas.js"; "images"; "atlas.png"] start ∧
  ∀ arg, os_path scenario (Path.join "/repo/scripts" arg) = Path.join "/repo/scripts" arg ∧
         os_path scenario_elsewhere (Path.join "/repo/scripts" arg) =
           Path.join "/repo/scripts" arg.
Proof.
  apply (paths_do_not_depend_on_the_working_directory scenario scenario_elsewhere
           "/repo/scripts" ["node"; "atlas.js"; "images"; "atlas.png"] start).
  - reflexivity.
  - repeat split.
Defined.

(** ** The descriptor text *)

Lemma unlines_app (l1 l2 : list string) :
  Spec.unlines (l1 ++ l2) = Spec.unlines l1 +:+ Spec.unlines l2.
Proof.
  induction l1 as [|line l1 IH]; [done|].
  simpl. by rewrite IH, !string_app_assoc.
Qed.

Lemma header_unlines name canvas :
  AtlasText.header name (Spec.canvas_width canvas) (Spec.canvas_height canvas) =
  Spec.unlines (Spec.header_lines name canvas).
Proof.
  unfold AtlasText.header, Spec.header_lines, Spec.unlines. simpl.
  by rewrite !string_app_assoc.
Qed.

Lemma region_lines_unlines (region : string * Spec.placement) :
  Spec.x region.2 = 0 →
  AtlasText.region_lines region.1 (Spec.y region.2) (Spec.width region.2)
    (Spec.height region.2) =
  Spec.unlines (Spec.region_block region).
Proof.
  intros Hx. unfold AtlasText.region_lines, Spec.region_block, Spec.unlines. simpl.
  rewrite Hx. by rewrite !string_app_assoc.
Qed.

Lemma rendered_descriptor name canvas regions :
  Forall (λ r : string * Spec.placement, Spec.x r.2 = 0) regions →
  rendered name canvas regions = Spec.descriptor name canvas regions.
Proof.
  intros Hx. unfold rendered, Spec.descriptor.
  rewrite unlines_app, <-header_unlines.
  generalize (AtlasText.header name (Spec.canvas_width canvas) (Spec.canvas_height canvas)).
  induction Hx as [|region regions Hr _ IH]; intros init.
  - simpl. by rewrite string_app_nil_r.
  - change (mjoin (Spec.region_block <$> region :: regions))
      with (Spec.region_block region ++ mjoin (Spec.region_block <$> regions)).
    cbn [foldl]. rewrite IH. unfold AtlasText.append_region.
    rewrite (region_lines_unlines _ Hr), unlines_app. by rewrite string_app_assoc.
Qed.

(** ** Splitting and joining paths *)

Lemma split_nonempty sep s : Js.split sep s ≠ [].
Proof.
  destruct s as [|c s]; [done|]. simpl. case_decide; [done|].
  by destruct (Js.split sep s).
Qed.

Lemma split_without_separator sep s :
  Js.includes sep s = false → Js.split sep s = [s].
Proof.
  induction s as [|c s IH]; [done|]. simpl.
  intros [Hc Hs]%orb_false_elim. apply bool_decide_eq_false in Hc.
  rewrite decide_False by done. by rewrite IH.
Qed.

Lemma split_app_separator sep a b :
  Js.split sep (a +:+ String sep b) = Js.split sep a ++ Js.split sep b.
Proof.
  induction a as [|c a IH].
  - rewrite string_app_nil_l. simpl. by rewrite decide_True.
  - rewrite string_app_cons. simpl. rewrite IH. case_decide; [done|].
    pose proof (split_nonempty sep a). by destruct (Js.split sep a).
Qed.

Lemma split_segments sep s :
  Forall (λ seg, Js.includes sep seg = false) (Js.split sep s).
Proof.
  induction s as [|c s IH]; [by repeat constructor|]. simpl. case_decide as Hc.
  - by constructor.
  - pose proof (split_nonempty sep s). destruct (Js.split sep s) as [|h t]; [done|].
    inversion IH; subst. constructor; [|done]. simpl.
    rewrite bool_decide_eq_false_2 by done. done.
Qed.

Lemma join_cons_cons (sep seg1 seg2 : string) (segs : list string) :
  Js.join sep (seg1 :: seg2 :: segs) = seg1 +:+ sep +:+ Js.join sep (seg2 :: segs).
Proof. done. Qed.

Lemma split_join (segs : list string) :
  segs ≠ [] →
  Forall (λ seg, Js.includes "/" seg = false) segs →
  Js.split "/" (Js.join "/" segs) = segs.
Proof.
  intros Hne H. induction H as [|seg segs Hseg Hsegs IH]; [done|].
  destruct segs as [|seg2 segs].
  - simpl. by apply split_without_separator.
  - rewrite join_cons_cons.
    change ("/" +:+ Js.join "/" (seg2 :: segs)) with (String "/" (Js.join "/" (seg2 :: segs))).
    rewrite split_app_separator, IH by done.
    by rewrite split_without_separator.
Qed.

Lemma join_snoc_nonempty (segs : list string) (name : string) :
  name ≠ "" → Js.join "/" (segs ++ [name]) ≠ "".
Proof.
  intros Hname. induction segs as [|seg segs IH]; [done|].
  destruct segs as [|seg2 segs].
  - simpl. by destruct seg.
  - change ((seg :: seg2 :: segs) ++ [name]) with (seg :: seg2 :: (segs ++ [name])).
    rewrite join_cons_cons. by destruct seg.
Qed.

Lemma ends_with_char_app c a b :
  b ≠ "" → Js.ends_with_char c (a +:+ b) = Js.ends_with_char c b.
Proof.
  intros Hb. induction a as [|d a IH]; [done|].
  rewrite string_app_cons. simpl. rewrite IH.
  destruct (a +:+ b) eqn:Hab; [|done]. destruct a; [by subst|done].
Qed.

Lemma ends_with_char_includes c s :
  Js.includes c s = false → Js.ends_with_char c s = false.
Proof.
  induction s as [|d s IH]; [done|]. simpl.
  intros [Hd Hs]%orb_false_elim. destruct s; [done|]. by apply IH.
Qed.

(** ** Normalised segments *)

Lemma normalize_segment_plain res seg :
  plain_name seg → Path.normalize_segment false res seg = seg :: res.
Proof.
  intros (H1 & H2 & H3 & _). unfold Path.normalize_segment.
  destruct (decide (seg = "" ∨ seg = ".")) as [[?|?]|_]; [done..|].
  by destruct (decide (seg = "..")).
Qed.

Lemma foldl_normalize_plain res segs :
  Forall plain_name segs →
  foldl (Path.normalize_segment false) res segs = reverse segs ++ res.
Proof.
  intros H. revert res. induction H as [|seg segs Hseg _ IH]; intros res; [done|].
  simpl. rewrite normalize_segment_plain, IH by done.
  by rewrite reverse_cons, <-app_assoc.
Qed.

Lemma normalize_segment_keeps_plain res seg :
  Js.includes "/" seg = false →
  Forall plain_name res → Forall plain_name (Path.normalize_segment false res seg).
Proof.
  intros Hseg Hres. unfold Path.normalize_segment.
  destruct (decide (seg = "" ∨ seg = ".")) as [|H1]; [done|].
  destruct (decide (seg = "..")) as [|H2].
  - destruct Hres as [|top res Htop Hres]; simpl; [constructor|].
    destruct (decide (top = "..")); [by constructor | done].
  - constructor; [|done]. repeat split; [| |done..].
    + intros ->. apply H1. by left.
    + intros ->. apply H1. by right.
Qed.

Lemma normalizeString_plain p : Forall plain_name (Path.normalizeString p false).
Proof.
  unfold Path.normalizeString. apply Forall_reverse.
  assert (∀ segs res, Forall (λ seg, Js.includes "/" seg = false) segs →
            Forall plain_name res →
            Forall plain_name (foldl (Path.normalize_segment false) res segs)) as H.
  { intros segs res Hsegs. revert res.
    induction Hsegs as [|seg segs Hseg _ IH]; intros res Hres; [done|].
    simpl. by apply IH, normalize_segment_keeps_plain. }
  apply H; [apply split_segments | constructor].
Qed.

Lemma plain_name_no_separator name : plain_name name → Js.includes "/" name = false.
Proof. by intros (_ & _ & _ & H). Qed.

Lemma normalizeString_root_join (segs : list string) :
  Forall plain_name segs → Path.normalizeString ("/" +:+ Js.join "/" segs) false = segs.
Proof.
  intros H. unfold Path.normalizeString.
  change ("/" +:+ Js.join "/" segs) with ("" +:+ String Path.sep (Js.join "/" segs)).
  rewrite split_app_separator. simpl.
  destruct segs as [|seg segs].
  - done.
  - rewrite split_join; [|done|].
    + rewrite foldl_normalize_plain by done. by rewrite app_nil_r, reverse_involutive.
    + eapply list.Forall_impl; [done|]. apply plain_name_no_separator.
Qed.

Lemma join_segments dir name :
  Path.isAbsolute dir = true →
  plain_name name →
  Path.join dir name = "/" +:+ Js.join "/" (Path.normalizeString dir false ++ [name]).
Proof.
  intros Hdir Hname. pose proof Hname as (Hne & _ & _ & Hsep).
  unfold Path.join. rewrite decide_False by (by destruct dir).
  rewrite decide_False by done. unfold Path.normalize.
  rewrite decide_False by (by destruct dir).
  rewrite isAbsolute_app by done. simpl.
  assert (Path.normalizeString (dir +:+ "/" +:+ name) false =
          Path.normalizeString dir false ++ [name]) as ->.
  { unfold Path.normalizeString.
    change (dir +:+ "/" +:+ name) with (dir +:+ String Path.sep name).
    rewrite split_app_separator, foldl_app, (split_without_separator _ name) by done.
    simpl. rewrite normalize_segment_plain by done. by rewrite reverse_cons. }
  rewrite decide_False by (by apply join_snoc_nonempty).
  rewrite ends_with_char_app by (by destruct name).
  rewrite ends_with_char_app, ends_with_char_includes by done.
  by rewrite string_app_nil_r.
Qed.

Lemma normalizeString_join dir name :
  Path.isAbsolute dir = true →
  plain_name name →
  Path.normalizeString (Path.join dir name) false = Path.normalizeString dir false ++ [name].
Proof.
  intros Hdir Hname. rewrite join_segments by done.
  apply normalizeString_root_join, Forall_app. split; [apply normalizeString_plain|].
  by constructor.
Qed.

(** The path of a found entry is the root followed by the names of the
    directories on the way and the name of the entry. *)
Lemma found_segments dir entry p name type :
  found dir entry p name type →
  Path.isAbsolute dir = true →
  well_named entry →
  ∃ below, Forall plain_name below ∧ plain_name name ∧ Path.isAbsolute p = true ∧
    Path.normalizeString p false = Path.normalizeString dir false ++ below ++ [name].
Proof.
  induction 1 as [dir name type|dir sub entries entry p name type Hin Hf IH];
    intros Hdir Hwn.
  - inversion Hwn; subst. exists []. split; [constructor|]. split; [done|].
    split; [by apply join_isAbsolute|]. by apply normalizeString_join.
  - inversion Hwn as [|? ? Hsub Hall|]; subst.
    rewrite list.Forall_forall in Hall.
    destruct (IH (join_isAbsolute _ sub Hdir) (Hall _ Hin))
      as (below & Hbelow & Hname & Hp & Hsegs).
    exists (sub :: below). split; [by constructor|]. split; [done|]. split; [done|].
    rewrite Hsegs, normalizeString_join by done. by rewrite <-app_assoc.
Qed.

Lemma strip_common_app {A} `{EqDecision A} (l rest : list A) :
  Path.strip_common l (l ++ rest) = ([], rest).
Proof.
  induction l as [|a l IH]; simpl; [by destruct rest|]. by rewrite decide_True.
Qed.

Lemma relative_below cwd root p below :
  Path.isAbsolute root = true →
  Path.isAbsolute p = true →
  Path.normalizeString p false = Path.normalizeString root false ++ below →
  Path.relative cwd root p = Js.join "/" below.
Proof.
  intros Hroot Hp Hsegs. unfold Path.relative, Path.resolve.
  by rewrite Hroot, Hp, Hsegs, strip_common_app.
Qed.

(** ** Region names *)

Lemma lastIndexOf_replace_backslashes (s : string) :
  Js.lastIndexOf "." (Js.replace_backslashes s) = Js.lastIndexOf "." s.
Proof.
  induction s as [|c s IH]; [done|]. simpl. rewrite IH.
  destruct (Js.lastIndexOf "." s); [done|].
  by destruct (decide (c = "\"%char)) as [->|].
Qed.

Lemma take_replace_backslashes (n : nat) (s : string) :
  Js.take n (Js.replace_backslashes s) = Js.replace_backslashes (Js.take n s).
Proof.
  revert s. induction n as [|n IH]; intros [|c s]; try done. simpl. by rewrite IH.
Qed.

Lemma lastIndexOf_app (c : ascii) (a b : string) :
  Js.lastIndexOf c (a +:+ b) =
  match Js.lastIndexOf c b with
  | Some i => Some (String.length a + i)%nat
  | None => Js.lastIndexOf c a
  end.
Proof.
  induction a as [|d a IH].
  - rewrite string_app_nil_l. by destruct (Js.lastIndexOf c b).
  - rewrite string_app_cons. simpl. rewrite IH. by destruct (Js.lastIndexOf c b).
Qed.

Lemma lastIndexOf_lt (c : ascii) (s : string) (i : nat) :
  Js.lastIndexOf c s = Some i → (i < String.length s)%nat.
Proof.
  revert i. induction s as [|d s IH]; intros i; [done|]. simpl.
  destruct (Js.lastIndexOf c s) as [j|].
  - intros [= <-]. specialize (IH j eq_refl). lia.
  - case_decide; intros [= <-]. lia.
Qed.

Lemma length_drop (n : nat) (s : string) :
  String.length (Js.drop n s) = (String.length s - n)%nat.
Proof. revert s. induction n as [|n IH]; intros [|c s]; try done. simpl. by rewrite IH. Qed.

Lemma last_component_snoc (below : list string) (name : string) :
  Forall plain_name below → plain_name name →
  Path.last_component (Js.join "/" (below ++ [name])) = name.
Proof.
  intros Hbelow Hname. unfold Path.last_component.
  rewrite split_join.
  - rewrite list.filter_app, list.filter_cons_True by (by destruct Hname).
    rewrite list.filter_nil. by rewrite list.last_snoc.
  - by destruct below.
  - apply Forall_app. split; [|constructor; [|constructor]].
    + eapply list.Forall_impl; [done|]. apply plain_name_no_separator.
    + by apply plain_name_no_separator.
Qed.

Lemma last_component_plain (name : string) :
  plain_name name → Path.last_component name = name.
Proof. intros Hname. apply (last_component_snoc [] name (Forall_nil _) Hname). Qed.

Lemma join_snoc (below : list string) (name : string) :
  ∃ before, Js.join "/" (below ++ [name]) = before +:+ name.
Proof.
  induction below as [|seg below [before IH]]; [by exists ""|].
  exists (seg +:+ "/" +:+ before). destruct below as [|seg2 below].
  - simpl in *. rewrite !string_app_assoc. f_equal. f_equal.
    destruct before; [done|]. apply (f_equal String.length) in IH.
    rewrite string_app_cons in IH. simpl in IH. rewrite string_length_app in IH. lia.
  - change ((seg :: seg2 :: below) ++ [name]) with (seg :: seg2 :: (below ++ [name])).
    rewrite join_cons_cons.
    change ((seg2 :: below) ++ [name]) with (seg2 :: (below ++ [name])) in IH.
    by rewrite IH, !string_app_assoc.
Qed.

Lemma empty_not_image_extension : Js.toLowerCase "" ∉ image_extensions.
Proof. intros H. apply (bool_decide_pack _) in H. by vm_compute in H. Qed.

(** An image name ends with its extension, which starts at its last
    [.], not the first character. *)
Lemma image_extension_dot name :
  plain_name name → has_image_extension name →
  ∃ i, Js.lastIndexOf "." name = Some (S i) ∧ Path.extname name = Js.drop (S i) name.
Proof.
  intros Hname Hext. unfold has_image_extension, Path.extname in *.
  rewrite last_component_plain in * by done.
  destruct (Js.lastIndexOf "." name) as [[|i]|];
    [by apply empty_not_image_extension in Hext| |by apply empty_not_image_extension in Hext].
  exists i. split; [done|]. destruct Hname as (_ & _ & Hdd & _). by rewrite decide_False.
Qed.

Lemma take_to_extension (before name : string) (i : nat) :
  Js.lastIndexOf "." name = Some i →
  Js.take (String.length (before +:+ name) - String.length (Js.drop i name)) (before +:+ name) =
  Js.take (String.length before + i) (before +:+ name).
Proof.
  intros Hi%lastIndexOf_lt. rewrite string_length_app, length_drop. f_equal. lia.
Qed.

(** For a discovered image, cutting the relative path at its last [.]
    removes the extension of the file. *)
Lemma region_name_of_found (below : list string) (name : string) :
  Forall plain_name below → plain_name name → has_image_extension name →
  let relativePathWithExtension := Js.replace_backslashes (Js.join "/" (below ++ [name])) in
  Js.substring_to (Js.lastIndexOf "." relativePathWithExtension) relativePathWithExtension =
  Js.replace_backslashes (Spec.strip_extension (Js.join "/" (below ++ [name]))).
Proof.
  intros Hbelow Hname Hext. simpl.
  destruct (image_extension_dot name Hname Hext) as (i & Hi & Hextname).
  unfold Spec.strip_extension, Path.extname.
  rewrite last_component_snoc by done.
  unfold Path.extname in Hextname.
  rewrite last_component_plain in Hextname by done.
  rewrite Hextname. destruct (join_snoc below name) as [before ->].
  rewrite lastIndexOf_replace_backslashes, lastIndexOf_app, Hi. simpl.
  by rewrite take_replace_backslashes, (take_to_extension _ _ _ Hi).
Qed.

(** ** The atlas reference name *)

Lemma last_component_no_separator (s : string) :
  Js.includes "/" s = false → Path.last_component s = s.
Proof.
  intros Hs. unfold Path.last_component. rewrite split_without_separator by done.
  destruct s; [done|]. by rewrite list.filter_cons_True.
Qed.

Lemma last_component_includes (p : string) :
  Js.includes "/" (Path.last_component p) = false.
Proof.
  unfold Path.last_component.
  destruct (list.last (filter (λ s, s ≠ "") (Js.split Path.sep p))) as [name|] eqn:Hlast;
    [|done].
  apply last_Some in Hlast as [l Hl].
  assert (name ∈ filter (λ s, s ≠ "") (Js.split Path.sep p)) as Hin
    by (rewrite Hl; apply elem_of_app; right; left).
  apply list_elem_of_filter in Hin as [_ Hin].
  pose proof (split_segments Path.sep p) as H. rewrite list.Forall_forall in H.
  by apply H.
Qed.

Lemma includes_drop (c : ascii) (n : nat) (s : string) :
  Js.includes c s = false → Js.includes c (Js.drop n s) = false.
Proof.
  revert s. induction n as [|n IH]; intros [|d s]; try done. simpl.
  intros [_ Hs]%orb_false_elim. by apply IH.
Qed.

Lemma take_length (s : string) : Js.take (String.length s) s = s.
Proof. induction s as [|c s IH]; [done|]. simpl. by rewrite IH. Qed.

Lemma extname_last_component (p : string) :
  Path.extname (Path.last_component p) = Path.extname p.
Proof.
  unfold Path.extname.
  by rewrite (last_component_no_separator _ (last_component_includes p)).
Qed.

(** The base name without the extension, by the two-argument form of
    [path.basename], is the base name with its extension cut off. *)
Lemma basename_without_extension (p : string) :
  Path.basename p (Path.extname p) = Spec.strip_extension (Path.basename p "").
Proof.
  unfold Spec.strip_extension, Path.basename at 2 3 4. simpl.
  rewrite extname_last_component. unfold Path.basename.
  destruct (decide (Path.extname p = "")) as [->|Hext].
  { simpl. by rewrite Nat.sub_0_r, take_length. }
  pose proof (last_component_includes p) as Hsep.
  unfold Path.extname in *. set (name := Path.last_component p) in *.
  destruct (Js.lastIndexOf "." name) as [[|i]|] eqn:Hi; [done| |done].
  destruct (decide (name = "..")) as [|Hdd]; [done|].
  pose proof (lastIndexOf_lt _ _ _ Hi) as Hlt.
  assert (String.length (Js.drop (S i) name) = (String.length name - S i)%nat) as Hlen
    by apply length_drop.
  rewrite decide_False.
  - unfold Js.ends_with. rewrite Hlen.
    replace (String.length name - (String.length name - S i))%nat with (S i) by lia.
    rewrite bool_decide_eq_true_2 by done.
    rewrite bool_decide_eq_false_2; [done|].
    intros Heq. rewrite <-Heq in Hlen at 1. lia.
  - intros Heq.
    assert (Path.last_component p = p) as Hp.
    { apply last_component_no_separator. rewrite <-Heq. by apply includes_drop. }
    fold name in Hp. rewrite <-Hp in Heq. rewrite Heq in Hlen at 1. lia.
Qed.

Lemma reference_name_spec (outputFileName : string) :
  AtlasText.outputImageReferenceName outputFileName = Spec.reference_name outputFileName.
Proof.
  unfold AtlasText.outputImageReferenceName, Spec.reference_name.
  by rewrite basename_without_extension.
Qed.

Lemma discovered_region_name w root entries files prefix f width height :
  Path.isAbsolute root = true →
  listing w (os_path w root) = inr entries →
  Forall well_named entries →
  getImageFilesRecursively w root = inr files →
  f ∈ files →
  prefix +:+ AtlasText.relativePathWithoutExtension w root (AtlasText.ImageData f width height) =
  Spec.region_name (cwd w) root prefix f.
Proof.
  intros Hroot Hl Hwn Hfiles Hf.
  apply (discovered_is_found w root entries files Hl Hfiles) in Hf
    as (entry & name & type & Hin & Hfound & Hext).
  rewrite list.Forall_forall in Hwn.
  destruct (found_segments _ _ _ _ _ Hfound Hroot (Hwn _ Hin))
    as (below & Hbelow & Hname & Hp & Hsegs).
  unfold AtlasText.relativePathWithoutExtension, Spec.region_name. simpl.
  rewrite (relative_below _ _ _ (below ++ [name]) Hroot Hp Hsegs).
  by rewrite (region_name_of_found below name Hbelow Hname Hext).
Qed.

Lemma layout_x_zero {A} (names : list A) images :
  Forall (λ r : A * Spec.placement, Spec.x r.2 = 0)
    (zip names (Spec.layout images).2).
Proof.
  apply list.Forall_forall. intros [name p] Hin. simpl.
  apply elem_of_zip_r in Hin.
  destruct (layout_stacked images) as [Hx _]. by apply Hx.
Qed.

(** C8: the descriptor [generate_atlas_text.js] writes is, character for
    character, the document of the specification: the header with the
    atlas reference name (the base name of the output name with [.png]
    for its extension) and the canvas size, then one block per image in
    placement order, named by the prefix followed by the path of the
    image relative to the scanned root without its extension and with
    forward slashes, with [rotate: false], [xy: 0, y], [size] and [orig]
    both the width and height of the image, [offset: 0, 0], [index: -1];
    every line ends with a line feed. *)
Theorem descriptor_is_the_specified_document
    w dirname argv inputImageDirectory outputFileName rest entries files images :
  Path.isAbsolute dirname = true →
  drop 2 argv = inputImageDirectory :: outputFileName :: rest →
  listing w (Path.join dirname inputImageDirectory) = inr entries →
  Forall well_named entries →
  getImageFilesRecursively w (Path.join dirname inputImageDirectory) = inr files →
  files ≠ [] →
  decodes w (sort files) images →
  write_error w (Path.join dirname outputFileName) = None →
  written (AtlasText.main w dirname argv start).1 =
    [(Path.join dirname outputFileName,
      TextFile
        (Spec.descriptor (Spec.reference_name outputFileName)
           (Spec.layout (sizes images)).1
           (zip (Spec.region_name (cwd w) (Path.join dirname inputImageDirectory)
                   (AtlasText.prependPath (head rest)) <$> sort files)
              (Spec.layout (sizes images)).2)))].
Proof.
  intros Hdir Hargs Hl Hwn Hfiles Hne Hdec Hw.
  pose proof (join_isAbsolute _ inputImageDirectory Hdir) as Hroot.
  pose proof (join_isAbsolute _ outputFileName Hdir) as Hout.
  assert (length (sort files) = length images) as Hlen by (by eapply Forall2_length).
  unfold AtlasText.main. rewrite Hargs.
  rewrite (generateAtlasTextFile_run _ _ _ _ _ _ _ _ Hfiles Hne Hdec).
  rewrite os_path_absolute, Hw by done. simpl.
  rewrite descriptor_of_layout, rendered_descriptor, reference_name_spec
    by (done || apply layout_x_zero).
  assert ((λ img, AtlasText.prependPath (head rest) +:+
             AtlasText.relativePathWithoutExtension w
               (Path.join dirname inputImageDirectory) img)
            <$> imageData_of (sort files) images =
          Spec.region_name (cwd w) (Path.join dirname inputImageDirectory)
            (AtlasText.prependPath (head rest)) <$> sort files) as ->; [|done].
  assert (Forall (λ f, f ∈ files) (sort files)) as Hin.
  { apply list.Forall_forall. intros f Hf. by rewrite <-sort_Permutation. }
  clear Hdec. revert images Hlen.
  induction Hin as [|f sorted Hf _ IH]; intros [|image images] Hlen; try done.
  unfold imageData_of in *. csimpl. f_equal.
  - rewrite <-(os_path_absolute w _ Hroot) in Hl.
    by apply (discovered_region_name w _ entries files).
  - apply IH. simpl in Hlen. lia.
Qed.

Lemma descriptor_is_the_specified_document_witness :
  written (AtlasText.main scenario "/repo/scripts"
             ["node"; "generate_atlas_text.js"; "images"; "out/atlas.atlas"; "sprites"]
             start).1 =
    [(Path.join "/repo/scripts" "out/atlas.atlas",
      TextFile
        (Spec.descriptor (Spec.reference_name "out/atlas.atlas")
           (Spec.layout (sizes [scenario_image_1; scenario_image_2])).1
           (zip (Spec.region_name (cwd scenario) (Path.join "/repo/scripts" "images")
                   (AtlasText.prependPath (head ["sprites"]))
                   <$> sort ["/repo/scripts/images/b/2.png"; "/repo/scripts/images/a/1.png"])
              (Spec.layout (sizes [scenario_image_1; scenario_image_2])).2)))].
Proof.
  apply (descriptor_is_the_specified_document scenario "/repo/scripts"
           ["node"; "generate_atlas_text.js"; "images"; "out/atlas.atlas"; "sprites"]
           "images" "out/atlas.atlas" ["sprites"] scenario_root
           ["/repo/scripts/images/b/2.png"; "/repo/scripts/images/a/1.png"]
           [scenario_image_1; scenario_image_2]).
  - reflexivity.
  - reflexivity.
  - reflexivity.
  - repeat first [done | constructor].
  - reflexivity.
  - discriminate.
  - repeat constructor.
  - reflexivity.
Defined.

(** The document of the scenario with the prefix [sprites]. *)
Example scenario_descriptor :
  written (AtlasText.main scenario "/repo/scripts"
             ["node"; "generate_atlas_text.js"; "images"; "out/atlas.atlas"; "sprites"]
             start).1 =
    [("/repo/scripts/out/atlas.atlas",
      TextFile
        (Spec.unlines
           ["atlas.png";
            "size: 30, 25";
            "format: RGBA8888";
            "filter: MipMapLinearLinear, MipMapLinearLinear";
            "repeat: none";
            "sprites/a/1";
            "  rotate: false";
            "  xy: 0, 0";
            "  size: 10, 20";
            "  orig: 10, 20";
            "  offset: 0, 0";
            "  index: -1";
            "sprites/b/2";
            "  rotate: false";
            "  xy: 0, 20";
            "  size: 30, 5";
            "  orig: 30, 5";
            "  offset: 0, 0";
            "  index: -1"]))].
Proof. reflexivity. Qed.

(** ** Compositing onto the transparent canvas *)

Lemma blend_table_holds : blend_table = true.
Proof. vm_compute. reflexivity. Qed.

Lemma elem_of_all_bytes (b : N) : b < 256 → In b all_bytes.
Proof.
  intros Hb. apply list_elem_of_In, list_elem_of_fmap. exists (N.to_nat b).
  split; [by rewrite N2Nat.id|]. apply elem_of_seq. lia.
Qed.

Lemma blend_alpha_transparent (r g b a : N) :
  a < 256 → Jimp.blend_byte 3 (r, g, b, a) transparent = a.
Proof.
  intros Ha. pose proof blend_table_holds as H. unfold blend_table in H.
  rewrite forallb_forall in H. specialize (H a (elem_of_all_bytes a Ha)).
  apply andb_prop in H as [H _]. by apply bool_decide_eq_true in H.
Qed.

Lemma blend_color_transparent (c a : N) :
  c < 256 → a < 256 →
  color_onto_transparent c a (Jimp.blend_byte 0 (c, 0, 0, a) transparent) = true.
Proof.
  intros Hc Ha. pose proof blend_table_holds as H. unfold blend_table in H.
  rewrite forallb_forall in H. specialize (H a (elem_of_all_bytes a Ha)).
  apply andb_prop in H as [_ H]. rewrite forallb_forall in H.
  by apply H, elem_of_all_bytes.
Qed.

Lemma blend_pixel_transparent (r g b a : N) :
  r < 256 → g < 256 → b < 256 → a < 256 →
  onto_transparent (r, g, b, a) (Jimp.blend_pixel (r, g, b, a) transparent).
Proof.
  intros Hr Hg Hb Ha. unfold onto_transparent, Jimp.blend_pixel.
  split; [by apply blend_alpha_transparent|].
  split; [|split].
  - apply (blend_color_transparent r a Hr Ha).
  - apply (blend_color_transparent g a Hg Ha).
  - apply (blend_color_transparent b a Hb Ha).
Qed.

Lemma byte_index_div_mod (P ch : N) :
  ch < 4 → (P * 4 + ch) / 4 = P ∧ (P * 4 + ch) mod 4 = ch.
Proof.
  intros Hch. split; symmetry.
  - apply (N.div_unique _ 4 P ch); lia.
  - apply (N.mod_unique _ 4 P ch); lia.
Qed.

Lemma pixel_index_div_mod (W row sx : N) :
  sx < W → (W * row + sx) / W = row ∧ (W * row + sx) mod W = sx.
Proof.
  intros Hsx. split; symmetry.
  - apply (N.div_unique _ W row sx); lia.
  - apply (N.mod_unique _ W row sx); lia.
Qed.

Lemma composite_length base src x y :
  length (Jimp.data (Jimp.composite base src x y)) = length (Jimp.data base).
Proof. apply length_imap. Qed.

Lemma composite_byte_lookup base src x y (J : N) :
  Jimp.byte (Jimp.composite base src x y) J =
  match Jimp.data base !! N.to_nat J with
  | Some old => Jimp.composite_byte base src x y (N.to_nat J) old
  | None => 0
  end.
Proof.
  unfold Jimp.byte, Jimp.composite. simpl. rewrite list_lookup_imap.
  by destruct (Jimp.data base !! N.to_nat J).
Qed.

(** A byte of a pixel outside the placed image keeps its value. *)
Lemma composite_outside base src y (J : N) :
  ¬ (J / 4 mod Jimp.width base < Jimp.width src ∧
     y ≤ J / 4 / Jimp.width base ∧ J / 4 / Jimp.width base < y + Jimp.height src) →
  Jimp.byte (Jimp.composite base src 0 y) J = Jimp.byte base J.
Proof.
  intros Hout. rewrite composite_byte_lookup. unfold Jimp.byte.
  destruct (Jimp.data base !! N.to_nat J) as [old|]; [|done]. simpl.
  unfold Jimp.composite_byte. rewrite N2Nat.id.
  rewrite decide_False; [done|]. intros (_ & H1 & H2 & H3). apply Hout.
  repeat split; [|done..]. lia.
Qed.

(** A byte of a pixel inside the placed image, on a canvas that is still
    transparent there, is the blend of the source pixel onto a
    transparent one. *)
Lemma composite_inside base src y (sx sy ch : N) :
  sx < Jimp.width src → sx < Jimp.width base → sy < Jimp.height src → ch < 4 →
  (Jimp.width base * (y + sy) + sx) * 4 + ch < N.of_nat (length (Jimp.data base)) →
  (∀ k, k < 4 → Jimp.byte base ((Jimp.width base * (y + sy) + sx) * 4 + k) = 0) →
  Jimp.byte (Jimp.composite base src 0 y) ((Jimp.width base * (y + sy) + sx) * 4 + ch) =
  Jimp.blend_byte ch (Jimp.getPixel src sx sy) transparent.
Proof.
  intros Hsx HsxW Hsy Hch Hrange Hzero. rewrite composite_byte_lookup.
  destruct (Jimp.data base !! N.to_nat _) as [old|] eqn:Hold.
  2: { apply lookup_ge_None in Hold. lia. }
  unfold Jimp.composite_byte. rewrite N2Nat.id.
  destruct (byte_index_div_mod (Jimp.width base * (y + sy) + sx) ch Hch) as [-> ->].
  destruct (pixel_index_div_mod (Jimp.width base) (y + sy) sx HsxW) as [-> ->].
  rewrite decide_True by lia.
  replace (y + sy - y) with sy by lia. replace (sx - 0) with sx by lia.
  f_equal. unfold Jimp.pixel_at.
  pose proof (Hzero 0 eq_refl) as H0. pose proof (Hzero 1 eq_refl) as H1.
  pose proof (Hzero 2 eq_refl) as H2. pose proof (Hzero 3 eq_refl) as H3.
  unfold Jimp.byte in *. by rewrite H0, H1, H2, H3.
Qed.

Local Arguments Jimp.blend_byte : simpl never.
Local Arguments Jimp.getPixel : simpl never.
Local Arguments Jimp.byte : simpl never.
Local Arguments Jimp.composite : simpl never.

Lemma composite_width base src x y :
  Jimp.width (Jimp.composite base src x y) = Jimp.width base.
Proof. done. Qed.

Lemma sum_take_cons (i : nat) (h : N) (hs : list N) :
  Spec.sum (take (S i) (h :: hs)) = h + Spec.sum (take i hs).
Proof. done. Qed.

Lemma index_row_col (W row sx ch : N) :
  sx < W → ch < 4 →
  ((W * row + sx) * 4 + ch) / 4 / W = row ∧ ((W * row + sx) * 4 + ch) / 4 mod W = sx.
Proof.
  intros Hsx Hch. destruct (byte_index_div_mod (W * row + sx) ch Hch) as [-> _].
  by apply pixel_index_div_mod.
Qed.

(** The bytes of the sheet after the compositing loop, started at the
    offset [Y] on a sheet that is transparent from the row [Y] on. *)
Lemma composite_loop_bytes images sheet Y H :
  length (Jimp.data sheet) = N.to_nat (Jimp.width sheet * H * 4) →
  Forall (λ img, Jimp.width img ≤ Jimp.width sheet) images →
  Y + Spec.sum (Jimp.height <$> images) ≤ H →
  (∀ J, Y ≤ J / 4 / Jimp.width sheet → Jimp.byte sheet J = 0) →
  let sheet' := (Atlas.composite_loop Jimp.composite images sheet Y).1 in
  let W := Jimp.width sheet in
  (∀ J, J / 4 / W < Y → Jimp.byte sheet' J = Jimp.byte sheet J) ∧
  (∀ i img sx sy ch,
     images !! i = Some img → sx < Jimp.width img → sy < Jimp.height img → ch < 4 →
     Jimp.byte sheet'
       ((W * (Y + Spec.sum (take i (Jimp.height <$> images)) + sy) + sx) * 4 + ch) =
     Jimp.blend_byte ch (Jimp.getPixel img sx sy) transparent) ∧
  (∀ i img sx sy ch,
     images !! i = Some img → Jimp.width img ≤ sx → sx < W → sy < Jimp.height img → ch < 4 →
     Jimp.byte sheet'
       ((W * (Y + Spec.sum (take i (Jimp.height <$> images)) + sy) + sx) * 4 + ch) = 0).
Proof.
  revert sheet Y. induction images as [|img images IH]; intros sheet Y Hlen Hw HH Hzero.
  { simpl. repeat split; [done|..]; intros i; by rewrite lookup_nil. }
  inversion Hw as [|? ? Hwimg Hwimages]; subst.
  assert (Spec.sum (Jimp.height <$> img :: images) =
          Jimp.height img + Spec.sum (Jimp.height <$> images)) as Hsum by done.
  rewrite Hsum in HH.
  destruct (IH (Jimp.composite sheet img 0 Y) (Y + Jimp.height img))
    as (IH1 & IH2 & IH3).
  { by rewrite composite_length. }
  { done. }
  { lia. }
  { rewrite composite_width. intros J HJ. rewrite composite_outside by lia.
    apply Hzero. lia. }
  rewrite composite_width in IH1, IH2, IH3. cbv zeta. cbn [Atlas.composite_loop].
  repeat split.
  - intros J HJ. rewrite IH1 by lia. apply composite_outside. lia.
  - intros [|i] img' sx sy ch Hi Hsx Hsy Hch.
    + simpl in Hi. injection Hi as <-.
      replace (Y + Spec.sum (take 0 (Jimp.height <$> img :: images)) + sy)
        with (Y + sy) by (unfold Spec.sum; simpl; lia).
      assert (sx < Jimp.width sheet) as HsxW by lia.
      destruct (index_row_col (Jimp.width sheet) (Y + sy) sx ch HsxW Hch) as [Hrow Hcol].
      rewrite IH1 by lia.
      apply composite_inside; [done..| |].
      * rewrite Hlen, N2Nat.id. nia.
      * intros k Hk. apply Hzero.
        destruct (index_row_col (Jimp.width sheet) (Y + sy) sx k HsxW Hk) as [-> _]. lia.
    + simpl in Hi.
      replace (Y + Spec.sum (take (S i) (Jimp.height <$> img :: images)) + sy)
        with (Y + Jimp.height img + Spec.sum (take i (Jimp.height <$> images)) + sy)
        by (rewrite fmap_cons, sum_take_cons; lia).
      by apply IH2.
  - intros [|i] img' sx sy ch Hi Hsx HsxW Hsy Hch.
    + simpl in Hi. injection Hi as <-.
      replace (Y + Spec.sum (take 0 (Jimp.height <$> img :: images)) + sy)
        with (Y + sy) by (unfold Spec.sum; simpl; lia).
      destruct (index_row_col (Jimp.width sheet) (Y + sy) sx ch HsxW Hch) as [Hrow Hcol].
      rewrite IH1 by lia. rewrite composite_outside by lia. apply Hzero. lia.
    + simpl in Hi.
      replace (Y + Spec.sum (take (S i) (Jimp.height <$> img :: images)) + sy)
        with (Y + Jimp.height img + Spec.sum (take i (Jimp.height <$> images)) + sy)
        by (rewrite fmap_cons, sum_take_cons; lia).
      by apply (IH3 i img').
Qed.

(** *** The canvas *)

Lemma create_transparent_data (n : nat) :
  mjoin (replicate n (Jimp.uint32BE 0)) = replicate (n * 4) 0.
Proof. induction n as [|n IH]; [done|]. simpl. by rewrite IH. Qed.

Lemma create_length W H :
  length (Jimp.data (Jimp.create W H 0)) = N.to_nat (W * H * 4).
Proof.
  unfold Jimp.create. simpl. rewrite create_transparent_data, length_replicate. lia.
Qed.

(** Every byte of the new canvas is 0: every pixel is fully transparent. *)
Lemma create_transparent W H J : Jimp.byte (Jimp.create W H 0) J = 0.
Proof.
  unfold Jimp.byte, Jimp.create. simpl. rewrite create_transparent_data.
  destruct (replicate _ 0 !! N.to_nat J) as [b|] eqn:Hb; [|done].
  by apply lookup_replicate in Hb as [-> _].
Qed.

Lemma getPixel_bytes image x y :
  Jimp.getPixel image x y =
  (Jimp.byte image (Jimp.getPixelIndex image x y + 0),
   Jimp.byte image (Jimp.getPixelIndex image x y + 1),
   Jimp.byte image (Jimp.getPixelIndex image x y + 2),
   Jimp.byte image (Jimp.getPixelIndex image x y + 3)).
Proof. done. Qed.

Lemma well_formed_byte image J : Jimp.well_formed image → Jimp.byte image J < 256.
Proof.
  intros [_ Hb]. unfold Jimp.byte.
  destruct (Jimp.data image !! N.to_nat J) as [b|] eqn:E; [|done]. simpl.
  rewrite list.Forall_forall in Hb. apply Hb. by eapply list_elem_of_lookup_2.
Qed.

(** The pixels of the sheet: inside the i-th placement the blend of the
    image's pixel onto a transparent one, to the right of it a
    transparent pixel. *)
Lemma spritesheet_pixels images i image p :
  images !! i = Some image →
  (Spec.layout (sizes images)).2 !! i = Some p →
  Spec.x p = 0 ∧
  (∀ sx sy, sx < Jimp.width image → sy < Jimp.height image →
     Jimp.getPixel (spritesheet_of images) sx (Spec.y p + sy) =
     Jimp.blend_pixel (Jimp.getPixel image sx sy) transparent) ∧
  (∀ sx sy, Jimp.width image ≤ sx → sx < Jimp.width (spritesheet_of images) →
     sy < Jimp.height image →
     Jimp.getPixel (spritesheet_of images) sx (Spec.y p + sy) = transparent).
Proof.
  intros Hi Hp.
  destruct (layout_from_lookup _ _ _ _ Hp) as (w' & h' & _ & ->). simpl.
  assert ((sizes images).*2 = Jimp.height <$> images) as ->
    by (unfold sizes; by rewrite <-list_fmap_compose).
  set (W := foldl N.max 0 (Jimp.width <$> images)).
  set (H := foldl N.add 0 (Jimp.height <$> images)).
  destruct (composite_loop_bytes images (Jimp.create W H 0) 0 H) as (_ & Hin & Hout).
  { apply create_length. }
  { apply list.Forall_forall. intros img Himg. simpl. apply foldl_max_le. right.
    apply list_elem_of_fmap. by exists img. }
  { unfold H. rewrite foldl_add_sum. lia. }
  { intros J _. apply create_transparent. }
  fold (spritesheet_of images) in Hin, Hout. simpl in Hin, Hout.
  assert (Jimp.width (spritesheet_of images) = W) as HW.
  { unfold spritesheet_of. by destruct (composite_loop_size images (Jimp.create W H 0) 0). }
  split; [done|]. split.
  - intros sx sy Hsx Hsy. rewrite getPixel_bytes. unfold Jimp.blend_pixel, Jimp.getPixelIndex.
    rewrite HW. by rewrite !(Hin i image sx sy).
  - intros sx sy Hsx HsxW Hsy. rewrite getPixel_bytes. unfold Jimp.getPixelIndex.
    rewrite HW in *. by rewrite !(Hout i image sx sy).
Qed.




(** ** Discovery does not depend on the enumeration order *)

Lemma same_files_found_refl r : same_files_found r r.
Proof. destruct r; simpl; [done | reflexivity]. Qed.

Lemma same_files_found_trans r1 r2 r3 :
  same_files_found r1 r2 → same_files_found r2 r3 → same_files_found r1 r3.
Proof.
  destruct r1, r2, r3; simpl; try done. intros H1 H2. by rewrite H1.
Qed.

Lemma Promise_all_cons {A} (r : string + list A) (rest : list (string + list A)) :
  flat (Promise_all (r :: rest)) =
  match r, flat (Promise_all rest) with
  | inr l, inr ls => inr (l ++ ls)
  | inl message, _ => inl message
  | inr _, inl message => inl message
  end.
Proof. destruct r; simpl; [done|]. by destruct (Promise_all rest). Qed.

Lemma Promise_all_pointwise (rs1 rs2 : list (string + list string)) :
  Forall2 same_files_found rs1 rs2 →
  same_files_found (flat (Promise_all rs1)) (flat (Promise_all rs2)).
Proof.
  induction 1 as [|r1 r2 rs1 rs2 Hr _ IH]; [simpl; reflexivity|].
  rewrite !Promise_all_cons.
  destruct r1, r2, (flat (Promise_all rs1)), (flat (Promise_all rs2)); simpl in *;
    try done.
  by rewrite Hr, IH.
Qed.

Lemma Promise_all_Permutation (rs1 rs2 : list (string + list string)) :
  rs1 ≡ₚ rs2 → same_files_found (flat (Promise_all rs1)) (flat (Promise_all rs2)).
Proof.
  induction 1 as [|r rs1 rs2 _ IH|r1 r2 rs|rs1 rs2 rs3 _ IH1 _ IH2].
  - simpl. reflexivity.
  - rewrite !Promise_all_cons.
    destruct r, (flat (Promise_all rs1)), (flat (Promise_all rs2)); simpl in *; try done.
    by rewrite IH.
  - rewrite !Promise_all_cons.
    destruct r1, r2, (flat (Promise_all rs)); simpl; try done.
    rewrite !app_assoc. by rewrite (Permutation_app_comm l0 l).
  - by eapply same_files_found_trans.
Qed.

Lemma scan_entry_reordered entry1 entry2 dir :
  reordered entry1 entry2 →
  same_files_found (scan_entry dir entry1) (scan_entry dir entry2).
Proof.
  revert entry2 dir.
  induction entry1 as [name type|name entries IH|name message] using fs_node_ind;
    intros entry2 dir Hr; inversion Hr as [|? ? shuffled entries2 Hperm Hall|]; subst.
  - apply same_files_found_refl.
  - simpl.
    apply (same_files_found_trans _
             (flat (Promise_all (map (scan_entry (Path.join dir name)) shuffled)))).
    + apply Promise_all_Permutation. by apply Permutation_map.
    + apply Promise_all_pointwise, Forall2_fmap.
      rewrite list.Forall_forall in IH.
      assert (∀ e, e ∈ shuffled → e ∈ entries) as Hin
        by (intros e He; by rewrite Hperm).
      clear Hperm Hr. induction Hall as [|e1 e2 l1 l2 He _ IHall]; [constructor|].
      constructor.
      * apply IH; [apply Hin; left | done].
      * apply IHall. intros e He'. apply Hin. by right.
  - apply same_files_found_refl.
Qed.

(** X7: two runs of discovery on the same tree, whatever order [readdir]
    lists each directory in, lead to the same sorted sequence. *)
Theorem discovery_order_is_reproducible w1 w2 dir entries1 shuffled entries2 files1 :
  listing w1 (os_path w1 dir) = inr entries1 →
  listing w2 (os_path w2 dir) = inr entries2 →
  entries1 ≡ₚ shuffled →
  Forall2 reordered shuffled entries2 →
  getImageFilesRecursively w1 dir = inr files1 →
  ∃ files2, getImageFilesRecursively w2 dir = inr files2 ∧ sort files1 = sort files2.
Proof.
  intros H1 H2 Hperm Hall. unfold getImageFilesRecursively. rewrite H1, H2.
  pose proof (scan_entry_reordered (Directory "" entries1) (Directory "" entries2) dir
                (reordered_directory _ _ _ _ Hperm Hall)) as H.
  simpl in H. intros Hfiles.
  assert (∀ d, same_files_found
            (flat (Promise_all (map (scan_entry d) entries1)))
            (flat (Promise_all (map (scan_entry d) entries2)))) as Hsame.
  { intros d.
    apply (same_files_found_trans _ (flat (Promise_all (map (scan_entry d) shuffled)))).
    - apply Promise_all_Permutation. by apply Permutation_map.
    - apply Promise_all_pointwise, Forall2_fmap.
      clear -Hall. induction Hall; constructor; [by apply scan_entry_reordered | done]. }
  specialize (Hsame dir). rewrite Hfiles in Hsame.
  destruct (flat (Promise_all (map (scan_entry dir) entries2))) as [|files2]; [done|].
  exists files2. split; [done|].
  apply sort_unique; [apply sort_Sorted|]. by rewrite sort_Permutation.
Qed.

Lemma discovery_order_is_reproducible_witness :
  ∃ files2,
    getImageFilesRecursively scenario_other_order "/repo/scripts/images" = inr files2 ∧
    sort ["/repo/scripts/images/b/2.png"; "/repo/scripts/images/a/1.png"] = sort files2.
Proof.
  apply (discovery_order_is_reproducible scenario scenario_other_order "/repo/scripts/images"
           scenario_root
           [Directory "a" [Entry "1.png" RegularFile];
            Directory "b" [Entry "2.png" RegularFile; Entry "notes.txt" RegularFile]]
           scenario_root_reordered).
  - reflexivity.
  - reflexivity.
  - apply perm_swap.
  - constructor; [|constructor; [|constructor]].
    + apply (reordered_directory "a" _ [Entry "1.png" RegularFile]); [reflexivity|].
      repeat constructor.
    + apply (reordered_directory "b" _
               [Entry "notes.txt" RegularFile; Entry "2.png" RegularFile]);
        [apply perm_swap|]. repeat constructor.
  - reflexivity.
Defined.

(** The scenario once more, every directory listed the other way round. *)
Example scenario_reordered :
  flat (Promise_all (map (scan_entry "/repo/scripts/images") scenario_root_reordered)) =
    inr ["/repo/scripts/images/a/1.png"; "/repo/scripts/images/b/2.png"] ∧
  flat (Promise_all (map (scan_entry "/repo/scripts/images") scenario_root)) =
    inr ["/repo/scripts/images/b/2.png"; "/repo/scripts/images/a/1.png"] ∧
  sort ["/repo/scripts/images/a/1.png"; "/repo/scripts/images/b/2.png"] =
  sort ["/repo/scripts/images/b/2.png"; "/repo/scripts/images/a/1.png"].
Proof. repeat split. Qed.

(** ** What an image extension is *)

Lemma lower_char_dot (c : ascii) : Js.lower_char c = "."%char → c = "."%char.
Proof. destruct c as [[] [] [] [] [] [] [] []]; by vm_compute. Qed.

Lemma lastIndexOf_toLowerCase (s : string) :
  Js.lastIndexOf "." (Js.toLowerCase s) = Js.lastIndexOf "." s.
Proof.
  induction s as [|c s IH]; [done|]. simpl. rewrite IH.
  destruct (Js.lastIndexOf "." s); [done|].
  destruct (decide (c = "."%char)) as [->|Hc]; [done|].
  rewrite decide_False; [done|]. intros H. by apply Hc, lower_char_dot.
Qed.

Lemma image_extension_starts_with_dot (ext : string) :
  Js.toLowerCase ext ∈ image_extensions → Js.lastIndexOf "." ext = Some 0%nat.
Proof.
  rewrite <-lastIndexOf_toLowerCase. unfold image_extensions.
  rewrite !elem_of_cons, elem_of_nil.
  intros [->|[->|[->|[->|[->|[]]]]]]; reflexivity.
Qed.

Lemma take_drop (n : nat) (s : string) : Js.take n s +:+ Js.drop n s = s.
Proof.
  revert s. induction n as [|n IH]; intros [|c s]; try done.
  simpl. by rewrite string_app_cons, IH.
Qed.

Lemma drop_app_length (a b : string) : Js.drop (String.length a) (a +:+ b) = b.
Proof. induction a as [|c a IH]; [by destruct b|]. by rewrite string_app_cons. Qed.

(** X8: a name has an image extension exactly when it is a non-empty stem
    followed by one of the five extensions, in any mix of cases. *)
Lemma has_image_extension_iff (name : string) :
  plain_name name →
  has_image_extension name ↔
  ∃ stem ext, name = stem +:+ ext ∧ stem ≠ "" ∧ Js.toLowerCase ext ∈ image_extensions.
Proof.
  intros Hname. split.
  - intros Hext. destruct (image_extension_dot name Hname Hext) as (i & Hi & Hextname).
    exists (Js.take (S i) name), (Js.drop (S i) name).
    split; [by rewrite take_drop|]. split.
    + destruct name; [by destruct Hname|done].
    + unfold has_image_extension in Hext. by rewrite Hextname in Hext.
  - intros (stem & ext & -> & Hstem & Hext). unfold has_image_extension, Path.extname.
    rewrite last_component_plain by done.
    rewrite lastIndexOf_app, (image_extension_starts_with_dot ext Hext).
    rewrite Nat.add_0_r. destruct stem as [|c stem]; [done|]. simpl String.length.
    destruct Hname as (_ & _ & Hdd & _). rewrite decide_False by done.
    change (S (String.length stem)) with (String.length (String c stem)).
    by rewrite drop_app_length.
Qed.

Lemma has_image_extension_iff_witness :
  has_image_extension "Tile.01.PNG" ↔
  ∃ stem ext, "Tile.01.PNG" = stem +:+ ext ∧ stem ≠ "" ∧
              Js.toLowerCase ext ∈ image_extensions.
Proof.
  apply (has_image_extension_iff "Tile.01.PNG").
  split; [done|]. split; [done|]. split; [done|]. reflexivity.
Defined.

(** ** Reading the descriptor back *)

Example scenario_read_back :
  Reader.descriptor
    (descriptor_of scenario "/repo/scripts/images" "atlas.png" "sprites/"
       ["/repo/scripts/images/a/1.png"; "/repo/scripts/images/b/2.png"]
       [scenario_image_1; scenario_image_2]) =
  Some ("atlas.png", Spec.CanvasSpec 30 25,
        [("sprites/a/1", Spec.Placement 0 0 10 20);
         ("sprites/b/2", Spec.Placement 0 20 30 5)]).
Proof. reflexivity. Qed.

Lemma digit_pretty_char (d : N) : d < 10 → Reader.digit (pretty_N_char d) = Some d.
Proof.
  intros Hd.
  assert (d = 0 ∨ d = 1 ∨ d = 2 ∨ d = 3 ∨ d = 4 ∨ d = 5 ∨ d = 6 ∨ d = 7 ∨ d = 8 ∨ d = 9)
    as H by lia.
  repeat (destruct H as [->|H]; [reflexivity|]). by subst.
Qed.

Lemma includes_pretty_go (c : ascii) (x : N) (s : string) :
  Reader.digit c = None → Js.includes c (pretty_N_go x s) = Js.includes c s.
Proof.
  intros Hc. revert s. induction (N.lt_wf_0 x) as [x _ IH]; intros s.
  destruct (decide (x = 0)) as [->|Hx]; [by rewrite pretty_N_go_0|].
  rewrite pretty_N_go_step by lia. rewrite IH by (apply N.div_lt; lia). simpl.
  rewrite bool_decide_eq_false_2; [done|]. intros <-.
  rewrite digit_pretty_char in Hc; [done|]. apply N.mod_lt. lia.
Qed.

Lemma includes_pretty (c : ascii) (n : N) :
  Reader.digit c = None → Js.includes c (pretty n) = false.
Proof.
  intros Hc. unfold pretty, pretty_N. destruct (decide (n = 0)) as [->|Hn].
  - simpl. rewrite bool_decide_eq_false_2; [done|]. by intros <-.
  - by rewrite includes_pretty_go.
Qed.

Lemma pretty_go_nonempty (x : N) (s : string) : s ≠ "" → pretty_N_go x s ≠ "".
Proof.
  revert s. induction (N.lt_wf_0 x) as [x _ IH]; intros s Hs.
  destruct (decide (x = 0)) as [->|Hx]; [by rewrite pretty_N_go_0|].
  rewrite pretty_N_go_step by lia. apply IH; [apply N.div_lt; lia | done].
Qed.

Lemma digits_pretty_go (x : N) (s : string) :
  ∃ k, ∀ acc, Reader.digits acc (pretty_N_go x s) = Reader.digits (acc * k + x) s.
Proof.
  revert s. induction (N.lt_wf_0 x) as [x _ IH]; intros s.
  destruct (decide (x = 0)) as [->|Hx].
  { exists 1. intros acc. rewrite pretty_N_go_0. f_equal. lia. }
  destruct (IH (x `div` 10) ltac:(apply N.div_lt; lia)
              (String (pretty_N_char (x `mod` 10)) s)) as [k Hk].
  exists (k * 10). intros acc. rewrite pretty_N_go_step, Hk by lia. simpl.
  rewrite digit_pretty_char by (apply N.mod_lt; lia). f_equal.
  pose proof (N.div_mod x 10 ltac:(lia)). lia.
Qed.

Lemma number_pretty (n : N) : Reader.number (pretty n) = Some n.
Proof.
  unfold Reader.number, pretty, pretty_N.
  destruct (decide (n = 0)) as [->|Hn]; [reflexivity|].
  rewrite decide_False.
  - destruct (digits_pretty_go n "") as [k ->]. simpl. f_equal; lia.
  - rewrite pretty_N_go_step by lia. by apply pretty_go_nonempty.
Qed.

Lemma includes_app (c : ascii) (a b : string) :
  Js.includes c (a +:+ b) = Js.includes c a || Js.includes c b.
Proof.
  induction a as [|d a IH]; [done|]. rewrite string_app_cons. simpl.
  by rewrite IH, orb_assoc.
Qed.

Lemma split_unlines (lines : list string) :
  Forall (λ line, Js.includes (ascii_of_N 10) line = false) lines →
  Js.split (ascii_of_N 10) (Spec.unlines lines) = lines ++ [""].
Proof.
  induction 1 as [|line lines Hline _ IH]; [done|]. simpl.
  change (line +:+ Js.LF +:+ Spec.unlines lines)
    with (line +:+ String (ascii_of_N 10) (Spec.unlines lines)).
  by rewrite split_app_separator, IH, split_without_separator.
Qed.

Lemma strip_prefix_app (prefix s : string) :
  Reader.strip_prefix prefix (prefix +:+ s) = Some s.
Proof.
  induction prefix as [|c prefix IH]; [done|].
  rewrite string_app_cons. simpl. by rewrite decide_True.
Qed.

Lemma field_rendered (key : string) (a b : N) :
  Reader.field key (key +:+ pretty a +:+ ", " +:+ pretty b) = Some (a, b).
Proof.
  unfold Reader.field. rewrite strip_prefix_app.
  change (pretty a +:+ ", " +:+ pretty b)
    with (pretty a +:+ String ","%char (String " "%char (pretty b))).
  rewrite split_app_separator.
  rewrite (split_without_separator _ (pretty a)) by (by apply includes_pretty).
  rewrite (split_without_separator _ (String " "%char (pretty b))).
  - simpl. by rewrite !number_pretty.
  - simpl. by apply includes_pretty.
Qed.

Lemma regions_block (name rotate xy size orig offset index : string) (rest : list string) :
  Reader.regions (name :: rotate :: xy :: size :: orig :: offset :: index :: rest) =
  match Reader.field "  xy: " xy, Reader.field "  size: " size,
        Reader.field "  orig: " orig, Reader.regions rest with
  | Some (x, y), Some (w, h), Some orig, Some others =>
      if decide (rotate = "  rotate: false" ∧ orig = (w, h) ∧
                 offset = "  offset: 0, 0" ∧ index = "  index: -1")
      then Some ((name, Spec.Placement x y w h) :: others)
      else None
  | _, _, _, _ => None
  end.
Proof. destruct name; reflexivity. Qed.

Lemma regions_read_back (placed : list (string * Spec.placement)) :
  Reader.regions (mjoin (Spec.region_block <$> placed) ++ [""]) = Some placed.
Proof.
  induction placed as [|[name [x y w h]] placed IH]; [done|].
  change (mjoin (Spec.region_block <$> (name, Spec.Placement x y w h) :: placed) ++ [""])
    with (name :: "  rotate: false" ::
          ("  xy: " +:+ pretty x +:+ ", " +:+ pretty y) ::
          ("  size: " +:+ pretty w +:+ ", " +:+ pretty h) ::
          ("  orig: " +:+ pretty w +:+ ", " +:+ pretty h) ::
          "  offset: 0, 0" :: "  index: -1" ::
          (mjoin (Spec.region_block <$> placed) ++ [""])).
  rewrite regions_block, !field_rendered, IH. by rewrite decide_True.
Qed.

Lemma pretty_no_line_feed (n : N) : no_line_feed (pretty n).
Proof. by apply includes_pretty. Qed.

Lemma region_block_no_line_feed (region : string * Spec.placement) :
  no_line_feed region.1 → Forall no_line_feed (Spec.region_block region).
Proof.
  intros Hname. unfold Spec.region_block, no_line_feed.
  repeat constructor; try done;
    rewrite ?includes_app, ?(includes_pretty (ascii_of_N 10)); done.
Qed.

(** Reading the document of the specification gives back what it was
    written from, when no name holds a line feed. *)
Lemma descriptor_read_back name canvas (placed : list (string * Spec.placement)) :
  no_line_feed name →
  Forall (λ r, no_line_feed r.1) placed →
  Reader.descriptor (Spec.descriptor name canvas placed) = Some (name, canvas, placed).
Proof.
  intros Hname Hplaced. unfold Reader.descriptor, Spec.descriptor.
  rewrite split_unlines.
  - unfold Spec.header_lines. cbn [app].
    rewrite field_rendered, regions_read_back. rewrite decide_True by done.
    by destruct canvas.
  - apply Forall_app. split.
    + unfold Spec.header_lines, no_line_feed.
      repeat constructor; try done.
      rewrite ?includes_app, ?(includes_pretty (ascii_of_N 10)); done.
    + apply Forall_join, Forall_fmap.
      eapply list.Forall_impl; [done|]. intros r Hr. by apply region_block_no_line_feed.
Qed.

(** * Further properties of the scripts *)

(** ** Missing arguments *)

(** X1: with fewer than two arguments after the script name, both scripts
    print their usage on the error stream and end by [process.exit(1)];
    nothing is read and nothing is written. *)
Theorem missing_arguments_end_with_usage w dirname argv p :
  (length argv < 4)%nat →
  Atlas.main w dirname argv p =
    (Process
       (console p ++
          [console_error [Str "Error: Both image directory and output file name must be provided as command-line arguments."];
           console_error [Str "Usage: node atlas.js <image_directory_path> <output_spritesheet_name>"]])
       (written p), Exit 1) ∧
  AtlasText.main w dirname argv p =
    (Process
       (console p ++
          [console_error [Str "Error: Both image directory and output file name must be provided as command-line arguments."];
           console_error [Str "Usage: node generate_atlas_text.js <image_directory_path> <output_text_file_name> [prepend_path]"];
           console_error [Str "The third optional argument specifies a path to prepend to each image entry in the output text file."]])
       (written p), Exit 1).
Proof.
  intros Hlen. unfold Atlas.main, AtlasText.main.
  assert (drop 2 argv = [] ∨ ∃ a, drop 2 argv = [a]) as [->|[a ->]].
  { destruct argv as [|a0 [|a1 [|a2 [|a3 argv]]]]; simpl in *; eauto; lia. }
  - unfold io_bind, log_error, process_exit. simpl. by rewrite <-!app_assoc.
  - unfold io_bind, log_error, process_exit. simpl. by rewrite <-!app_assoc.
Qed.

Lemma missing_arguments_end_with_usage_witness :
  Atlas.main scenario "/repo/scripts" ["node"; "atlas.js"; "images"] start =
    (Process
       (console start ++
          [console_error [Str "Error: Both image directory and output file name must be provided as command-line arguments."];
           console_error [Str "Usage: node atlas.js <image_directory_path> <output_spritesheet_name>"]])
       (written start), Exit 1) ∧
  AtlasText.main scenario "/repo/scripts" ["node"; "atlas.js"; "images"] start =
    (Process
       (console start ++
          [console_error [Str "Error: Both image directory and output file name must be provided as command-line arguments."];
           console_error [Str "Usage: node generate_atlas_text.js <image_directory_path> <output_text_file_name> [prepend_path]"];
           console_error [Str "The third optional argument specifies a path to prepend to each image entry in the output text file."]])
       (written start), Exit 1).
Proof.
  apply (missing_arguments_end_with_usage scenario "/repo/scripts"
           ["node"; "atlas.js"; "images"] start).
  simpl. lia.
Defined.

(** ** Directories that cannot be listed *)

Lemma scan_entry_readable entry dir files :
  scan_entry dir entry = inr files → readable entry.
Proof.
  revert dir files.
  induction entry as [name type|name entries IH|name message] using fs_node_ind;
    intros dir files; simpl.
  - constructor.
  - intros [Hall _]%Promise_all_flat_inr. constructor.
    rewrite list.Forall_forall in *. intros entry Hin.
    destruct (Hall _ Hin) as [fs Hfs]. by eapply IH.
  - done.
Qed.

(** X2: discovery fulfils exactly when every directory of the tree can be
    listed; one unreadable directory at any depth makes both scripts log
    the error and end by [process.exit(1)] without writing a file. *)
Theorem unreadable_directory_aborts_the_run w dir entries :
  listing w (os_path w dir) = inr entries →
  ((∃ files, getImageFilesRecursively w dir = inr files) ↔ Forall readable entries) ∧
  (¬ Forall readable entries →
   ∀ sheetPath textPath name prefix p,
     ∃ message,
       Atlas.createSpritesheet w dir sheetPath p =
         (Process
            (console p ++ [console_error [Str "Error creating spritesheet:"; Str message]])
            (written p), Exit 1) ∧
       AtlasText.generateAtlasTextFile w dir textPath name prefix p =
         (Process
            (console p ++
               [console_error [Str "Error generating atlas text file:"; Str message]])
            (written p), Exit 1)).
Proof.
  intros Hl.
  assert ((∃ files, getImageFilesRecursively w dir = inr files) ↔ Forall readable entries)
    as Hiff.
  { unfold getImageFilesRecursively. rewrite Hl. split.
    - intros [files [Hall _]%Promise_all_flat_inr].
      rewrite list.Forall_forall in *. intros entry Hin.
      destruct (Hall _ Hin) as [fs Hfs]. by eapply scan_entry_readable.
    - intros Hr. apply Promise_all_flat_total.
      rewrite list.Forall_forall in *. intros entry Hin. by apply scan_entry_total, Hr. }
  split; [done|]. intros Hnot sheetPath textPath name prefix p.
  destruct (getImageFilesRecursively w dir) as [message|files] eqn:Hget.
  - exists message.
    by rewrite (createSpritesheet_rejected _ _ _ _ _ Hget),
      (generateAtlasTextFile_rejected _ _ _ _ _ _ _ Hget).
  - destruct Hnot. apply Hiff. by exists files.
Qed.

Lemma unreadable_directory_aborts_the_run_witness :
  ((∃ files, getImageFilesRecursively locked_world "/repo/scripts/images" = inr files) ↔
   Forall readable
     [Directory "a" [Entry "1.png" RegularFile;
                     Directory "private" [Unreadable "keys" "EACCES: permission denied"]]]) ∧
  (¬ Forall readable
       [Directory "a" [Entry "1.png" RegularFile;
                       Directory "private" [Unreadable "keys" "EACCES: permission denied"]]] →
   ∀ sheetPath textPath name prefix p,
     ∃ message,
       Atlas.createSpritesheet locked_world "/repo/scripts/images" sheetPath p =
         (Process
            (console p ++ [console_error [Str "Error creating spritesheet:"; Str message]])
            (written p), Exit 1) ∧
       AtlasText.generateAtlasTextFile locked_world "/repo/scripts/images" textPath
           name prefix p =
         (Process
            (console p ++
               [console_error [Str "Error generating atlas text file:"; Str message]])
            (written p), Exit 1)).
Proof.
  apply (unreadable_directory_aborts_the_run locked_world "/repo/scripts/images").
  reflexivity.
Defined.

(** The locked scenario: the run reports the error of the directory. *)
Example locked_run :
  Atlas.main locked_world "/repo/scripts" ["node"; "atlas.js"; "images"; "atlas.png"] start =
    (Process
       [console_error [Str "Error creating spritesheet:"; Str "EACCES: permission denied"]]
       [], Exit 1).
Proof. reflexivity. Qed.

(** ** Output that cannot be written *)

(** X3: when every image loads but the output file cannot be written, both
    scripts log the error after the list of found images and end by
    [process.exit(1)]; no file is recorded as written. *)
Theorem write_error_ends_with_exit_1
    w imageDirectory outputFilePath name prefix files images message p :
  getImageFilesRecursively w imageDirectory = inr files →
  files ≠ [] →
  decodes w (sort files) images →
  write_error w (os_path w outputFilePath) = Some message →
  Atlas.createSpritesheet w imageDirectory outputFilePath p =
    (Process
       (console p ++
          [console_log [Str (found_message (sort files)); Arr (sort files)];
           console_error [Str "Error creating spritesheet:"; Str message]])
       (written p), Exit 1) ∧
  AtlasText.generateAtlasTextFile w imageDirectory outputFilePath name prefix p =
    (Process
       (console p ++
          [console_log [Str (found_message (sort files)); Arr (sort files)];
           console_error [Str "Error generating atlas text file:"; Str message]])
       (written p), Exit 1).
Proof.
  intros Hfiles Hne Hdec Hw.
  by rewrite (createSpritesheet_run _ _ _ _ _ _ Hfiles Hne Hdec),
    (generateAtlasTextFile_run _ _ _ _ _ _ _ _ Hfiles Hne Hdec), Hw.
Qed.

Lemma write_error_ends_with_exit_1_witness :
  Atlas.createSpritesheet read_only_world "/repo/scripts/images" "/repo/scripts/atlas.png"
      start =
    (Process
       (console start ++
          [console_log
             [Str (found_message
                     (sort ["/repo/scripts/images/b/2.png"; "/repo/scripts/images/a/1.png"]));
              Arr (sort ["/repo/scripts/images/b/2.png"; "/repo/scripts/images/a/1.png"])];
           console_error [Str "Error creating spritesheet:";
                          Str "EROFS: read-only file system"]])
       (written start), Exit 1) ∧
  AtlasText.generateAtlasTextFile read_only_world "/repo/scripts/images"
      "/repo/scripts/atlas.png" "atlas.png" "" start =
    (Process
       (console start ++
          [console_log
             [Str (found_message
                     (sort ["/repo/scripts/images/b/2.png"; "/repo/scripts/images/a/1.png"]));
              Arr (sort ["/repo/scripts/images/b/2.png"; "/repo/scripts/images/a/1.png"])];
           console_error [Str "Error generating atlas text file:";
                          Str "EROFS: read-only file system"]])
       (written start), Exit 1).
Proof.
  apply (write_error_ends_with_exit_1 read_only_world "/repo/scripts/images"
           "/repo/scripts/atlas.png" "atlas.png" ""
           ["/repo/scripts/images/b/2.png"; "/repo/scripts/images/a/1.png"]
           [scenario_image_1; scenario_image_2]).
  - reflexivity.
  - discriminate.
  - repeat constructor.
  - reflexivity.
Defined.

(** ** The first image that fails *)

(** X4: when an image fails to load, the run reports the first failing path
    of the sorted order, with the reason given by the decoder, and then
    the fixed message of the aborted run; images before it leave no
    trace and images after it are not reported. *)
Theorem first_failing_image_is_reported
    w imageDirectory outputFilePath name prefix files p
    loaded images imagePath message rest :
  getImageFilesRecursively w imageDirectory = inr files →
  files ≠ [] →
  sort files = (loaded ++ imagePath :: rest)%list →
  decodes w loaded images →
  Jimp_read w imagePath = inl message →
  console (Atlas.createSpritesheet w imageDirectory outputFilePath p).1 =
    console p ++
      [console_log [Str (found_message (sort files)); Arr (sort files)];
       console_error [Str ("Failed to load image at " +:+ imagePath +:+ ": " +:+ message)];
       console_error [Str "Error creating spritesheet:";
                      Str "Spritesheet creation aborted due to image loading errors"]] ∧
  console (AtlasText.generateAtlasTextFile w imageDirectory outputFilePath name prefix p).1 =
    console p ++
      [console_log [Str (found_message (sort files)); Arr (sort files)];
       console_error
         [Str ("Failed to get dimensions for image at " +:+ imagePath +:+ ": " +:+ message)];
       console_error
         [Str "Error generating atlas text file:";
          Str "Atlas text file generation aborted due to image dimension errors"]].
Proof.
  intros Hfiles Hne Hs Hl Hbad.
  by rewrite (createSpritesheet_load_error _ _ _ _ _ _ _ _ _ _ Hfiles Hne Hs Hl Hbad),
    (generateAtlasTextFile_load_error _ _ _ _ _ _ _ _ _ _ _ _ Hfiles Hne Hs Hl Hbad).
Qed.

Lemma first_failing_image_is_reported_witness :
  console (Atlas.createSpritesheet corrupt_world "/repo/scripts/images" "/out" start).1 =
    console start ++
      [console_log
         [Str (found_message
                 (sort ["/repo/scripts/images/b/2.png"; "/repo/scripts/images/a/1.png"]));
          Arr (sort ["/repo/scripts/images/b/2.png"; "/repo/scripts/images/a/1.png"])];
       console_error [Str ("Failed to load image at " +:+ "/repo/scripts/images/b/2.png" +:+
                           ": " +:+ "Could not find MIME for Buffer <null>")];
       console_error [Str "Error creating spritesheet:";
                      Str "Spritesheet creation aborted due to image loading errors"]] ∧
  console (AtlasText.generateAtlasTextFile corrupt_world "/repo/scripts/images" "/out"
             "atlas.png" "" start).1 =
    console start ++
      [console_log
         [Str (found_message
                 (sort ["/repo/scripts/images/b/2.png"; "/repo/scripts/images/a/1.png"]));
          Arr (sort ["/repo/scripts/images/b/2.png"; "/repo/scripts/images/a/1.png"])];
       console_error
         [Str ("Failed to get dimensions for image at " +:+ "/repo/scripts/images/b/2.png" +:+
               ": " +:+ "Could not find MIME for Buffer <null>")];
       console_error
         [Str "Error generating atlas text file:";
          Str "Atlas text file generation aborted due to image dimension errors"]].
Proof.
  apply (first_failing_image_is_reported corrupt_world "/repo/scripts/images" "/out"
           "atlas.png" ""
           ["/repo/scripts/images/b/2.png"; "/repo/scripts/images/a/1.png"] start
           ["/repo/scripts/images/a/1.png"] [scenario_image_1]
           "/repo/scripts/images/b/2.png" "Could not find MIME for Buffer <null>" []).
  - reflexivity.
  - discriminate.
  - reflexivity.
  - repeat constructor.
  - reflexivity.
Defined.

(** ** All or nothing *)

Lemma createSpritesheet_outcome w imageDirectory outputFilePath p :
  let r := Atlas.createSpritesheet w imageDirectory outputFilePath p in
  (r.2 = Return () ∧
   (written r.1 = written p ∨
    ∃ sheet, written r.1 = written p ++ [(os_path w outputFilePath, ImageFile sheet)])) ∨
  (r.2 = Exit 1 ∧ written r.1 = written p).
Proof.
  destruct (getImageFilesRecursively w imageDirectory) as [message|files] eqn:Hget.
  { right. by rewrite (createSpritesheet_rejected _ _ _ _ _ Hget). }
  destruct (decide (files = [])) as [->|Hne].
  { left. rewrite (createSpritesheet_empty _ _ _ _ Hget). split; [done|by left]. }
  destruct (decodes_or_fails w (sort files))
    as [[images Hdec]|(loaded & images & bad & message & rest & Hs & Hl & Hbad)].
  - rewrite (createSpritesheet_run _ _ _ _ _ _ Hget Hne Hdec).
    destruct (write_error w _); [by right|]. left. split; [done|]. right. by eexists.
  - right. by rewrite (createSpritesheet_load_error _ _ _ _ _ _ _ _ _ _ Hget Hne Hs Hl Hbad).
Qed.

Lemma generateAtlasTextFile_outcome w imageDirectory outputFilePath name prefix p :
  let r := AtlasText.generateAtlasTextFile w imageDirectory outputFilePath name prefix p in
  (r.2 = Return () ∧
   (written r.1 = written p ∨
    ∃ text, written r.1 = written p ++ [(os_path w outputFilePath, TextFile text)])) ∨
  (r.2 = Exit 1 ∧ written r.1 = written p).
Proof.
  destruct (getImageFilesRecursively w imageDirectory) as [message|files] eqn:Hget.
  { right. by rewrite (generateAtlasTextFile_rejected _ _ _ _ _ _ _ Hget). }
  destruct (decide (files = [])) as [->|Hne].
  { left. rewrite (generateAtlasTextFile_empty _ _ _ _ _ _ Hget). split; [done|by left]. }
  destruct (decodes_or_fails w (sort files))
    as [[images Hdec]|(loaded & images & bad & message & rest & Hs & Hl & Hbad)].
  - rewrite (generateAtlasTextFile_run _ _ _ _ _ _ _ _ Hget Hne Hdec).
    destruct (write_error w _); [by right|]. left. split; [done|]. right. by eexists.
  - right.
    by rewrite (generateAtlasTextFile_load_error _ _ _ _ _ _ _ _ _ _ _ _ Hget Hne Hs Hl Hbad).
Qed.

(** X5: whatever the arguments and the state of the disk, a run of either
    script ends in one of two ways: normally, having written nothing or
    exactly its one output file, or by [process.exit(1)], with no write
    completed.  No exception escapes and no other exit status occurs. *)
Theorem runs_are_all_or_nothing w dirname argv p :
  (((Atlas.main w dirname argv p).2 = Return () ∧
    (written (Atlas.main w dirname argv p).1 = written p ∨
     ∃ file sheet,
       written (Atlas.main w dirname argv p).1 = written p ++ [(file, ImageFile sheet)])) ∨
   ((Atlas.main w dirname argv p).2 = Exit 1 ∧
    written (Atlas.main w dirname argv p).1 = written p)) ∧
  (((AtlasText.main w dirname argv p).2 = Return () ∧
    (written (AtlasText.main w dirname argv p).1 = written p ∨
     ∃ file text,
       written (AtlasText.main w dirname argv p).1 = written p ++ [(file, TextFile text)])) ∨
   ((AtlasText.main w dirname argv p).2 = Exit 1 ∧
    written (AtlasText.main w dirname argv p).1 = written p)).
Proof.
  unfold Atlas.main, AtlasText.main.
  destruct (drop 2 argv) as [|i [|o rest]]; [by split; right..|]. split.
  - destruct (createSpritesheet_outcome w (Path.join dirname i) (Path.join dirname o) p)
      as [[Hr [Hw|[sheet Hw]]]|[Hr Hw]]; [left|left|right]; split; eauto.
  - destruct (generateAtlasTextFile_outcome w (Path.join dirname i) (Path.join dirname o)
                (AtlasText.outputImageReferenceName o) (AtlasText.prependPath (head rest)) p)
      as [[Hr [Hw|[text Hw]]]|[Hr Hw]]; [left|left|right]; split; eauto.
Qed.

(** ** The two scripts agree *)



(** ** The path of a discovered file *)

Lemma join_cons_nonempty (sep seg : string) (rest : list string) :
  rest ≠ [] → Js.join sep (seg :: rest) = seg +:+ sep +:+ Js.join sep rest.
Proof. by destruct rest. Qed.

Lemma join_snoc_before (below : list string) :
  ∃ before, ∀ name, Js.join "/" (below ++ [name]) = before +:+ name.
Proof.
  induction below as [|seg below [before IH]].
  - exists "". intros name. by rewrite string_app_nil_l.
  - exists (seg +:+ "/" +:+ before). intros name.
    change ((seg :: below) ++ [name]) with (seg :: (below ++ [name])).
    rewrite join_cons_nonempty by (by destruct below).
    by rewrite IH, !string_app_assoc.
Qed.

Lemma take_app_length (a b : string) (n : nat) :
  Js.take (String.length a + n) (a +:+ b) = a +:+ Js.take n b.
Proof.
  induction a as [|c a IH]; [by rewrite !string_app_nil_l|].
  rewrite !string_app_cons. simpl. by rewrite IH.
Qed.

Lemma found_path dir entry p name type :
  found dir entry p name type →
  Path.isAbsolute dir = true →
  well_named entry →
  ∃ below, Forall plain_name below ∧ plain_name name ∧ Path.isAbsolute p = true ∧
    p = Path.join (foldl Path.join dir below) name ∧
    Path.normalizeString p false = Path.normalizeString dir false ++ below ++ [name].
Proof.
  induction 1 as [dir name type|dir sub entries entry p name type Hin Hf IH];
    intros Hdir Hwn.
  - inversion Hwn; subst. exists []. split; [constructor|]. split; [done|].
    split; [by apply join_isAbsolute|]. split; [done|]. by apply normalizeString_join.
  - inversion Hwn as [|? ? Hsub Hall|]; subst.
    rewrite list.Forall_forall in Hall.
    destruct (IH (join_isAbsolute _ sub Hdir) (Hall _ Hin))
      as (below & Hbelow & Hname & Hp & Hpath & Hsegs).
    exists (sub :: below). split; [by constructor|]. split; [done|]. split; [done|].
    split; [done|].
    rewrite Hsegs, normalizeString_join by done. by rewrite <-app_assoc.
Qed.

(** X9: in a tree of ordinary names, a discovered file lies below the root
    under some directories [d1 .. dn] and has a name [stem ++ ext] with
    an image extension [ext]; its region name is [d1/../dn/stem], every
    backslash of a name being written as a slash.  Only the last
    extension is removed. *)
Theorem region_name_is_the_path_below_the_root
    w root entries files f width height :
  Path.isAbsolute root = true →
  listing w (os_path w root) = inr entries →
  Forall well_named entries →
  getImageFilesRecursively w root = inr files →
  f ∈ files →
  ∃ directories stem ext,
    f = Path.join (foldl Path.join root directories) (stem +:+ ext) ∧
    stem ≠ "" ∧ Js.toLowerCase ext ∈ image_extensions ∧
    AtlasText.relativePathWithoutExtension w root (AtlasText.ImageData f width height) =
    Js.replace_backslashes (Js.join "/" (directories ++ [stem])).
Proof.
  intros Hroot Hl Hwn Hfiles Hf.
  apply (discovered_is_found w root entries files Hl Hfiles) in Hf
    as (entry & name & type & Hin & Hfound & Hext).
  rewrite list.Forall_forall in Hwn.
  destruct (found_path _ _ _ _ _ Hfound Hroot (Hwn _ Hin))
    as (below & Hbelow & Hname & Hp & Hpath & Hsegs).
  destruct (image_extension_dot name Hname Hext) as (i & Hi & Hextname).
  exists below, (Js.take (S i) name), (Js.drop (S i) name).
  split; [by rewrite take_drop|]. split.
  { destruct name; [by destruct Hname|done]. }
  split.
  { unfold has_image_extension in Hext. by rewrite Hextname in Hext. }
  unfold AtlasText.relativePathWithoutExtension. simpl.
  rewrite (relative_below _ _ _ (below ++ [name]) Hroot Hp Hsegs).
  destruct (join_snoc_before below) as [before Hbefore]. rewrite !Hbefore.
  rewrite lastIndexOf_replace_backslashes, lastIndexOf_app, Hi. simpl Js.substring_to.
  by rewrite take_replace_backslashes, take_app_length.
Qed.

Lemma region_name_is_the_path_below_the_root_witness :
  ∃ directories stem ext,
    "/repo/scripts/images/a/1.png" =
      Path.join (foldl Path.join "/repo/scripts/images" directories) (stem +:+ ext) ∧
    stem ≠ "" ∧ Js.toLowerCase ext ∈ image_extensions ∧
    AtlasText.relativePathWithoutExtension scenario "/repo/scripts/images"
      (AtlasText.ImageData "/repo/scripts/images/a/1.png" 10 20) =
    Js.replace_backslashes (Js.join "/" (directories ++ [stem])).
Proof.
  apply (region_name_is_the_path_below_the_root scenario "/repo/scripts/images" scenario_root
           ["/repo/scripts/images/b/2.png"; "/repo/scripts/images/a/1.png"]).
  - reflexivity.
  - reflexivity.
  - repeat first [done | constructor].
  - reflexivity.
  - repeat constructor.
Defined.

(** ** No backslash in a region name *)

Lemma includes_replace_backslashes (s : string) :
  Js.includes "\" (Js.replace_backslashes s) = false.
Proof.
  induction s as [|c s IH]; [done|]. simpl. rewrite IH, orb_false_r.
  apply bool_decide_eq_false_2. by case_decide.
Qed.

Lemma includes_take (c : ascii) (n : nat) (s : string) :
  Js.includes c s = false → Js.includes c (Js.take n s) = false.
Proof.
  revert s. induction n as [|n IH]; intros [|d s]; try done. simpl.
  intros [Hd Hs]%orb_false_elim. by rewrite Hd, IH.
Qed.

(** X10: whatever the prefix argument and the path of the image, the name
    written for a region holds no backslash. *)
Theorem region_names_hold_no_backslash w imageDirectory img arg :
  Js.includes "\"
    (AtlasText.prependPath arg +:+
     AtlasText.relativePathWithoutExtension w imageDirectory img) = false.
Proof.
  rewrite includes_app. apply orb_false_intro.
  - destruct arg as [a|]; [|done]. simpl. case_decide; [done|].
    rewrite includes_app. by rewrite includes_replace_backslashes.
  - unfold AtlasText.relativePathWithoutExtension, Js.substring_to.
    destruct (Js.lastIndexOf _ _); [|done].
    apply includes_take, includes_replace_backslashes.
Qed.

(** ** The reference name *)

(** X11: the reference name written on the first line of the descriptor is
    the last component of the output name with [.png] in place of its
    extension; it holds no [/], whatever directory the output name
    contains. *)
Theorem reference_name_replaces_the_extension (outputFileName : string) :
  ∃ stem,
    Path.basename outputFileName "" = stem +:+ Path.extname outputFileName ∧
    AtlasText.outputImageReferenceName outputFileName = stem +:+ ".png" ∧
    Js.includes "/" stem = false.
Proof.
  exists (Spec.strip_extension (Path.basename outputFileName "")).
  split; [|split].
  - unfold Spec.strip_extension, Path.basename. simpl.
    rewrite extname_last_component. unfold Path.extname.
    set (name := Path.last_component outputFileName).
    destruct (Js.lastIndexOf "." name) as [[|i]|] eqn:Hi.
    + simpl. by rewrite Nat.sub_0_r, take_length, string_app_nil_r.
    + case_decide.
      * simpl. by rewrite Nat.sub_0_r, take_length, string_app_nil_r.
      * rewrite length_drop. apply lastIndexOf_lt in Hi.
        replace (String.length name - (String.length name - S i))%nat with (S i) by lia.
        by rewrite take_drop.
    + simpl. by rewrite Nat.sub_0_r, take_length, string_app_nil_r.
  - unfold AtlasText.outputImageReferenceName. by rewrite basename_without_extension.
  - unfold Spec.strip_extension, Path.basename. simpl.
    apply includes_take, last_component_includes.
Qed.

Example reference_names :
  AtlasText.outputImageReferenceName "out/atlas.atlas" = "atlas.png" ∧
  AtlasText.outputImageReferenceName "atlas" = "atlas.png" ∧
  AtlasText.outputImageReferenceName "game.v2.txt" = "game.v2.png" ∧
  AtlasText.outputImageReferenceName ".atlas" = ".atlas.png".
Proof. repeat split. Qed.

(** ** No image twice *)

Lemma Promise_all_flat_NoDup {A B K} (f : A → string + list B) (key : A → K) (tag : B → K)
    (l : list A) (files : list B) :
  flat (Promise_all (map f l)) = inr files →
  NoDup (key <$> l) →
  (∀ a fs, a ∈ l → f a = inr fs → NoDup fs ∧ ∀ p, p ∈ fs → tag p = key a) →
  NoDup files.
Proof.
  revert files. induction l as [|a l IH]; intros files; simpl.
  - intros [= <-] _ _. constructor.
  - destruct (f a) as [message|fs] eqn:Ha; [done|].
    destruct (Promise_all (map f l)) as [message|rest] eqn:Hl; [done|].
    simpl. intros [= <-] [Hnotin Hnodup]%list.NoDup_cons Hf.
    destruct (Promise_all_flat_inr f l (concat rest)) as [_ Hiff]; [by rewrite Hl|].
    destruct (Hf a fs) as [Hfs Htag]; [left|done|].
    apply list.NoDup_app. split; [done|]. split.
    + intros p Hp (a' & fs' & Hin & Hfs' & Hp')%Hiff. apply Hnotin.
      destruct (Hf a' fs') as [_ Htag']; [by right|done|].
      rewrite <-(Htag p Hp), (Htag' p Hp'). apply list_elem_of_fmap. by exists a'.
    + apply IH; [done..|]. intros a' fs' Hin. apply Hf. by right.
Qed.

Lemma scan_entry_NoDup entry dir files :
  Path.isAbsolute dir = true →
  well_named entry →
  distinct_names entry →
  scan_entry dir entry = inr files →
  NoDup files ∧
  ∀ p, p ∈ files →
    ∃ rest, Path.normalizeString p false =
            Path.normalizeString dir false ++ entry_name entry :: rest.
Proof.
  revert dir files.
  induction entry as [name type|name entries IH|name message] using fs_node_ind;
    intros dir files Hdir Hwn Hdn; simpl.
  - inversion Hwn; subst.
    case_decide; intros [= <-]; (split; [repeat constructor|]).
    + by intros ?%elem_of_nil.
    + intros p ->%list_elem_of_singleton. exists []. by apply normalizeString_join.
    + by intros p ?%elem_of_nil.
  - inversion Hwn as [|? ? Hname Hall|]; subst.
    inversion Hdn as [|? ? Hnodup Hdistinct|]; subst.
    rewrite list.Forall_forall in IH, Hall, Hdistinct.
    intros Hfiles.
    assert (∀ a fs, a ∈ entries → scan_entry (Path.join dir name) a = inr fs →
              NoDup fs ∧
              ∀ p, p ∈ fs →
                ∃ rest, Path.normalizeString p false =
                        Path.normalizeString dir false ++ name :: entry_name a :: rest)
      as Hsub.
    { intros a fs Hin Hfs.
      destruct (IH a Hin (Path.join dir name) fs (join_isAbsolute _ name Hdir)
                  (Hall _ Hin) (Hdistinct _ Hin) Hfs) as [H1 H2].
      split; [done|]. intros p Hp. destruct (H2 p Hp) as [rest ->]. exists rest.
      by rewrite normalizeString_join, <-app_assoc by done. }
    split.
    + apply (Promise_all_flat_NoDup (scan_entry (Path.join dir name))
               (λ a, Some (entry_name a))
               (λ p, Path.normalizeString p false !!
                       S (length (Path.normalizeString dir false)))
               entries files Hfiles).
      * rewrite (list_fmap_compose entry_name Some).
        apply (NoDup_fmap_2 Some), Hnodup.
      * intros a fs Hin Hfs. destruct (Hsub a fs Hin Hfs) as [H1 H2].
        split; [done|]. intros p Hp. destruct (H2 p Hp) as [rest ->].
        rewrite lookup_app_r by lia.
        by replace (S (length (Path.normalizeString dir false)) -
                    length (Path.normalizeString dir false))%nat with 1%nat by lia.
    + apply Promise_all_flat_inr in Hfiles as [_ Hiff].
      intros p (a & fs & Hin & Hfs & Hp)%Hiff.
      destruct (Hsub a fs Hin Hfs) as [_ H2]. destruct (H2 p Hp) as [rest ->]. eauto.
  - done.
Qed.

(** X17: in a tree of ordinary names where no directory holds two entries of
    the same name, discovery returns no path twice: no image is placed
    twice in the sheet or listed twice in the descriptor. *)
Theorem no_image_is_discovered_twice w dir entries files :
  Path.isAbsolute dir = true →
  listing w (os_path w dir) = inr entries →
  Forall well_named entries →
  Forall distinct_names entries →
  NoDup (entry_name <$> entries) →
  getImageFilesRecursively w dir = inr files →
  NoDup files ∧ NoDup (sort files).
Proof.
  intros Hdir Hl Hwn Hdn Hnames. unfold getImageFilesRecursively. rewrite Hl.
  intros Hfiles.
  assert (NoDup files) as Hnodup.
  { rewrite list.Forall_forall in Hwn, Hdn.
    apply (Promise_all_flat_NoDup (scan_entry dir) (λ a, Some (entry_name a))
             (λ p, Path.normalizeString p false !! length (Path.normalizeString dir false))
             entries files Hfiles).
    - rewrite (list_fmap_compose entry_name Some). apply (NoDup_fmap_2 Some), Hnames.
    - intros a fs Hin Hfs.
      destruct (scan_entry_NoDup a dir fs Hdir (Hwn _ Hin) (Hdn _ Hin) Hfs) as [H1 H2].
      split; [done|]. intros p Hp. destruct (H2 p Hp) as [rest ->].
      by rewrite lookup_app_r, Nat.sub_diag. }
  split; [done|]. by rewrite sort_Permutation.
Qed.

Lemma no_image_is_discovered_twice_witness :
  NoDup ["/repo/scripts/images/b/2.png"; "/repo/scripts/images/a/1.png"] ∧
  NoDup (sort ["/repo/scripts/images/b/2.png"; "/repo/scripts/images/a/1.png"]).
Proof.
  apply (no_image_is_discovered_twice scenario "/repo/scripts/images" scenario_root).
  - reflexivity.
  - reflexivity.
  - repeat first [done | constructor].
  - repeat first [done | constructor | apply not_elem_of_cons | apply not_elem_of_nil | split].
  - repeat first [done | constructor | apply not_elem_of_cons | apply not_elem_of_nil | split].
  - reflexivity.
Defined.

(** ** Opaque images *)

Lemma opaque_pixel_is_copied images i image p sx sy :
  images !! i = Some image →
  (Spec.layout (sizes images)).2 !! i = Some p →
  Jimp.well_formed image →
  opaque image →
  sx < Jimp.width image → sy < Jimp.height image →
  Jimp.getPixel (spritesheet_of images) sx (Spec.y p + sy) = Jimp.getPixel image sx sy.
Proof.
  intros Hi Hp Hbytes Hop Hsx Hsy.
  destruct (spritesheet_pixels images i image p Hi Hp) as (_ & Hin & _).
  rewrite Hin by done.
  pose proof (Hop sx sy Hsx Hsy) as Ha.
  rewrite getPixel_bytes in *. simpl in Ha.
  pose proof (blend_pixel_transparent _ _ _ _
                (well_formed_byte image (Jimp.getPixelIndex image sx sy + 0) Hbytes)
                (well_formed_byte image (Jimp.getPixelIndex image sx sy + 1) Hbytes)
                (well_formed_byte image (Jimp.getPixelIndex image sx sy + 2) Hbytes)
                (well_formed_byte image (Jimp.getPixelIndex image sx sy + 3) Hbytes)) as H.
  unfold onto_transparent, Jimp.blend_pixel in *. rewrite Ha in *.
  destruct H as (H3 & H0 & H1 & H2). unfold color_onto_transparent in *.
  rewrite decide_False, decide_True in H0, H1, H2 by done.
  apply bool_decide_eq_true in H0, H1, H2. by rewrite H0, H1, H2, H3.
Qed.

(** X12: the sheet of opaque images holds every pixel of every image
    unchanged at its placement. *)
Theorem opaque_images_are_copied_unchanged (images : list Jimp.bitmap) :
  Forall Jimp.well_formed images →
  Forall opaque images →
  straight_overwrite images.
Proof.
  intros Hwf Hop i image p sx sy Hi Hp Hsx Hsy.
  rewrite list.Forall_forall in Hwf, Hop.
  assert (image ∈ images) as Himage by (by eapply list_elem_of_lookup_2).
  by apply (opaque_pixel_is_copied images i image p sx sy Hi Hp (Hwf _ Himage) (Hop _ Himage)).
Qed.

Lemma opaque_images_are_copied_unchanged_witness :
  straight_overwrite [opaque_pixel 10 20 30; opaque_pixel 0 0 0].
Proof.
  apply (opaque_images_are_copied_unchanged [opaque_pixel 10 20 30; opaque_pixel 0 0 0]).
  - repeat constructor; vm_compute; reflexivity.
  - repeat constructor; intros sx sy Hsx Hsy;
      assert (sx = 0) as -> by (simpl in Hsx; lia);
      assert (sy = 0) as -> by (simpl in Hsy; lia); reflexivity.
Defined.

(** ** From the descriptor back to the images *)

(** X13: the two outputs fit together: the region the descriptor lists for
    the i-th image has the size of that image, and cutting the sheet at
    the region gives back the image, pixel for pixel, when the image is
    opaque. *)
Theorem regions_cut_the_sheet_into_the_images
    name imageFiles images i region p image :
  length imageFiles = length images →
  regions name (imageData_of imageFiles images) !! i = Some (region, p) →
  images !! i = Some image →
  Jimp.well_formed image →
  opaque image →
  Spec.width p = Jimp.width image ∧ Spec.height p = Jimp.height image ∧
  ∀ sx sy, sx < Spec.width p → sy < Spec.height p →
    Jimp.getPixel (spritesheet_of images) (Spec.x p + sx) (Spec.y p + sy) =
    Jimp.getPixel image sx sy.
Proof.
  intros Hlen Hr Hi Hwf Hop. unfold regions in Hr. rewrite regions_from in Hr.
  simpl in Hr. apply lookup_zip_Some in Hr as [_ Hp].
  rewrite sizes_imageData_of in Hp by done.
  destruct (layout_from_lookup _ _ _ _ Hp) as (w' & h' & Hwh & Heq).
  unfold sizes in Hwh. rewrite list_lookup_fmap, Hi in Hwh. injection Hwh as <- <-.
  split; [by subst|]. split; [by subst|].
  intros sx sy Hsx Hsy.
  assert (Spec.x p = 0) as -> by (by subst). rewrite N.add_0_l.
  apply (opaque_pixel_is_copied images i image p sx sy Hi Hp Hwf Hop); by subst.
Qed.

Lemma regions_cut_the_sheet_into_the_images_witness :
  Spec.width (Spec.Placement 0 1 1 1) = Jimp.width (opaque_pixel 0 255 0) ∧
  Spec.height (Spec.Placement 0 1 1 1) = Jimp.height (opaque_pixel 0 255 0) ∧
  ∀ sx sy, sx < Spec.width (Spec.Placement 0 1 1 1) →
    sy < Spec.height (Spec.Placement 0 1 1 1) →
    Jimp.getPixel (spritesheet_of [opaque_pixel 10 20 30; opaque_pixel 0 255 0])
      (Spec.x (Spec.Placement 0 1 1 1) + sx) (Spec.y (Spec.Placement 0 1 1 1) + sy) =
    Jimp.getPixel (opaque_pixel 0 255 0) sx sy.
Proof.
  apply (regions_cut_the_sheet_into_the_images AtlasText.path ["a.png"; "b.png"]
           [opaque_pixel 10 20 30; opaque_pixel 0 255 0] 1 "b.png").
  - reflexivity.
  - reflexivity.
  - reflexivity.
  - split; [reflexivity|]. repeat constructor.
  - intros sx sy Hsx Hsy.
    assert (sx = 0) as -> by (simpl in Hsx; lia).
    assert (sy = 0) as -> by (simpl in Hsy; lia). reflexivity.
Defined.

(** ** The error stream *)

Lemma createSpritesheet_reports w imageDirectory outputFilePath p :
  reports_its_outcome p (Atlas.createSpritesheet w imageDirectory outputFilePath p).
Proof.
  unfold reports_its_outcome.
  destruct (getImageFilesRecursively w imageDirectory) as [message|files] eqn:Hget.
  { rewrite (createSpritesheet_rejected _ _ _ _ _ Hget). eexists. split; [done|].
    simpl. eauto. }
  destruct (decide (files = [])) as [->|Hne].
  { rewrite (createSpritesheet_empty _ _ _ _ Hget). eexists. split; [done|].
    simpl. split; [done|]. by repeat constructor. }
  destruct (decodes_or_fails w (sort files))
    as [[images Hdec]|(loaded & images & bad & message & rest & Hs & Hl & Hbad)].
  - rewrite (createSpritesheet_run _ _ _ _ _ _ Hget Hne Hdec).
    destruct (write_error w _); eexists; (split; [done|]); simpl; [eauto|].
    split; [done|]. by repeat constructor.
  - rewrite (createSpritesheet_load_error _ _ _ _ _ _ _ _ _ _ Hget Hne Hs Hl Hbad).
    eexists. split; [done|]. simpl. eauto.
Qed.

Lemma generateAtlasTextFile_reports w imageDirectory outputFilePath name prefix p :
  reports_its_outcome p
    (AtlasText.generateAtlasTextFile w imageDirectory outputFilePath name prefix p).
Proof.
  unfold reports_its_outcome.
  destruct (getImageFilesRecursively w imageDirectory) as [message|files] eqn:Hget.
  { rewrite (generateAtlasTextFile_rejected _ _ _ _ _ _ _ Hget). eexists. split; [done|].
    simpl. eauto. }
  destruct (decide (files = [])) as [->|Hne].
  { rewrite (generateAtlasTextFile_empty _ _ _ _ _ _ Hget). eexists. split; [done|].
    simpl. split; [done|]. by repeat constructor. }
  destruct (decodes_or_fails w (sort files))
    as [[images Hdec]|(loaded & images & bad & message & rest & Hs & Hl & Hbad)].
  - rewrite (generateAtlasTextFile_run _ _ _ _ _ _ _ _ Hget Hne Hdec).
    destruct (write_error w _); eexists; (split; [done|]); simpl; [eauto|].
    split; [done|]. by repeat constructor.
  - rewrite (generateAtlasTextFile_load_error _ _ _ _ _ _ _ _ _ _ _ _ Hget Hne Hs Hl Hbad).
    eexists. split; [done|]. simpl. eauto.
Qed.

(** X18: every run of either script says how it ended.  A run that returns
    has printed at least one line and nothing on the error stream; a run
    that fails exits with status 1 and the last thing it printed is on
    the error stream.  What was on the console before stays there. *)
Theorem every_run_reports_its_outcome w dirname argv p :
  reports_its_outcome p (Atlas.main w dirname argv p) ∧
  reports_its_outcome p (AtlasText.main w dirname argv p).
Proof.
  unfold Atlas.main, AtlasText.main.
  destruct (drop 2 argv) as [|i [|o rest]].
  - split; unfold reports_its_outcome, io_bind, log_error, process_exit; simpl;
      eexists; (split; [by rewrite <-!app_assoc|]); simpl; eauto.
  - split; unfold reports_its_outcome, io_bind, log_error, process_exit; simpl;
      eexists; (split; [by rewrite <-!app_assoc|]); simpl; eauto.
  - split; [apply createSpritesheet_reports | apply generateAtlasTextFile_reports].
Qed.

(** ** No image is clipped *)

Lemma sum_take_all (l : list N) (i : nat) : Spec.sum (take i l) ≤ Spec.sum l.
Proof.
  destruct (decide (i ≤ length l)%nat) as [Hi|Hi].
  - rewrite <-(take_ge l (length l)) at 2 by done. by apply sum_take_le.
  - rewrite take_ge by lia. done.
Qed.

(** X14: every [composite] call places its image within the sheet: the image
    ends at or before the right edge and at or above the bottom edge. *)
Theorem every_image_lies_within_the_sheet images i image p :
  composite_calls images !! i = Some (image, p) →
  Spec.x p + Jimp.width image ≤ Jimp.width (spritesheet_of images) ∧
  Spec.y p + Jimp.height image ≤ Jimp.height (spritesheet_of images).
Proof.
  unfold composite_calls. rewrite composite_calls_from. simpl.
  intros [Hi Hp]%lookup_zip_Some.
  destruct (layout_from_lookup _ _ _ _ Hp) as (w' & h' & _ & ->). simpl.
  unfold spritesheet_of.
  destruct (composite_loop_size images
      (Jimp.create (foldl N.max 0 (Jimp.width <$> images))
         (foldl N.add 0 (Jimp.height <$> images)) 0) 0) as [-> ->].
  simpl. split.
  - apply foldl_max_le. right. apply list_elem_of_fmap. exists image.
    split; [done|]. by eapply list_elem_of_lookup_2.
  - rewrite foldl_add_sum.
    assert (((λ i, (Jimp.width i, Jimp.height i)) <$> images).*2 = Jimp.height <$> images)
      as -> by (by rewrite <-list_fmap_compose).
    assert ((Jimp.height <$> images) !! i = Some (Jimp.height image)) as Hh
      by (by rewrite list_lookup_fmap, Hi).
    pose proof (sum_take_S _ _ _ Hh) as HS.
    pose proof (sum_take_all (Jimp.height <$> images) (S i)). lia.
Qed.

Lemma every_image_lies_within_the_sheet_witness :
  Spec.x (Spec.Placement 0 20 30 5) + Jimp.width scenario_image_2 ≤
    Jimp.width (spritesheet_of [scenario_image_1; scenario_image_2]) ∧
  Spec.y (Spec.Placement 0 20 30 5) + Jimp.height scenario_image_2 ≤
    Jimp.height (spritesheet_of [scenario_image_1; scenario_image_2]).
Proof.
  apply (every_image_lies_within_the_sheet [scenario_image_1; scenario_image_2] 1).
  reflexivity.
Defined.

(** ** What a successful run prints *)



(** ** The descriptor determines its regions *)

Lemma descriptor_text_regions name W H n data :
  descriptor_text name W H n data =
  Spec.descriptor name (Spec.CanvasSpec W H) (regions n data).
Proof.
  unfold descriptor_text. rewrite string_app_nil_l.
  pose proof (region_loop_regions n data (AtlasText.header name W H) [] 0) as Hr.
  simpl in Hr. rewrite Hr.
  change (rendered name (Spec.CanvasSpec W H) (regions n data) =
          Spec.descriptor name (Spec.CanvasSpec W H) (regions n data)).
  apply rendered_descriptor. unfold regions. rewrite regions_from. simpl.
  apply (layout_x_zero (n <$> data)
           ((λ d, (AtlasText.width d, AtlasText.height d)) <$> data)).
Qed.

Lemma regions_of_the_data n data recorded yOffset :
  (λ r : string * Spec.placement, (r.1, Spec.width r.2, Spec.height r.2)) <$>
    (AtlasText.region_loop record_region n data recorded yOffset).1 =
  ((λ r : string * Spec.placement, (r.1, Spec.width r.2, Spec.height r.2)) <$> recorded) ++
  (region_of n <$> data).
Proof.
  revert recorded yOffset. induction data as [|img data IH]; intros recorded yOffset.
  - simpl. by rewrite app_nil_r.
  - simpl. rewrite IH. unfold record_region. rewrite fmap_app, <-app_assoc. done.
Qed.

Lemma regions_no_line_feed n data :
  Forall (λ d, no_line_feed (n d)) data →
  Forall (λ r : string * Spec.placement, no_line_feed r.1) (regions n data).
Proof.
  intros Hdata. apply list.Forall_forall. intros r Hr.
  assert ((r.1, Spec.width r.2, Spec.height r.2) ∈ region_of n <$> data) as Hin.
  { pose proof (regions_of_the_data n data [] 0) as H. simpl in H.
    unfold regions in Hr. rewrite <-H. apply list_elem_of_fmap. by exists r. }
  apply list_elem_of_fmap in Hin as (d & Heq & Hd).
  rewrite list.Forall_forall in Hdata. injection Heq as -> _ _. by apply Hdata.
Qed.

(** X16: two descriptors that are the same text name the same sheet, give
    the same canvas size and list the same regions, with the same names
    and sizes in the same order, provided no name holds a line feed. *)
Theorem descriptor_determines_its_regions
    name1 name2 W1 H1 W2 H2 (n1 n2 : AtlasText.image_data → string) data1 data2 :
  no_line_feed name1 → no_line_feed name2 →
  Forall (λ d, no_line_feed (n1 d)) data1 →
  Forall (λ d, no_line_feed (n2 d)) data2 →
  descriptor_text name1 W1 H1 n1 data1 = descriptor_text name2 W2 H2 n2 data2 →
  name1 = name2 ∧ W1 = W2 ∧ H1 = H2 ∧ region_of n1 <$> data1 = region_of n2 <$> data2.
Proof.
  intros Hn1 Hn2 Hd1 Hd2 Heq. rewrite !descriptor_text_regions in Heq.
  apply (f_equal Reader.descriptor) in Heq.
  rewrite !descriptor_read_back in Heq by (done || by apply regions_no_line_feed).
  injection Heq as -> -> -> Hregions. repeat split.
  pose proof (regions_of_the_data n1 data1 [] 0) as R1.
  pose proof (regions_of_the_data n2 data2 [] 0) as R2.
  simpl in R1, R2. rewrite <-R1, <-R2. unfold regions in Hregions. by rewrite Hregions.
Qed.

Lemma descriptor_determines_its_regions_witness :
  "atlas.png" = "atlas.png" ∧ 30 = 30 ∧ 25 = 25 ∧
  region_of (λ d, "a/1") <$> [AtlasText.ImageData "/images/a/1.png" 30 25] =
  region_of AtlasText.path <$> [AtlasText.ImageData "a/1" 30 25].
Proof.
  apply (descriptor_determines_its_regions "atlas.png" "atlas.png" 30 25 30 25
           (λ d, "a/1") AtlasText.path
           [AtlasText.ImageData "/images/a/1.png" 30 25]
           [AtlasText.ImageData "a/1" 30 25]).
  - reflexivity.
  - reflexivity.
  - repeat constructor.
  - repeat constructor.
  - reflexivity.
Defined.
